(** * NBT Web Explorer: region headers, chunk extraction, block sections
      and the editable tag tree, embedded from the TypeScript sources.

    Conventions of the embedding.
    - A JavaScript number that holds an integer is a [Z]; the 32-bit
      coercions that the bitwise operators apply are written out
      ([toInt32], [toUint32]).  A BigInt is a [Z] as well.
    - [undefined] coming out of an out-of-range typed-array read is
      [None]; the bitwise operators coerce it to 0.
    - Objects that are mutated in place are modelled twice: structurally
      (module [Tree], the tree a reader of the result observes) and with
      object identity (module [Heap], a store of cells with explicit
      allocation), the latter for the frame property of the edits. *)

From Stdlib Require Import ZArith Lia List Bool String Ascii.
From stdpp Require Import base tactics option list numbers strings pretty.

Local Open Scope Z_scope.

(** ** JavaScript integer primitives *)

Module JS.

  (** ToInt32 and ToUint32 of an integer-valued number. *)
Definition toInt32 (z : Z) : Z := (z + 2 ^ 31) mod 2 ^ 32 - 2 ^ 31.
Definition toUint32 (z : Z) : Z := z mod 2 ^ 32.

  (** [a << b], [a >> b], [a >>> b], [a | b], [a & b] on numbers. *)
Definition shl (a b : Z) : Z :=
    toInt32 (Z.shiftl (toInt32 a) (toUint32 b mod 32)).
Definition sar (a b : Z) : Z :=
    Z.shiftr (toInt32 a) (toUint32 b mod 32).
Definition shr (a b : Z) : Z :=
    Z.shiftr (toUint32 a) (toUint32 b mod 32).
Definition bor (a b : Z) : Z := toInt32 (Z.lor (toInt32 a) (toInt32 b)).
Definition band (a b : Z) : Z := toInt32 (Z.land (toInt32 a) (toInt32 b)).

  (** An operand that may be [undefined]: ToInt32(undefined) = 0. *)
Definition num (o : option Z) : Z := default 0 o.

  (** [Number(b)] of a BigInt [b]: exact in the safe-integer range, the
      only range in which the sources use it; outside it the double is
      rounded, which is not modelled. *)
Definition Number (b : Z) : option Z :=
    if (Z.abs b <=? 2 ^ 53) then Some b else None.

  (** Slot of a [BigInt64Array]: BigInt.asIntN(64, v). *)
Definition asInt64 (v : Z) : Z := (v + 2 ^ 63) mod 2 ^ 64 - 2 ^ 63.

  (** [typedArray[i]]: [undefined] out of range. *)
Definition u8_at (buffer : list Z) (i : Z) : option Z :=
    if i <? 0 then None else buffer !! Z.to_nat i.

End JS.

(** ** 64-bit values across the prismarine boundary (nbt/parser) *)

Module Long.

  (** What prismarine-nbt hands over for a long: a [high, low] pair of
      numbers, or a scalar. *)
Inductive plong : Type :=
  | PArr (high low : Z)
  | PScalar (v : Z).

  (** convertToPrismarineValue, case TagType.Long:
      [Number(bigVal >> 32n), Number(bigVal & 0xffffffffn)]. *)
Definition convertToPrismarineValue_long (bigVal : Z) : option plong :=
    hi ← JS.Number (Z.shiftr bigVal 32);
    lo ← JS.Number (Z.land bigVal 4294967295);
    Some (PArr hi lo).

  (** convertValue, case "long":
      Array.isArray(value)
        ? BigInt(value[0]) * BigInt(2 ** 32) + BigInt(value[1] >>> 0)
        : BigInt(value). *)
Definition convertValue_long (value : plong) : Z :=
    match value with
    | PArr v0 v1 => v0 * 2 ^ 32 + JS.shr v1 0
    | PScalar v => v
    end.

  (** convertToPrismarineValue, case TagType.LongArray:
      Array.from(arr).map(v => [Number(v >> 32n), Number(v & 0xffffffffn)]). *)
Definition convertToPrismarineValue_longArray (arr : list Z)
    : option (list plong) :=
    mapM convertToPrismarineValue_long arr.

  (** convertValue, case "longArray": every element is combined and
      stored into a fresh BigInt64Array. *)
Definition convertValue_longArray (value : list plong) : list Z :=
    map (fun v => JS.asInt64 (convertValue_long v)) value.

Definition is_int64 (v : Z) : Prop := - 2 ^ 63 <= v < 2 ^ 63.

End Long.

(** ** Packed block states (mca/parser, extractBlocks) *)

Module Packed.

  (** A word of a BlockStates / data array as the decoder may meet it. *)
Inductive longVal : Type :=
  | LBig (v : Z)               (* typeof longVal === 'bigint' *)
  | LPair (v0 v1 : Z)          (* Array.isArray(longVal): [high, low] *)
  | LNum (n : Z)               (* typeof longVal === 'number' *)
  | LOther.

Definition SECTION_SIZE : Z := 16 * 16 * 16.

  (** Math.max(4, Math.ceil(Math.log2(palette.length))).  For lengths an
      array can have, the double logarithm rounds up to [Z.log2_up]. *)
Definition bitsPerBlock (paletteLength : Z) : Z :=
    Z.max 4 (Z.log2_up paletteLength).

  (** Math.floor(64 / bitsPerBlock). *)
Definition blocksPerLong (bits : Z) : Z := 64 / bits.

Definition word_at (ws : list longVal) (longIndex : Z) : option longVal :=
    if longIndex <? 0 then None else ws !! Z.to_nat longIndex.

  (** The 1.13-1.17 branch: [mask = (1 << bitsPerBlock) - 1] is computed
      on numbers, then lifted with BigInt(mask). *)
Definition mask_113 (bits : Z) : Z := JS.shl 1 bits - 1.

Definition paletteIndex_113 (paletteLength : Z) (blockStates : list longVal)
      (i : Z) : option Z :=
    let bits := bitsPerBlock paletteLength in
    let perLong := blocksPerLong bits in
    let mask := mask_113 bits in
    let longIndex := i / perLong in
    let bitOffset := (i mod perLong) * bits in
    if longIndex >=? Z.of_nat (length blockStates) then None
    else match word_at blockStates longIndex with
         | Some (LBig v) =>
             JS.Number (Z.land (Z.shiftr v bitOffset) mask)
         | Some (LPair v0 v1) =>
             let combined := v0 * 2 ^ 32 + JS.shr v1 0 in
             JS.Number (Z.land (Z.shiftr combined bitOffset) mask)
         | _ => None
         end.

  (** The 1.18+ branch: [mask = (1n << BigInt(bitsPerBlock)) - 1n]. *)
Definition mask_118 (bits : Z) : Z := Z.shiftl 1 bits - 1.

Definition paletteIndex_118 (paletteLength : Z) (data : list longVal)
      (i : Z) : option Z :=
    let bits := bitsPerBlock paletteLength in
    let perLong := blocksPerLong bits in
    let mask := mask_118 bits in
    let longIndex := i / perLong in
    let startBit := (i mod perLong) * bits in
    if longIndex >=? Z.of_nat (length data) then None
    else match word_at data longIndex with
         | Some (LBig v) =>
             JS.Number (Z.land (Z.shiftr v startBit) mask)
         | Some (LPair v0 v1) =>
             let high := v0 in
             let low := JS.shr v1 0 in
             let combined := Z.lor (Z.shiftl high 32) low in
             JS.Number (Z.land (Z.shiftr combined startBit) mask)
         | Some (LNum n) =>
             mask' ← JS.Number mask;
             Some (JS.band (JS.sar n startBit) mask')
         | _ => None
         end.

  (** *** The packing the decoder is meant to invert

      This side follows the format description, not the decoder: [words]
      are 64-bit patterns, and index [i] occupies [bits] bits of word
      [i / perLong] from bit [(i mod perLong) * bits] upwards. *)
Definition packed (bits perLong : Z) (indices words : list Z) : Prop :=
    forall i, 0 <= i < SECTION_SIZE ->
      exists v w,
        indices !! Z.to_nat i = Some v /\
        words !! Z.to_nat (i / perLong) = Some w /\
        forall j, 0 <= j < bits ->
          Z.testbit w ((i mod perLong) * bits + j) = Z.testbit v j.

  (** An executable packer (format side), used to build test vectors. *)
Definition packWord (bits perLong : Z) (indices : list Z) (k : nat) : Z :=
    fold_right
      (fun j acc =>
         Z.lor acc
           (Z.shiftl (nth (k * Z.to_nat perLong + j)%nat indices 0)
                     (Z.of_nat j * bits)))
      0 (seq 0 (Z.to_nat perLong)).

Definition packWords (bits perLong : Z) (indices : list Z) : list Z :=
    map (packWord bits perLong indices)
        (seq 0 (Z.to_nat ((SECTION_SIZE + perLong - 1) / perLong))).

  (** Boolean form of [packed], for concrete vectors. *)
Definition packedb (bits perLong : Z) (indices words : list Z) : bool :=
    forallb
      (fun n =>
         let i := Z.of_nat n in
         match indices !! n, words !! Z.to_nat (i / perLong) with
         | Some v, Some w =>
             forallb
               (fun m =>
                  Bool.eqb (Z.testbit w ((i mod perLong) * bits + Z.of_nat m))
                           (Z.testbit v (Z.of_nat m)))
               (seq 0 (Z.to_nat bits))
         | _, _ => false
         end)
      (seq 0 (Z.to_nat SECTION_SIZE)).

  (** How a 64-bit pattern reaches the decoder: as a signed BigInt
      (BigInt64Array slot) or as prismarine's signed [high, low] pair. *)
Definition asBigInt (w : Z) : longVal := LBig (JS.asInt64 w).
Definition asHighLow (w : Z) : longVal :=
    LPair (JS.toInt32 (Z.shiftr w 32)) (JS.toInt32 w).

Definition in_palette (paletteLength : Z) (indices : list Z) : Prop :=
    Forall (fun v => 0 <= v < paletteLength) indices.

Definition in_paletteb (paletteLength : Z) (indices : list Z) : bool :=
    forallb (fun v => (0 <=? v) && (v <? paletteLength)) indices.

Definition delivered (rep : Z -> longVal) : Prop :=
    rep = asBigInt \/ rep = asHighLow.

  (** A vector for a palette of 2^30 + 1 entries: 31 bits per entry,
      two entries per word. *)
Definition wide_indices : list Z := 5 :: 2 :: repeat 0 4094.
Definition wide_words : list Z := packWords 31 2 wide_indices.

  (** The repeating sequence 0,1,...,15,0,1,... of the concrete case. *)
Definition repeating16 : list Z :=
    map (fun n => Z.of_nat (n mod 16)) (seq 0 4096).

End Packed.

(** ** Outcomes of code that may throw *)

Inductive outcome (A : Type) : Type :=
| Returned (a : A)
| Thrown.
Arguments Returned {A} a.
Arguments Thrown {A}.

(** try { body } catch { return handler } *)
Definition try_catch {A : Type} (body : outcome A) (handler : A) : outcome A :=
  match body with
  | Returned a => Returned a
  | Thrown => Returned handler
  end.

Definition obind {A B : Type} (m : outcome A) (k : A -> outcome B)
  : outcome B :=
  match m with
  | Returned a => k a
  | Thrown => Thrown
  end.

(** TypedArray.prototype.slice(start, end): both ends are clamped, a
    negative end counts from the end of the array; it never throws. *)
Definition relative_index (len k : Z) : Z :=
  if k <? 0 then Z.max (len + k) 0 else Z.min k len.

Definition slice (buffer : list Z) (start end_ : Z) : list Z :=
  let len := Z.of_nat (length buffer) in
  let from := relative_index len start in
  let final := relative_index len end_ in
  take (Z.to_nat (Z.max (final - from) 0)) (drop (Z.to_nat from) buffer).

(** for (let i = 0; i < n; i++) *)
Definition upto (n : nat) : list Z := map Z.of_nat (seq 0 n).

(** The elements of a Uint8Array. *)
Definition is_bytes (buffer : list Z) : Prop :=
  Forall (fun b => 0 <= b < 256) buffer.

(** The four bytes of location-table slot [i] are all zero. *)
Definition slot_zero (buffer : list Z) (i : Z) : Prop :=
  JS.u8_at buffer (i * 4) = Some 0 /\ JS.u8_at buffer (i * 4 + 1) = Some 0 /\
  JS.u8_at buffer (i * 4 + 2) = Some 0 /\ JS.u8_at buffer (i * 4 + 3) = Some 0.

(** ** Region header and chunk payload, MCA viewer (mca/parser) *)

Module Mca.

Record ChunkLocation : Type := {
    x : Z;
    z : Z;
    offset : Z;
    sectorCount : option Z;      (* a byte, or undefined past the buffer *)
    timestamp : Z
  }.

  (** `${x},${z}` *)
Definition key (x z : Z) : string := pretty x +:+ "," +:+ pretty z.

  (** The key of header slot [i]. *)
Definition slot_key (i : Z) : string := key (i mod 32) (i / 32).

  (** Map<string, ChunkLocation>, in insertion order. *)
Definition chunkMap : Type := list (string * ChunkLocation).

Fixpoint map_set (m : chunkMap) (k : string) (v : ChunkLocation) : chunkMap :=
    match m with
    | [] => [(k, v)]
    | (k', v') :: m' =>
        if String.eqb k' k then (k', v) :: m' else (k', v') :: map_set m' k v
    end.

Fixpoint map_get (m : chunkMap) (k : string) : option ChunkLocation :=
    match m with
    | [] => None
    | (k', v') :: m' => if String.eqb k' k then Some v' else map_get m' k
    end.

Record RegionData : Type := {
    filename : string;
    chunks : chunkMap;
    availableChunks : list (Z * Z)
  }.

  (** The body of the header loop up to the store: the entry of slot
      [i], or [None] where the loop takes [continue]. *)
Definition header_entry (buffer : list Z) (i : Z) : option ChunkLocation :=
    let offset := i * 4 in
    let locationData :=
      JS.bor (JS.bor (JS.shl (JS.num (JS.u8_at buffer offset)) 16)
                     (JS.shl (JS.num (JS.u8_at buffer (offset + 1))) 8))
             (JS.num (JS.u8_at buffer (offset + 2))) in
    let sectorCount := JS.u8_at buffer (offset + 3) in
    if (locationData =? 0) && bool_decide (sectorCount = Some 0) then None
    else
      let timestampOffset := 4096 + i * 4 in
      let timestamp :=
        JS.bor (JS.bor (JS.bor
          (JS.shl (JS.num (JS.u8_at buffer timestampOffset)) 24)
          (JS.shl (JS.num (JS.u8_at buffer (timestampOffset + 1))) 16))
          (JS.shl (JS.num (JS.u8_at buffer (timestampOffset + 2))) 8))
          (JS.num (JS.u8_at buffer (timestampOffset + 3))) in
      let x := i mod 32 in
      let z := i / 32 in
      Some {| x := x; z := z; offset := locationData;
              sectorCount := sectorCount; timestamp := timestamp |}.

  (** One turn of the loop: chunks.set(`${x},${z}`, ...) and
      availableChunks.push([x, z]). *)
Definition header_step (buffer : list Z) (acc : chunkMap * list (Z * Z))
      (i : Z) : chunkMap * list (Z * Z) :=
    match header_entry buffer i with
    | None => acc
    | Some location =>
        (map_set (fst acc) (key (x location) (z location)) location,
         snd acc ++ [(x location, z location)])
    end.

Definition parseRegionHeader (buffer : list Z) : RegionData :=
    let r := fold_left (header_step buffer) (upto 1024) ([], []) in
    {| filename := ""; chunks := fst r; availableChunks := snd r |}.

Section Chunk.
    (** pako.ungzip and pako.inflate; [None] when they throw. *)
Variable ungzip inflate : list Z -> option (list Z).

Definition pako (f : list Z -> option (list Z)) (d : list Z)
      : outcome (list Z) :=
      match f d with Some r => Returned r | None => Thrown end.

Definition chunk_dataLength (buffer : list Z) (chunkOffset : Z) : Z :=
      JS.bor (JS.bor (JS.bor
        (JS.shl (JS.num (JS.u8_at buffer chunkOffset)) 24)
        (JS.shl (JS.num (JS.u8_at buffer (chunkOffset + 1))) 16))
        (JS.shl (JS.num (JS.u8_at buffer (chunkOffset + 2))) 8))
        (JS.num (JS.u8_at buffer (chunkOffset + 3))).

Definition compressedData (buffer : list Z) (location : ChunkLocation)
      : list Z :=
      let chunkOffset := offset location * 4096 in
      let dataLength := chunk_dataLength buffer chunkOffset in
      let dataStart := chunkOffset + 5 in
      let dataEnd := dataStart + dataLength - 1 in
      slice buffer dataStart dataEnd.

    (** The body of the try block of readChunkData. *)
Definition readChunkData_body (buffer : list Z) (location : ChunkLocation)
      : outcome (option (list Z)) :=
      let chunkOffset := offset location * 4096 in
      let compressionType := JS.u8_at buffer (chunkOffset + 4) in
      let compressedData := compressedData buffer location in
      match compressionType with
      | Some 1 => obind (pako ungzip compressedData)
                        (fun decompressed => Returned (Some decompressed))
      | Some 2 => obind (pako inflate compressedData)
                        (fun decompressed => Returned (Some decompressed))
      | Some 3 => Returned (Some compressedData)
      | _ => Returned None
      end.

Definition readChunkData (buffer : list Z) (location : ChunkLocation)
      : outcome (option (list Z)) :=
      try_catch (readChunkData_body buffer location) None.
End Chunk.

End Mca.

(** ** Region header and chunk extraction, NBT editor (nbt/region) *)

Module Region.

Record RegionChunkInfo : Type := {
    x : Z;
    z : Z;
    offset : Z;
    sectorCount : option Z;
    timestamp : Z;
    compressionType : option Z;
    dataLength : Z
  }.

Record RegionFileInfo : Type := {
    filename : string;
    chunks : list (option RegionChunkInfo);
    chunkCount : Z
  }.

  (** The body of the header loop up to the store: the entry of slot
      [i], or [None] where the loop takes [continue]. *)
Definition header_entry (buffer : list Z) (i : Z) : option RegionChunkInfo :=
    let offset := i * 4 in
    let locationData :=
      JS.bor (JS.bor (JS.shl (JS.num (JS.u8_at buffer offset)) 16)
                     (JS.shl (JS.num (JS.u8_at buffer (offset + 1))) 8))
             (JS.num (JS.u8_at buffer (offset + 2))) in
    let sectorCount := JS.u8_at buffer (offset + 3) in
    if (locationData =? 0) && bool_decide (sectorCount = Some 0) then None
    else
      let timestampOffset := 4096 + i * 4 in
      let timestamp :=
        JS.bor (JS.bor (JS.bor
          (JS.shl (JS.num (JS.u8_at buffer timestampOffset)) 24)
          (JS.shl (JS.num (JS.u8_at buffer (timestampOffset + 1))) 16))
          (JS.shl (JS.num (JS.u8_at buffer (timestampOffset + 2))) 8))
          (JS.num (JS.u8_at buffer (timestampOffset + 3))) in
      let x := i mod 32 in
      let z := i / 32 in
      let chunkOffset := locationData * 4096 in
      let dataLength :=
        JS.bor (JS.bor (JS.bor
          (JS.shl (JS.num (JS.u8_at buffer chunkOffset)) 24)
          (JS.shl (JS.num (JS.u8_at buffer (chunkOffset + 1))) 16))
          (JS.shl (JS.num (JS.u8_at buffer (chunkOffset + 2))) 8))
          (JS.num (JS.u8_at buffer (chunkOffset + 3))) in
      let compressionType := JS.u8_at buffer (chunkOffset + 4) in
      Some {| x := x; z := z; offset := locationData;
              sectorCount := sectorCount; timestamp := timestamp;
              compressionType := compressionType;
              dataLength := dataLength - 1 |}.

  (** One turn of the loop: chunks[i] = {...}; chunkCount++. *)
Definition header_step (buffer : list Z)
      (acc : list (option RegionChunkInfo) * Z) (i : Z)
    : list (option RegionChunkInfo) * Z :=
    match header_entry buffer i with
    | None => acc
    | Some chunkInfo => (<[Z.to_nat i := Some chunkInfo]> (fst acc), snd acc + 1)
    end.

Definition parseRegionHeader (buffer : list Z) : RegionFileInfo :=
    let r := fold_left (header_step buffer) (upto 1024)
                       (replicate 1024 None, 0) in
    {| filename := ""; chunks := fst r; chunkCount := snd r |}.

Section Chunk.
Variable ungzip inflate : list Z -> option (list Z).
    (** parseNbtBuffer of the NBT parser, with the tree type left open;
        [None] when prismarine-nbt rejects the bytes. *)
Variable tree : Type.
Variable parseNbtBuffer : list Z -> option tree.

Definition may_throw {A : Type} (r : option A) : outcome A :=
      match r with Some a => Returned a | None => Thrown end.

Definition compressedData (buffer : list Z) (chunkInfo : RegionChunkInfo)
      : list Z :=
      let chunkOffset := offset chunkInfo * 4096 in
      let dataStart := chunkOffset + 5 in
      let dataEnd := dataStart + dataLength chunkInfo in
      slice buffer dataStart dataEnd.

Definition extractChunk_body (buffer : list Z) (chunkInfo : RegionChunkInfo)
      : outcome (option tree) :=
      let compressedData := compressedData buffer chunkInfo in
      match compressionType chunkInfo with
      | Some 1 =>
          obind (may_throw (ungzip compressedData)) (fun decompressed =>
          obind (may_throw (parseNbtBuffer decompressed)) (fun t =>
          Returned (Some t)))
      | Some 2 =>
          obind (may_throw (inflate compressedData)) (fun decompressed =>
          obind (may_throw (parseNbtBuffer decompressed)) (fun t =>
          Returned (Some t)))
      | Some 3 =>
          obind (may_throw (parseNbtBuffer compressedData)) (fun t =>
          Returned (Some t))
      | _ => Returned None
      end.

Definition extractChunk (buffer : list Z) (chunkInfo : RegionChunkInfo)
      : outcome (option tree) :=
      try_catch (extractChunk_body buffer chunkInfo) None.

    (** What one chunk contributes, stated without exceptions. *)
Definition decoded (buffer : list Z) (chunkInfo : RegionChunkInfo)
      : option tree :=
      let data := compressedData buffer chunkInfo in
      match compressionType chunkInfo with
      | Some 1 => ungzip data ≫= parseNbtBuffer
      | Some 2 => inflate data ≫= parseNbtBuffer
      | Some 3 => parseNbtBuffer data
      | _ => None
      end.

    (** The chunk loop of parseRegionFile: slots in order, absent slots
        and chunks that yield null are passed over. *)
Definition extractAll (buffer : list Z) (info : RegionFileInfo)
      : outcome (list (RegionChunkInfo * tree)) :=
      fold_left
        (fun acc i =>
           obind acc (fun rootChildren =>
           match chunks info !! Z.to_nat i with
           | Some (Some chunkInfo) =>
               obind (extractChunk buffer chunkInfo) (fun chunkData =>
               match chunkData with
               | Some t => Returned (rootChildren ++ [(chunkInfo, t)])
               | None => Returned rootChildren
               end)
           | _ => Returned rootChildren
           end))
        (upto 1024) (Returned []).
End Chunk.

End Region.

(** ** Strings and numbers: parseInt, String(n) *)

Module Str.

Definition is_space (c : ascii) : bool :=
    let n := nat_of_ascii c in
    ((n =? 9) || (n =? 10) || (n =? 11) || (n =? 12) || (n =? 13)
     || (n =? 32))%nat.

Fixpoint skip_space (s : string) : string :=
    match s with
    | String c r => if is_space c then skip_space r else s
    | EmptyString => s
    end.

Definition digit_of (radix : Z) (c : ascii) : option Z :=
    let n := Z.of_nat (nat_of_ascii c) in
    let d := if (48 <=? n) && (n <=? 57) then Some (n - 48)
             else if (97 <=? n) && (n <=? 122) then Some (n - 97 + 10)
             else if (65 <=? n) && (n <=? 90) then Some (n - 65 + 10)
             else None in
    match d with
    | Some v => if v <? radix then Some v else None
    | None => None
    end.

  (** The longest prefix of digits; [None] (NaN) when there is none. *)
Fixpoint digits (radix : Z) (s : string) (acc : option Z) : option Z :=
    match s with
    | String c r =>
        match digit_of radix c with
        | Some d => digits radix r (Some (default 0 acc * radix + d))
        | None => acc
        end
    | EmptyString => acc
    end.

  (** parseInt(s) without a radix: leading blanks, a sign, a 0x prefix,
      then digits; [None] is NaN.  Only ASCII blanks are recognised. *)
Definition parseInt (s : string) : option Z :=
    let s := skip_space s in
    let '(sign, s) :=
      match s with
      | String "-"%char r => (-1, r)
      | String "+"%char r => (1, r)
      | _ => (1, s)
      end in
    let '(radix, s) :=
      match s with
      | String "0"%char (String "x"%char r) => (16, r)
      | String "0"%char (String "X"%char r) => (16, r)
      | _ => (10, s)
      end in
    Z.mul sign <$> digits radix s None.

  (** String(n) for an array index or length. *)
Definition of_nat (n : nat) : string := pretty n.

End Str.

(** ** JavaScript arrays and plain objects used as maps *)

Module Arr.
Section Ops.
Context {A : Type}.

    (** a.splice(start, 1) where [start] may be NaN. *)
Definition splice1 (a : list A) (start : option Z) : list A :=
      let len := Z.of_nat (length a) in
      let rel := default 0 start in
      let from := if rel <? 0 then Z.max (len + rel) 0 else Z.min rel len in
      take (Z.to_nat from) a ++ drop (S (Z.to_nat from)) a.

    (** a[index] = v.  A NaN or negative index, or one from 2^32 - 1
        on, names a property, not an element.  An index at the end
        appends; one past the end extends the array and leaves the
        slots in between empty ([empty]). *)
Definition set_index (empty : A) (a : list A) (index : option Z) (v : A)
      : list A :=
      match index with
      | None => a
      | Some i =>
          if (i <? 0) || (4294967295 <=? i) then a
          else if i <? Z.of_nat (length a) then <[Z.to_nat i := v]> a
          else a ++ replicate (Z.to_nat i - length a) empty ++ [v]
      end.
End Ops.
End Arr.

Module Obj.

  (** Keys every object literal answers to without owning them. *)
Definition prototypeKeys : list string :=
    ["constructor"; "hasOwnProperty"; "isPrototypeOf";
     "propertyIsEnumerable"; "toLocaleString"; "toString"; "valueOf";
     "__proto__"; "__defineGetter__"; "__defineSetter__";
     "__lookupGetter__"; "__lookupSetter__"].

Section Ops.
Context {A : Type}.

    (** An object as the list of its own entries in Object.entries
        order.  [set] is the assignment o[k] = v for the keys that
        [ordinary_key] below accepts; for an array-index key and for
        __proto__ it differs from JavaScript in where, and whether, the
        key is listed. *)
Fixpoint set (o : list (string * A)) (k : string) (v : A)
      : list (string * A) :=
      match o with
      | [] => [(k, v)]
      | (k', v') :: o' =>
          if String.eqb k' k then (k', v) :: o' else (k', v') :: set o' k v
      end.

Fixpoint get (o : list (string * A)) (k : string) : option A :=
      match o with
      | [] => None
      | (k', v') :: o' => if String.eqb k' k then Some v' else get o' k
      end.

Definition delete (o : list (string * A)) (k : string)
      : list (string * A) :=
      filter (fun e => negb (String.eqb (fst e) k)) o.

Definition keys (o : list (string * A)) : list string := map fst o.
End Ops.

  (** The keys [set] places as JavaScript does.  An array index (the
      canonical decimal of an integer below 2^32 - 1) is listed before
      the other keys whenever it was added, and an assignment to
      __proto__ sets the prototype and adds no key; a key that is
      neither is appended after the keys the object has. *)
Definition array_index (k : string) : bool :=
    match Str.digits 10 k None with
    | Some n => String.eqb (pretty n) k && (n <? 4294967295)
    | None => false
    end.

Definition ordinary_key (k : string) : bool :=
    negb (array_index k) && negb (String.eqb k "__proto__").
End Obj.

(** ** The editable tag tree, structurally (nbt/types, nbt/parser)

    The tree a reader observes: every node carries its own value.  The
    edits first deep-clone the root and then mutate nodes they reached
    through findNodeByPath; an in-place mutation of a found node is
    rendered as a functional update along the same walk.  A run that
    applies one of the casts ([value as NbtCompound] and the like) to a
    value of another runtime shape leaves the modelled fragment: the
    function yields [None]. *)

Module Tree.

Local Set Warnings "-register-all".

Inductive TagType : Type :=
  | TEnd | TByte | TShort | TInt | TLong | TFloat | TDouble | TByteArray
  | TString | TList | TCompound | TIntArray | TLongArray.

Global Instance TagType_eq_dec : EqDecision TagType.
  Proof. solve_decision. Defined.

  (** What a compound object holds under a key.  Parsing and the edits
      store { type, value } tags; renameTag stores whatever it read
      under the old name, which for a name the object does not own is
      undefined, or a member inherited from Object.prototype: an object
      whose type and value read as undefined, as does its clone. *)
Inductive member (V : Type) : Type :=
  | MTag (type : TagType) (value : V)
  | MUndefined
  | MUntyped.
Global Arguments MTag {V} type value.
Global Arguments MUndefined {V}.
Global Arguments MUntyped {V}.

  (** What holds of a member that is a tag. *)
Definition of_tag {V : Type} (P : TagType -> V -> Prop) (m : member V)
    : Prop :=
    match m with MTag t v => P t v | _ => True end.

  (** compound[key] *)
Definition read_member {V : Type} (compound : list (string * member V))
      (key : string) : member V :=
    match Obj.get compound key with
    | Some m => m
    | None =>
        if bool_decide (key ∈ Obj.prototypeKeys) then MUntyped
        else MUndefined
    end.

  (** NbtValue.  A number is kept as an integer: the tree operations
      never look inside a number.  [VEmpty] is an empty slot of an
      array, which an assignment past its end leaves behind. *)
Inductive NbtValue : Type :=
  | VNumber (n : Z)
  | VBigInt (n : Z)
  | VString (s : string)
  | VInt8Array (a : list Z)
  | VInt32Array (a : list Z)
  | VBigInt64Array (a : list Z)
  | VList (type : TagType) (value : list NbtValue)
  | VCompound (entries : list (string * member NbtValue))
  | VEmpty.

  (** NbtTag: { type, value }. *)
Definition NbtTag : Type := member NbtValue.
Definition NbtCompound : Type := list (string * NbtTag).

  (** NbtTreeNode, without the parent back-reference. *)
Inductive NbtTreeNode : Type :=
  | Node (id name : string) (type : TagType) (value : NbtValue)
         (path : list string) (children : option (list NbtTreeNode)).

Definition id (n : NbtTreeNode) : string :=
    match n with Node i _ _ _ _ _ => i end.
Definition name (n : NbtTreeNode) : string :=
    match n with Node _ s _ _ _ _ => s end.
Definition type (n : NbtTreeNode) : TagType :=
    match n with Node _ _ t _ _ _ => t end.
Definition value (n : NbtTreeNode) : NbtValue :=
    match n with Node _ _ _ v _ _ => v end.
Definition path (n : NbtTreeNode) : list string :=
    match n with Node _ _ _ _ p _ => p end.
Definition children (n : NbtTreeNode) : option (list NbtTreeNode) :=
    match n with Node _ _ _ _ _ c => c end.

Definition set_name (s : string) (n : NbtTreeNode) : NbtTreeNode :=
    match n with Node i _ t v p c => Node i s t v p c end.
Definition set_value (v : NbtValue) (n : NbtTreeNode) : NbtTreeNode :=
    match n with Node i s t _ p c => Node i s t v p c end.
Definition set_path (p : list string) (n : NbtTreeNode) : NbtTreeNode :=
    match n with Node i s t v _ c => Node i s t v p c end.
Definition set_children (c : option (list NbtTreeNode)) (n : NbtTreeNode)
    : NbtTreeNode :=
    match n with Node i s t v p _ => Node i s t v p c end.

  (** cloneValue.  Array.prototype.map passes over the empty slots of
      an array and keeps them; reading the type of a member that is
      undefined throws. *)
Fixpoint cloneValue (type : TagType) (value : NbtValue) {struct value}
    : option NbtValue :=
    match type with
    | TByteArray =>
        match value with VInt8Array a => Some (VInt8Array a) | _ => None end
    | TIntArray =>
        match value with VInt32Array a => Some (VInt32Array a) | _ => None end
    | TLongArray =>
        match value with
        | VBigInt64Array a => Some (VBigInt64Array a)
        | _ => None
        end
    | TList =>
        match value with
        | VList t vs =>
            VList t
              <$> mapM (fun v => match v with
                                 | VEmpty => Some VEmpty
                                 | _ => cloneValue t v
                                 end) vs
        | _ => None
        end
    | TCompound =>
        match value with
        | VCompound entries =>
            VCompound <$>
              fold_left
                (fun cloned e =>
                   c ← cloned;
                   match snd e with
                   | MTag t v =>
                       v' ← cloneValue t v; Some (Obj.set c (fst e) (MTag t v'))
                   | MUndefined => None
                   | MUntyped => Some (Obj.set c (fst e) MUntyped)
                   end)
                entries (Some [])
        | _ => None
        end
    | _ => Some value
    end.

  (** cloneTree *)
Fixpoint cloneTree (node : NbtTreeNode) : option NbtTreeNode :=
    match node with
    | Node i s t v p c =>
        v' ← cloneValue t v;
        c' ← match c with
             | Some cs => Some <$> mapM cloneTree cs
             | None => Some None
             end;
        Some (Node i s t v' p c')
    end.

  (** children.find((c) => c.name === s) *)
Fixpoint find_child (cs : list NbtTreeNode) (s : string)
    : option NbtTreeNode :=
    match cs with
    | [] => None
    | c :: cs' => if String.eqb (name c) s then Some c else find_child cs' s
    end.

  (** The loop of findNodeByPath over the segments it visits. *)
Fixpoint walk (current : NbtTreeNode) (segments : list string)
      {struct segments} : option NbtTreeNode :=
    match segments with
    | [] => Some current
    | s :: rest =>
        match children current with
        | None => None
        | Some cs =>
            match find_child cs s with
            | None => None
            | Some c => walk c rest
            end
        end
    end.

  (** findNodeByPath: the loop starts at index 1. *)
Definition findNodeByPath (root : NbtTreeNode) (path : list string)
    : option NbtTreeNode :=
    match path with
    | [] => Some root
    | p0 :: rest =>
        if bool_decide (rest = []) && String.eqb p0 (name root)
        then Some root
        else walk root rest
    end.

  (** In-place mutation of the node that the walk reaches: [f] rewrites
      that node, every other node is kept.  When the walk finds nothing
      there is nothing to mutate. *)
Fixpoint mutate_child (g : NbtTreeNode -> option NbtTreeNode)
      (cs : list NbtTreeNode) (s : string) : option (list NbtTreeNode) :=
    match cs with
    | [] => Some []
    | c :: cs' =>
        if String.eqb (name c) s then c' ← g c; Some (c' :: cs')
        else cs'' ← mutate_child g cs' s; Some (c :: cs'')
    end.

Fixpoint mutate_walk (f : NbtTreeNode -> option NbtTreeNode)
      (current : NbtTreeNode) (segments : list string) {struct segments}
    : option NbtTreeNode :=
    match segments with
    | [] => f current
    | s :: rest =>
        match children current with
        | None => Some current
        | Some cs =>
            cs' ← mutate_child (fun c => mutate_walk f c rest) cs s;
            Some (set_children (Some cs') current)
        end
    end.

Definition mutate_found (f : NbtTreeNode -> option NbtTreeNode)
      (root : NbtTreeNode) (path : list string) : option NbtTreeNode :=
    mutate_walk f root (tail path).

  (** One turn of the loop of updateParentValues, on the found pair. *)
Definition store_child_value (child : NbtTreeNode) (parent : NbtTreeNode)
    : option NbtTreeNode :=
    match type parent with
    | TCompound =>
        match value parent with
        | VCompound compound =>
            Some (set_value
                    (VCompound (Obj.set compound (name child)
                                        (MTag (type child) (value child))))
                    parent)
        | _ => None
        end
    | TList =>
        match value parent with
        | VList t vs =>
            let index := Str.parseInt (name child) in
            Some (set_value
                    (VList t (Arr.set_index VEmpty vs index (value child)))
                    parent)
        | _ => None
        end
    | _ => Some parent
    end.

  (** updateParentValues: for (i = path.length - 1; i >= 1; i--) *)
Definition updateParentValues_turn (path : list string)
      (root : option NbtTreeNode) (i : nat) : option NbtTreeNode :=
    r ← root;
    let parentPath := take i path in
    match findNodeByPath r parentPath, findNodeByPath r (take (S i) path) with
    | Some _, Some child => mutate_found (store_child_value child) r parentPath
    | _, _ => Some r
    end.

Definition updateParentValues (root : NbtTreeNode) (path : list string)
    : option NbtTreeNode :=
    fold_left (updateParentValues_turn path)
              (rev (seq 1 (length path - 1))) (Some root).

  (** updateNodeValue *)
Definition updateNodeValue (root : NbtTreeNode) (nodePath : list string)
      (newValue : NbtValue) : option NbtTreeNode :=
    clonedRoot ← cloneTree root;
    match findNodeByPath clonedRoot nodePath with
    | Some _ =>
        r ← mutate_found (fun node => Some (set_value newValue node))
                         clonedRoot nodePath;
        updateParentValues r nodePath
    | None => Some clonedRoot
    end.

  (** generateNodeId: `node-${++nodeIdCounter}` *)
Definition generateNodeId (nodeIdCounter : Z) : string * Z :=
    ("node-" +:+ pretty (nodeIdCounter + 1), nodeIdCounter + 1).

Section Collation.
    (** a.localeCompare(b): the host's collation, a consistent
        comparator by the language standard. *)
Variable localeCompare : string -> string -> Z.

    (** Array.prototype.sort with a comparator: stable. *)
Section Sort.
Context {A : Type} (key : A -> string).

Fixpoint insert_sorted (x : A) (l : list A) : list A :=
        match l with
        | [] => [x]
        | y :: l' =>
            if localeCompare (key x) (key y) <? 0 then x :: y :: l'
            else y :: insert_sorted x l'
        end.

Definition sort (l : list A) : list A :=
        fold_left (fun acc x => insert_sorted x acc) l [].
End Sort.

    (** buildTreeNode.  The children of a compound are built in sorted
        order; each entry is first paired with the builder of its
        subtree, so that the recursion stays on the entries of the tag.
        It is applied to tags as parsed, whose members are all tags and
        whose arrays have no empty slot; on others the builder stops. *)
Fixpoint buildTreeNode (name : string) (type : TagType) (value : NbtValue)
        (path : list string) (nodeIdCounter : Z) {struct value}
      : option (NbtTreeNode * Z) :=
      let '(id, counter) := generateNodeId nodeIdCounter in
      let nodePath := path ++ [name] in
      match type with
      | TCompound =>
          match value with
          | VCompound compound =>
              let builders :=
                map (fun e =>
                       (fst e,
                        match snd e with
                        | MTag t v => buildTreeNode (fst e) t v nodePath
                        | _ => fun _ => None
                        end))
                    compound in
              r ← fold_left
                     (fun acc b =>
                        '(done, ctr) ← acc;
                        '(child, ctr') ← snd b ctr;
                        Some (done ++ [child], ctr'))
                     (sort fst builders) (Some ([], counter));
              Some (Node id name type value nodePath (Some (fst r)), snd r)
          | _ => None
          end
      | TList =>
          match value with
          | VList t vs =>
              let builders :=
                (fix each (index : nat) (l : list NbtValue) :=
                   match l with
                   | [] => []
                   | v :: l' =>
                       match v with
                       | VEmpty => fun _ => None
                       | _ => buildTreeNode (Str.of_nat index) t v nodePath
                       end :: each (S index) l'
                   end) 0%nat vs in
              r ← fold_left
                     (fun acc b =>
                        '(done, ctr) ← acc;
                        '(child, ctr') ← b ctr;
                        Some (done ++ [child], ctr'))
                     builders (Some ([], counter));
              Some (Node id name type value nodePath (Some (fst r)), snd r)
          | _ => None
          end
      | _ => Some (Node id name type value nodePath None, counter)
      end.

    (** addTag *)
Definition addTag_at (parentPath : list string) (name : string)
        (type : TagType) (value : NbtValue) (id : string)
        (parent : NbtTreeNode) : option NbtTreeNode :=
      let newNode := Node id name type value (parentPath ++ [name]) None in
      match Tree.type parent with
      | TCompound =>
          match Tree.value parent with
          | VCompound compound =>
              let compound' := Obj.set compound name (MTag type value) in
              let children' := default [] (children parent) ++ [newNode] in
              Some (set_children (Some (sort Tree.name children'))
                      (set_value (VCompound compound') parent))
          | _ => None
          end
      | TList =>
          match Tree.value parent with
          | VList t vs =>
              let cs := default [] (children parent) in
              let name' := Str.of_nat (length cs) in
              let newNode' :=
                set_path (parentPath ++ [name']) (set_name name' newNode) in
              Some (set_children (Some (cs ++ [newNode']))
                      (set_value (VList t (vs ++ [value])) parent))
          | _ => None
          end
      | _ => Some parent
      end.

Definition addTag (root : NbtTreeNode) (parentPath : list string)
        (name : string) (type : TagType) (value : NbtValue)
        (nodeIdCounter : Z) : option (NbtTreeNode * Z) :=
      clonedRoot ← cloneTree root;
      match findNodeByPath clonedRoot parentPath with
      | None => Some (clonedRoot, nodeIdCounter)
      | Some _ =>
          let '(id, counter) := generateNodeId nodeIdCounter in
          r ← mutate_found (addTag_at parentPath name type value id)
                           clonedRoot parentPath;
          r' ← updateParentValues r parentPath;
          Some (r', counter)
      end.

    (** deleteTag *)
Definition deleteTag_at (parentPath : list string) (nodeName : string)
        (parent : NbtTreeNode) : option NbtTreeNode :=
      match Tree.type parent with
      | TCompound =>
          match Tree.value parent with
          | VCompound compound =>
              Some (set_children
                      ((fun cs =>
                          filter (fun c =>
                                    negb (String.eqb (Tree.name c) nodeName))
                                 cs) <$> children parent)
                      (set_value (VCompound (Obj.delete compound nodeName))
                                 parent))
          | _ => None
          end
      | TList =>
          match Tree.value parent with
          | VList t vs =>
              let index := Str.parseInt nodeName in
              Some (set_children
                      ((fun cs =>
                          imap (fun i c =>
                                  set_path (parentPath ++ [Str.of_nat i])
                                           (set_name (Str.of_nat i) c))
                               (Arr.splice1 cs index)) <$> children parent)
                      (set_value (VList t (Arr.splice1 vs index)) parent))
          | _ => None
          end
      | _ => Some parent
      end.

Definition deleteTag (root : NbtTreeNode) (nodePath : list string)
      : option NbtTreeNode :=
      if (length nodePath <=? 1)%nat then Some root
      else
        clonedRoot ← cloneTree root;
        let parentPath := removelast nodePath in
        let nodeName := List.last nodePath "" in
        match findNodeByPath clonedRoot parentPath with
        | None => Some clonedRoot
        | Some _ =>
            r ← mutate_found (deleteTag_at parentPath nodeName)
                             clonedRoot parentPath;
            updateParentValues r parentPath
        end.

    (** renameTag.  The tag is read, deleted and stored under the new
        name without a look at what was read. *)
Definition renameTag_at (parentPath : list string)
        (oldName newName : string) (parent : NbtTreeNode)
      : option NbtTreeNode :=
      match Tree.value parent with
      | VCompound compound =>
          let tag := read_member compound oldName in
          let compound' := Obj.set (Obj.delete compound oldName) newName tag in
          cs ← mutate_child
                 (fun node =>
                    Some (set_path (parentPath ++ [newName])
                                   (set_name newName node)))
                 (default [] (children parent)) oldName;
          let children' :=
            match children parent with
            | Some _ => Some (sort Tree.name cs)
            | None => None
            end in
          Some (set_children children'
                  (set_value (VCompound compound') parent))
      | _ => None
      end.

Definition renameTag (root : NbtTreeNode) (nodePath : list string)
        (newName : string) : option NbtTreeNode :=
      if (length nodePath <=? 1)%nat then Some root
      else
        clonedRoot ← cloneTree root;
        let parentPath := removelast nodePath in
        let oldName := List.last nodePath "" in
        match findNodeByPath clonedRoot parentPath,
              findNodeByPath clonedRoot nodePath with
        | Some parent, Some _ =>
            if bool_decide (Tree.type parent = TCompound)
            then mutate_found (renameTag_at parentPath oldName newName)
                              clonedRoot parentPath
            else Some clonedRoot
        | _, _ => Some clonedRoot
        end.
End Collation.

  (** *** Predicates used in the statements *)

  (** A value has the runtime shape its tag promises, all the way down;
      an object has no repeated key and holds tags only. *)
Fixpoint shaped (t : TagType) (v : NbtValue) {struct v} : Prop :=
    match t with
    | TByteArray => match v with VInt8Array _ => True | _ => False end
    | TIntArray => match v with VInt32Array _ => True | _ => False end
    | TLongArray => match v with VBigInt64Array _ => True | _ => False end
    | TList =>
        match v with
        | VList t' vs =>
            (fix all (l : list NbtValue) : Prop :=
               match l with
               | [] => True
               | x :: l' => shaped t' x /\ all l'
               end) vs
        | _ => False
        end
    | TCompound =>
        match v with
        | VCompound entries =>
            NoDup (map fst entries) /\
            (fix all (l : list (string * member NbtValue)) : Prop :=
               match l with
               | [] => True
               | e :: l' =>
                   match snd e with
                   | MTag t' x => shaped t' x
                   | _ => False
                   end /\ all l'
               end) entries
        | _ => False
        end
    | _ => True
    end.

Fixpoint shaped_tree (n : NbtTreeNode) : Prop :=
    match n with
    | Node _ _ t v _ c =>
        shaped t v /\
        match c with
        | None => True
        | Some cs =>
            (fix all (l : list NbtTreeNode) : Prop :=
               match l with
               | [] => True
               | x :: l' => shaped_tree x /\ all l'
               end) cs
        end
    end.

  (** Rewritings of a node that keep its name, and those that keep its
      name and its children. *)
Definition keeps_name (f : NbtTreeNode -> option NbtTreeNode) : Prop :=
    forall x y, f x = Some y -> name y = name x.
Definition keeps_links (f : NbtTreeNode -> option NbtTreeNode) : Prop :=
    forall x y, f x = Some y -> name y = name x /\ children y = children x.

  (** A comparator is consistent: it is total and transitive. *)
Definition consistent (cmp : string -> string -> Z) : Prop :=
    (forall a b, 0 <= cmp a b -> cmp b a <= 0) /\
    (forall a b c, cmp a b <= 0 -> cmp b c <= 0 -> cmp a c <= 0).




  (** *** Comparators to run the model with *)

Fixpoint lex_compare (a b : list Z) : Z :=
    match a, b with
    | [], [] => 0
    | [], _ :: _ => -1
    | _ :: _, [] => 1
    | x :: a', y :: b' =>
        if x <? y then -1 else if y <? x then 1 else lex_compare a' b'
    end.

Definition code_units (s : string) : list Z :=
    map (fun c => Z.of_nat (nat_of_ascii c)) (list_ascii_of_string s).

  (** Comparison by code units: "B" < "a". *)
Definition codeUnitCompare (a b : string) : Z :=
    lex_compare (code_units a) (code_units b).

  (** A collation of the kind localeCompare implements on letters:
      alphabetical first, lowercase before uppercase ("a" < "B"). *)
Definition collation_weight (n : Z) : Z :=
    if (65 <=? n) && (n <=? 90) then 2 * (n + 32) + 1 else 2 * n.

Definition alphabeticCompare (a b : string) : Z :=
    lex_compare (map collation_weight (code_units a))
                (map collation_weight (code_units b)).

  (** *** Test data *)

Definition sample_tag : NbtValue :=
    VCompound
      [("b", MTag TByte (VNumber 1));
       ("a", MTag TCompound (VCompound [("x", MTag TInt (VNumber 5))]));
       ("l", MTag TList (VList TInt [VNumber 1; VNumber 2; VNumber 3]))].

Definition sample_tree : NbtTreeNode :=
    Node "node-1" "Data" TCompound sample_tag ["Data"]
      (Some
         [Node "node-2" "a" TCompound (VCompound [("x", MTag TInt (VNumber 5))])
            ["Data"; "a"]
            (Some [Node "node-3" "x" TInt (VNumber 5) ["Data"; "a"; "x"] None]);
          Node "node-4" "b" TByte (VNumber 1) ["Data"; "b"] None;
          Node "node-5" "l" TList
            (VList TInt [VNumber 1; VNumber 2; VNumber 3]) ["Data"; "l"]
            (Some
               [Node "node-6" "0" TInt (VNumber 1) ["Data"; "l"; "0"] None;
                Node "node-7" "1" TInt (VNumber 2) ["Data"; "l"; "1"] None;
                Node "node-8" "2" TInt (VNumber 3) ["Data"; "l"; "2"] None])]).

End Tree.

(** ** Block sections (mca/parser, extractBlocks and its helpers) *)

Module Blocks.

  (** s.replace('minecraft:', ''): the first occurrence is removed. *)
Fixpoint remove_first (pat s : string) : string :=
    if String.prefix pat s
    then String.substring (String.length pat)
                          (String.length s - String.length pat) s
    else match s with
         | EmptyString => EmptyString
         | String c r => String c (remove_first pat r)
         end.

  (** A block id as the records carry it: a number, nothing (undefined
      or NaN), or a member inherited from Object.prototype. *)
Inductive blockIdVal : Type :=
  | IdNum (n : Z)
  | IdNone
  | IdInherited (key : string).

Definition blockNameMap : list (string * Z) :=
    [
     ("stone", 1); ("granite", 1); ("diorite", 1); ("andesite", 1);
     ("grass_block", 2); ("grass", 2); ("dirt", 3); ("coarse_dirt", 3);
     ("podzol", 3); ("cobblestone", 4); ("oak_planks", 5);
     ("spruce_planks", 5); ("birch_planks", 5); ("jungle_planks", 5);
     ("acacia_planks", 5); ("dark_oak_planks", 5); ("bedrock", 7);
     ("water", 8); ("flowing_water", 8); ("lava", 10); ("flowing_lava", 10);
     ("sand", 12); ("red_sand", 12); ("gravel", 13); ("gold_ore", 14);
     ("deepslate_gold_ore", 14); ("iron_ore", 15);
     ("deepslate_iron_ore", 15); ("coal_ore", 16);
     ("deepslate_coal_ore", 16); ("oak_log", 17); ("spruce_log", 17);
     ("birch_log", 17); ("jungle_log", 17); ("oak_leaves", 18);
     ("spruce_leaves", 18); ("birch_leaves", 18); ("jungle_leaves", 18);
     ("sandstone", 24); ("tall_grass", 31); ("short_grass", 31);
     ("fern", 31); ("dead_bush", 32); ("white_wool", 35); ("wool", 35);
     ("dandelion", 37); ("yellow_flower", 37); ("poppy", 38); ("rose", 38);
     ("stone_slab", 44); ("smooth_stone_slab", 44); ("bricks", 45);
     ("brick", 45); ("mossy_cobblestone", 48); ("obsidian", 49);
     ("torch", 50); ("wall_torch", 50); ("diamond_ore", 56);
     ("deepslate_diamond_ore", 56); ("redstone_ore", 73);
     ("deepslate_redstone_ore", 73); ("snow", 78); ("snow_layer", 78);
     ("ice", 79); ("snow_block", 80); ("cactus", 81); ("clay", 82);
     ("sugar_cane", 83); ("pumpkin", 86); ("netherrack", 87);
     ("soul_sand", 88); ("glowstone", 89); ("stone_bricks", 98);
     ("mossy_stone_bricks", 98); ("cracked_stone_bricks", 98);
     ("brown_mushroom_block", 99); ("red_mushroom_block", 100);
     ("mycelium", 110); ("emerald_ore", 129); ("deepslate_emerald_ore", 129);
     ("quartz_block", 155); ("terracotta", 159); ("acacia_leaves", 161);
     ("dark_oak_leaves", 161); ("acacia_log", 162); ("dark_oak_log", 162);
     ("hay_block", 170); ("hardened_clay", 172); ("coal_block", 173);
     ("packed_ice", 174); ("red_sandstone", 179); ("deepslate", 1);
     ("tuff", 1); ("calcite", 1); ("copper_ore", 15);
     ("deepslate_copper_ore", 15)
    ].

  (** Keys every object literal answers to without owning them. *)
Definition objectPrototypeKeys : list string := Obj.prototypeKeys.

  (** getBlockIdFromName: blockNameMap[n] || 1 *)
Definition getBlockIdFromName (name : string) : blockIdVal :=
    let n := remove_first "minecraft:" name in
    match Obj.get blockNameMap n with
    | Some v => if v =? 0 then IdNum 1 else IdNum v
    | None =>
        if bool_decide (n ∈ objectPrototypeKeys) then IdInherited n
        else IdNum 1
    end.

Definition LIGHT_EMITTING_BLOCKS : list (string * Z) :=
    [
     ("lava", 15); ("flowing_lava", 15); ("fire", 15); ("soul_fire", 10);
     ("glowstone", 15); ("jack_o_lantern", 15); ("lantern", 15);
     ("soul_lantern", 10); ("sea_lantern", 15); ("torch", 14);
     ("wall_torch", 14); ("soul_torch", 10); ("soul_wall_torch", 10);
     ("end_rod", 14); ("redstone_lamp", 15); ("crying_obsidian", 10);
     ("respawn_anchor", 15); ("beacon", 15); ("conduit", 15);
     ("shroomlight", 15); ("glow_lichen", 7); ("magma_block", 3);
     ("brewing_stand", 1); ("brown_mushroom", 1); ("dragon_egg", 1);
     ("end_portal_frame", 1); ("enchanting_table", 7); ("ender_chest", 7);
     ("redstone_torch", 7); ("redstone_wall_torch", 7);
     ("amethyst_cluster", 5); ("large_amethyst_bud", 4);
     ("medium_amethyst_bud", 2); ("small_amethyst_bud", 1); ("candle", 3);
     ("sea_pickle", 6); ("sculk_catalyst", 6)
    ].

  (** getBlockLightEmission: LIGHT_EMITTING_BLOCKS[name] || 0 *)
Definition getBlockLightEmission (blockName : string) : blockIdVal :=
    let name := remove_first "minecraft:" blockName in
    match Obj.get LIGHT_EMITTING_BLOCKS name with
    | Some v => IdNum v
    | None =>
        if bool_decide (name ∈ objectPrototypeKeys) then IdInherited name
        else IdNum 0
    end.

  (** get4BitData *)
Definition get4BitData (uint8Arr : list Z) (index : Z) : Z :=
    if index mod 2 =? 0
    then JS.band (JS.num (JS.u8_at uint8Arr (JS.sar index 1))) 15
    else JS.sar (JS.num (JS.u8_at uint8Arr (JS.sar index 1))) 4.

Record BlockData : Type := {
    position : Z * Z * Z;
    blockId : blockIdVal;
    blockData : Z;
    lighting : Z;
    biome : Z;
    blockName : option string;
    properties : option (list (string * string))
  }.

  (** A palette entry: a bare name, an object with optional Name and
      Properties, or null. *)
Inductive paletteEntry : Type :=
  | PString (s : string)
  | PObject (Name : option string)
            (Properties : option (list (string * string)))
  | PNull.

Record BlockStatesNBT : Type := {
    palette : option (list paletteEntry);
    data : option (list Packed.longVal)
  }.

Record SectionNBT : Type := {
    Y : option Z;
    y : option Z;
    Blocks : option (list Z);
    Add : option (list Z);
    Data : option (list Z);
    BlockLight : option (list Z);
    SkyLight : option (list Z);
    Palette : option (list paletteEntry);
    BlockStates : option (list Packed.longVal);
    block_states : option BlockStatesNBT
  }.

  (** The fields extractBlocks reads from the level object.  A field
      holds an array when present; Biomes is present only as a plain
      array (a typed array is not Array.isArray and is ignored). *)
Record LevelNBT : Type := {
    Sections : option (list (option SectionNBT));
    sections : option (list (option SectionNBT));
    section : option (list (option SectionNBT));
    xPos : option Z;
    XPos : option Z;
    zPos : option Z;
    ZPos : option Z;
    Biomes : option (list Z)
  }.

  (** chunkNBT: its own level-like fields and an optional Level. *)
Record ChunkNBT : Type := {
    Level : option LevelNBT;
    root : LevelNBT
  }.

  (** [a || b] on optional arrays, [a ?? b] on optional numbers. *)
Definition or_else {A : Type} (a b : option A) : option A :=
    match a with Some _ => a | None => b end.

  (** typeof block === 'string' ? block : block?.Name *)
Definition nameOf (block : option paletteEntry) : option string :=
    match block with
    | Some (PString s) => Some s
    | Some (PObject n _) => n
    | _ => None
    end.

  (** !blockName || blockName === 'minecraft:air' || blockName === 'air' *)
Definition skipped (blockName : option string) : bool :=
    match blockName with
    | None => true
    | Some s =>
        String.eqb s "" || String.eqb s "minecraft:air" || String.eqb s "air"
    end.

Definition propertiesOf (block : option paletteEntry)
    : option (list (string * string)) :=
    match block with
    | Some (PObject _ p) => p
    | _ => None
    end.

Definition at_index {A : Type} (a : list A) (i : Z) : option A :=
    if i <? 0 then None else a !! Z.to_nat i.

Definition position_of (i xOffset yOffset zOffset : Z) : Z * Z * Z :=
    let x := JS.band i 15 in
    let y := JS.sar i 8 + yOffset in
    let z := JS.band (JS.sar i 4) 15 in
    (x + xOffset, y, z + zOffset).

  (** One turn of the loop of the pre-1.13 branch. *)
Definition flat_block (s : SectionNBT) (blocks : list Z)
      (biomes : option (list Z)) (xOffset yOffset zOffset i : Z)
    : option BlockData :=
    let base := at_index blocks i in
    let blockId :=
      match Add s with
      | Some add => (fun b => b + JS.shl (get4BitData add i) 8) <$> base
      | None => base
      end in
    if bool_decide (blockId = Some 0) then None
    else
      let blockData :=
        match Data s with Some d => get4BitData d i | None => 0 end in
      let blockLight :=
        match BlockLight s with Some d => get4BitData d i | None => 0 end in
      let skyLight :=
        match SkyLight s with Some d => get4BitData d i | None => 15 end in
      let lighting := Z.min (blockLight + skyLight) 15 in
      let x := JS.band i 15 in
      let z := JS.band (JS.sar i 4) 15 in
      let biomeIdx := (z * 16 + x) mod 256 in
      let biome :=
        match biomes with
        | Some bs =>
            match at_index bs biomeIdx with
            | Some b => if b =? 0 then 4 else b
            | None => 4
            end
        | None => 4
        end in
      Some {| position := position_of i xOffset yOffset zOffset;
              blockId := match blockId with Some n => IdNum n | None => IdNone end;
              blockData := blockData; lighting := lighting; biome := biome;
              blockName := None; properties := None |}.

  (** The record both palette branches push for a named block. *)
Definition named_block (blockName : string)
      (props : option (list (string * string)))
      (xOffset yOffset zOffset i : Z) : BlockData :=
    {| position := position_of i xOffset yOffset zOffset;
       blockId := getBlockIdFromName blockName;
       blockData := 0; lighting := 15; biome := 4;
       blockName := Some (remove_first "minecraft:" blockName);
       properties := props |}.

  (** One turn of the loop of the 1.13-1.17 branch. *)
Definition indexed_block (palette : list paletteEntry)
      (blockStates : list Packed.longVal) (xOffset yOffset zOffset i : Z)
    : option BlockData :=
    match Packed.paletteIndex_113 (Z.of_nat (length palette)) blockStates i with
    | None => None
    | Some paletteIndex =>
        if paletteIndex >=? Z.of_nat (length palette) then None
        else
          let block := at_index palette paletteIndex in
          let blockName := nameOf block in
          if skipped blockName then None
          else Some (named_block (default "" blockName) None
                                 xOffset yOffset zOffset i)
    end.

  (** One turn of the loop of the 1.18+ branch. *)
Definition nested_block (palette : list paletteEntry)
      (data : list Packed.longVal) (xOffset yOffset zOffset i : Z)
    : option BlockData :=
    match Packed.paletteIndex_118 (Z.of_nat (length palette)) data i with
    | None => None
    | Some paletteIndex =>
        if paletteIndex >=? Z.of_nat (length palette) then None
        else
          let block := at_index palette paletteIndex in
          let blockName := nameOf block in
          if skipped blockName then None
          else Some (named_block (default "" blockName) (propertiesOf block)
                                 xOffset yOffset zOffset i)
    end.

  (** The section filled with one block: the two loops that push 4096
      records without reading any data. *)
Definition filled (block : option paletteEntry)
      (xOffset yOffset zOffset : Z) : list BlockData :=
    let blockName := nameOf block in
    if skipped blockName then []
    else map (named_block (default "" blockName) None xOffset yOffset zOffset)
             (upto 4096).

  (** The body of the loop over the sections. *)
Definition sectionBlocks (biomes : option (list Z)) (xOffset zOffset : Z)
      (s : SectionNBT) : list BlockData :=
    let sectionY := default 0 (or_else (Y s) (y s)) in
    let yOffset := sectionY * 16 in
    match Blocks s with
    | Some blocks =>
        omap (flat_block s blocks biomes xOffset yOffset zOffset) (upto 4096)
    | None =>
        match Palette s, BlockStates s with
        | Some palette, Some blockStates =>
            let yOffset := default 0 (Y s) * 16 in
            if bool_decide (palette = []) then []
            else if bool_decide (blockStates = []) then []
            else omap (indexed_block palette blockStates
                                     xOffset yOffset zOffset) (upto 4096)
        | _, _ =>
            match block_states s with
            | Some blockStates =>
                match palette blockStates with
                | None | Some [] => []
                | Some pal =>
                    match data blockStates with
                    | None | Some [] =>
                        filled (at_index pal 0) xOffset yOffset zOffset
                    | Some d =>
                        omap (nested_block pal d xOffset yOffset zOffset)
                             (upto 4096)
                    end
                end
            | None => []
            end
        end
    end.

  (** extractBlocks *)
Definition extractBlocks (chunkNBT : option ChunkNBT)
      (regionChunkX regionChunkZ : Z) : list BlockData :=
    match chunkNBT with
    | None => []
    | Some chunk =>
        let level := default (root chunk) (Level chunk) in
        match or_else (or_else (Sections level) (sections level))
                      (section level) with
        | None => []
        | Some secs =>
            let xPos := default regionChunkX (or_else (xPos level) (XPos level)) in
            let zPos := default regionChunkZ (or_else (zPos level) (ZPos level)) in
            let xOffset := xPos * 16 in
            let zOffset := zPos * 16 in
            let biomes := Biomes level in
            flat_map
              (fun s => match s with
                        | Some sec => sectionBlocks biomes xOffset zOffset sec
                        | None => []
                        end)
              secs
        end
    end.

  (** The fields of a section absent, as a base for test data. *)
Definition no_fields : SectionNBT :=
    {| Y := None; y := None; Blocks := None; Add := None; Data := None;
       BlockLight := None; SkyLight := None; Palette := None;
       BlockStates := None; block_states := None |}.

End Blocks.

(** ** The tag tree with object identity (nbt/parser)

    The same functions over a store of cells, for what depends on who
    shares which object.  A node, a children array, a compound object,
    a list object, the array of a list and a typed array are cells; a
    { type, value } tag and a path array are never mutated once built
    and are kept by value.  A run that applies a cast to a value of
    another shape, or that exhausts the call stack ([fuel]) while
    cloning, stops with [None]; the store it leaves is still reported. *)

Module Heap.

Import Tree (TagType, TEnd, TByte, TShort, TInt, TLong, TFloat, TDouble,
               TByteArray, TString, TList, TCompound, TIntArray, TLongArray,
               member, MTag, MUndefined, MUntyped, read_member).

Abbreviation loc := nat.

  (** [JEmpty] is an empty slot of an array. *)
Inductive jsval : Type :=
  | JNumber (n : Z)
  | JBigInt (n : Z)
  | JString (s : string)
  | JRef (l : loc)
  | JUndefined
  | JEmpty.

Record NbtTreeNode : Type := {
    id : string;
    name : string;
    type : TagType;
    value : jsval;
    path : list string;
    parent : option loc;
    children : option loc
  }.

Inductive cell : Type :=
  | CNode (n : NbtTreeNode)
  | CChildren (nodes : list loc)
  | CCompound (entries : list (string * member jsval))
  | CList (type : TagType) (value : loc)
  | CArray (elements : list jsval)
  | CTyped (kind : TagType) (elements : list Z).

Abbreviation store := (list cell).

  (** *** Reading *)

Definition node_at (s : store) (l : loc) : option NbtTreeNode :=
    match s !! l with Some (CNode n) => Some n | _ => None end.
Definition children_at (s : store) (l : loc) : option (list loc) :=
    match s !! l with Some (CChildren ls) => Some ls | _ => None end.
Definition compound_at (s : store) (l : loc)
    : option (list (string * member jsval)) :=
    match s !! l with Some (CCompound es) => Some es | _ => None end.
Definition list_at (s : store) (l : loc) : option (TagType * loc) :=
    match s !! l with Some (CList t a) => Some (t, a) | _ => None end.
Definition array_at (s : store) (l : loc) : option (list jsval) :=
    match s !! l with Some (CArray vs) => Some vs | _ => None end.
Definition typed_at (kind : TagType) (s : store) (l : loc)
    : option (list Z) :=
    match s !! l with
    | Some (CTyped k a) => if decide (k = kind) then Some a else None
    | _ => None
    end.

  (** *** Runs: a store in, a store and maybe a result out *)

Definition M (A : Type) : Type := store -> store * option A.

Definition ret {A : Type} (a : A) : M A := fun s => (s, Some a).
Definition fail {A : Type} : M A := fun s => (s, None).
Definition bind {A B : Type} (m : M A) (k : A -> M B) : M B :=
    fun s => match m s with
             | (s', Some a) => k a s'
             | (s', None) => (s', None)
             end.
Definition get {A : Type} (f : store -> option A) : M A :=
    fun s => (s, f s).
Definition alloc (c : cell) : M loc :=
    fun s => (s ++ [c], Some (length s)).
Definition set_cell (l : loc) (c : cell) : M unit :=
    fun s => if decide (l < length s)%nat then (<[l := c]> s, Some tt)
             else (s, None).

Fixpoint each {A B : Type} (f : A -> M B) (l : list A) : M (list B) :=
    match l with
    | [] => ret []
    | x :: l' => bind (f x) (fun y => bind (each f l') (fun k => ret (y :: k)))
    end.

  (** Assignments to a field of a node, to a children array, to a
      compound object and to the array of a list: the cell keeps its
      kind. *)
Definition modify_node (l : loc) (f : NbtTreeNode -> NbtTreeNode) : M unit :=
    bind (get (fun s => node_at s l)) (fun n => set_cell l (CNode (f n))).
Definition write_children (l : loc) (ls : list loc) : M unit :=
    bind (get (fun s => children_at s l)) (fun _ => set_cell l (CChildren ls)).
Definition write_compound (l : loc)
      (es : list (string * member jsval)) : M unit :=
    bind (get (fun s => compound_at s l)) (fun _ => set_cell l (CCompound es)).
Definition write_array (l : loc) (vs : list jsval) : M unit :=
    bind (get (fun s => array_at s l)) (fun _ => set_cell l (CArray vs)).

Definition with_value (v : jsval) (n : NbtTreeNode) : NbtTreeNode :=
    {| id := id n; name := name n; type := type n; value := v;
       path := path n; parent := parent n; children := children n |}.
Definition with_children (c : option loc) (n : NbtTreeNode) : NbtTreeNode :=
    {| id := id n; name := name n; type := type n; value := value n;
       path := path n; parent := parent n; children := c |}.
Definition with_name_path (s : string) (p : list string) (n : NbtTreeNode)
    : NbtTreeNode :=
    {| id := id n; name := s; type := type n; value := value n;
       path := p; parent := parent n; children := children n |}.

  (** cloneValue *)
Fixpoint cloneValue (fuel : nat) (type : TagType) (value : jsval)
    : M jsval :=
    match fuel with
    | O => fail
    | S fuel' =>
        match type with
        | TByteArray | TIntArray | TLongArray =>
            match value with
            | JRef l =>
                bind (get (fun s => typed_at type s l)) (fun a =>
                bind (alloc (CTyped type a)) (fun l' => ret (JRef l')))
            | _ => fail
            end
        | TList =>
            match value with
            | JRef l =>
                bind (get (fun s => list_at s l)) (fun list =>
                bind (get (fun s => array_at s (snd list))) (fun vs =>
                bind (each (fun v => match v with
                                     | JEmpty => ret JEmpty
                                     | _ => cloneValue fuel' (fst list) v
                                     end) vs) (fun vs' =>
                bind (alloc (CArray vs')) (fun a' =>
                bind (alloc (CList (fst list) a')) (fun l' =>
                ret (JRef l'))))))
            | _ => fail
            end
        | TCompound =>
            match value with
            | JRef l =>
                bind (get (fun s => compound_at s l)) (fun compound =>
                bind (fold_left
                        (fun acc e =>
                           bind acc (fun cloned =>
                           match snd e with
                           | MTag t v =>
                               bind (cloneValue fuel' t v) (fun v' =>
                               ret (Obj.set cloned (fst e) (MTag t v')))
                           | MUndefined => fail
                           | MUntyped => ret (Obj.set cloned (fst e) MUntyped)
                           end))
                        compound (ret []))
                     (fun cloned =>
                bind (alloc (CCompound cloned)) (fun l' => ret (JRef l'))))
            | _ => fail
            end
        | _ => ret value
        end
    end.

  (** cloneTree *)
Fixpoint cloneTree (fuel : nat) (node : loc) (parent : option loc)
    : M loc :=
    match fuel with
    | O => fail
    | S fuel' =>
        bind (get (fun s => node_at s node)) (fun n =>
        bind (cloneValue fuel' (type n) (value n)) (fun v =>
        bind (alloc (CNode {| id := id n; name := name n; type := type n;
                              value := v; path := path n; parent := parent;
                              children := None |}))
             (fun cloned =>
        match children n with
        | Some cl =>
            bind (get (fun s => children_at s cl)) (fun ls =>
            bind (each (fun child => cloneTree fuel' child (Some cloned)) ls)
                 (fun ls' =>
            bind (alloc (CChildren ls')) (fun cl' =>
            bind (modify_node cloned (with_children (Some cl'))) (fun _ =>
            ret cloned))))
        | None => ret cloned
        end)))
    end.

  (** findNodeByPath reads only; the outer [None] is a stopped run, the
      inner one is null. *)
Fixpoint find_child (s : store) (ls : list loc) (seg : string)
    : option (option loc) :=
    match ls with
    | [] => Some None
    | c :: ls' =>
        n ← node_at s c;
        if String.eqb (name n) seg then Some (Some c)
        else find_child s ls' seg
    end.

Fixpoint walk (s : store) (current : loc) (segments : list string)
      {struct segments} : option (option loc) :=
    match segments with
    | [] => Some (Some current)
    | seg :: rest =>
        n ← node_at s current;
        match children n with
        | None => Some None
        | Some cl =>
            ls ← children_at s cl;
            r ← find_child s ls seg;
            match r with
            | None => Some None
            | Some c => walk s c rest
            end
        end
    end.

Definition findNodeByPath (s : store) (root : loc) (path : list string)
    : option (option loc) :=
    match path with
    | [] => Some (Some root)
    | p0 :: rest =>
        n ← node_at s root;
        if bool_decide (rest = []) && String.eqb p0 (name n)
        then Some (Some root)
        else walk s root rest
    end.

  (** updateParentValues *)
Definition updateParentValues_turn (root : loc) (path : list string)
      (i : nat) : M unit :=
    bind (get (fun s => findNodeByPath s root (take i path))) (fun parent =>
    bind (get (fun s => findNodeByPath s root (take (S i) path))) (fun child =>
    match parent, child with
    | Some p, Some c =>
        bind (get (fun s => node_at s p)) (fun pn =>
        bind (get (fun s => node_at s c)) (fun cn =>
        match type pn with
        | TCompound =>
            match value pn with
            | JRef l =>
                bind (get (fun s => compound_at s l)) (fun compound =>
                write_compound l
                  (Obj.set compound (name cn) (MTag (type cn) (value cn))))
            | _ => fail
            end
        | TList =>
            match value pn with
            | JRef l =>
                bind (get (fun s => list_at s l)) (fun list =>
                bind (get (fun s => array_at s (snd list))) (fun vs =>
                write_array (snd list)
                  (Arr.set_index JEmpty vs (Str.parseInt (name cn))
                                 (value cn))))
            | _ => fail
            end
        | _ => ret tt
        end))
    | _, _ => ret tt
    end)).

Definition updateParentValues (root : loc) (path : list string) : M unit :=
    fold_left (fun acc i => bind acc (fun _ =>
                             updateParentValues_turn root path i))
              (rev (seq 1 (length path - 1))) (ret tt).

  (** updateNodeValue *)
Definition updateNodeValue (fuel : nat) (root : loc)
      (nodePath : list string) (newValue : jsval) : M loc :=
    bind (cloneTree fuel root None) (fun clonedRoot =>
    bind (get (fun s => findNodeByPath s clonedRoot nodePath)) (fun node =>
    match node with
    | Some n =>
        bind (modify_node n (with_value newValue)) (fun _ =>
        bind (updateParentValues clonedRoot nodePath) (fun _ =>
        ret clonedRoot))
    | None => ret clonedRoot
    end)).

Section Collation.
Variable localeCompare : string -> string -> Z.

    (** children.sort((a, b) => a.name.localeCompare(b.name)), in place. *)
Definition sort_children (cl : loc) : M unit :=
      bind (get (fun s => children_at s cl)) (fun ls =>
      bind (get (fun s => mapM (fun c => (fun n => (c, name n)) <$> node_at s c)
                               ls))
           (fun named =>
      write_children cl (map fst (Tree.sort localeCompare snd named)))).

    (** parent.children = parent.children || [] *)
Definition children_or_new (parent : loc) : M loc :=
      bind (get (fun s => node_at s parent)) (fun pn =>
      match children pn with
      | Some cl => ret cl
      | None =>
          bind (alloc (CChildren [])) (fun cl =>
          bind (modify_node parent (with_children (Some cl))) (fun _ =>
          ret cl))
      end).

    (** buildTreeNode: a node holds the very value of its tag, so a
        child shares its value with the entry of its parent. *)
Fixpoint buildTreeNode (fuel : nat) (name : string) (type : TagType)
        (value : jsval) (path : list string) (parent : option loc)
        (nodeIdCounter : Z) : M (loc * Z) :=
      match fuel with
      | O => fail
      | S fuel' =>
          let '(id, counter) := Tree.generateNodeId nodeIdCounter in
          let nodePath := path ++ [name] in
          bind (alloc (CNode {| id := id; name := name; type := type;
                                value := value; path := nodePath;
                                parent := parent; children := None |}))
               (fun node =>
          let build_children (tags : list (string * member jsval)) :=
            bind (fold_left
                    (fun acc e =>
                       bind acc (fun done =>
                       match snd e with
                       | MTag t v =>
                           bind (buildTreeNode fuel' (fst e) t v nodePath
                                   (Some node) (snd done))
                                (fun r => ret (fst done ++ [fst r], snd r))
                       | _ => fail
                       end))
                    tags (ret ([], counter)))
                 (fun r =>
            bind (alloc (CChildren (fst r))) (fun cl =>
            bind (modify_node node (with_children (Some cl))) (fun _ =>
            ret (node, snd r)))) in
          match type with
          | TCompound =>
              match value with
              | JRef l =>
                  bind (get (fun s => compound_at s l)) (fun compound =>
                  build_children (Tree.sort localeCompare fst compound))
              | _ => fail
              end
          | TList =>
              match value with
              | JRef l =>
                  bind (get (fun s => list_at s l)) (fun list =>
                  bind (get (fun s => array_at s (snd list))) (fun vs =>
                  build_children
                    (imap (fun index v =>
                             (Str.of_nat index,
                              match v with
                              | JEmpty => MUndefined
                              | _ => MTag (fst list) v
                              end))
                          vs)))
              | _ => fail
              end
          | _ => ret (node, counter)
          end)
      end.

    (** addTag *)
Definition addTag (fuel : nat) (root : loc) (parentPath : list string)
        (name : string) (type : TagType) (value : jsval) (nodeIdCounter : Z)
      : M (loc * Z) :=
      bind (cloneTree fuel root None) (fun clonedRoot =>
      bind (get (fun s => findNodeByPath s clonedRoot parentPath))
           (fun parent =>
      match parent with
      | None => ret (clonedRoot, nodeIdCounter)
      | Some p =>
          let '(id, counter) := Tree.generateNodeId nodeIdCounter in
          bind (alloc (CNode {| id := id; name := name; type := type;
                                value := value;
                                path := parentPath ++ [name];
                                parent := Some p; children := None |}))
               (fun newNode =>
          bind (get (fun s => node_at s p)) (fun pn =>
          bind
            match Heap.type pn with
            | TCompound =>
                match Heap.value pn with
                | JRef l =>
                    bind (get (fun s => compound_at s l)) (fun compound =>
                    bind (write_compound l
                            (Obj.set compound name (MTag type value)))
                         (fun _ =>
                    bind (children_or_new p) (fun cl =>
                    bind (get (fun s => children_at s cl)) (fun ls =>
                    bind (write_children cl (ls ++ [newNode])) (fun _ =>
                    sort_children cl)))))
                | _ => fail
                end
            | TList =>
                match Heap.value pn with
                | JRef l =>
                    bind (get (fun s => list_at s l)) (fun list =>
                    bind (get (fun s => array_at s (snd list))) (fun vs =>
                    bind (write_array (snd list) (vs ++ [value])) (fun _ =>
                    bind (children_or_new p) (fun cl =>
                    bind (get (fun s => children_at s cl)) (fun ls =>
                    let name' := Str.of_nat (length ls) in
                    bind (modify_node newNode
                            (with_name_path name' (parentPath ++ [name'])))
                         (fun _ =>
                    write_children cl (ls ++ [newNode])))))))
                | _ => fail
                end
            | _ => ret tt
            end
            (fun _ =>
          bind (updateParentValues clonedRoot parentPath) (fun _ =>
          ret (clonedRoot, counter)))))
      end)).

    (** deleteTag *)
Definition deleteTag (fuel : nat) (root : loc) (nodePath : list string)
      : M loc :=
      if (length nodePath <=? 1)%nat then ret root
      else
        bind (cloneTree fuel root None) (fun clonedRoot =>
        let parentPath := removelast nodePath in
        let nodeName := List.last nodePath "" in
        bind (get (fun s => findNodeByPath s clonedRoot parentPath))
             (fun parent =>
        match parent with
        | None => ret clonedRoot
        | Some p =>
            bind (get (fun s => node_at s p)) (fun pn =>
            bind
              match Heap.type pn with
              | TCompound =>
                  match Heap.value pn with
                  | JRef l =>
                      bind (get (fun s => compound_at s l)) (fun compound =>
                      bind (write_compound l (Obj.delete compound nodeName))
                           (fun _ =>
                      match children pn with
                      | Some cl =>
                          bind (get (fun s => children_at s cl)) (fun ls =>
                          bind (get (fun s =>
                                  mapM (fun c => (fun n => (c, Heap.name n))
                                                   <$> node_at s c) ls))
                               (fun named =>
                          bind (alloc
                                  (CChildren
                                     (map fst
                                        (filter
                                           (fun cn =>
                                              negb (String.eqb (snd cn)
                                                               nodeName))
                                           named))))
                               (fun cl' =>
                          modify_node p (with_children (Some cl')))))
                      | None => ret tt
                      end))
                  | _ => fail
                  end
              | TList =>
                  match Heap.value pn with
                  | JRef l =>
                      let index := Str.parseInt nodeName in
                      bind (get (fun s => list_at s l)) (fun list =>
                      bind (get (fun s => array_at s (snd list))) (fun vs =>
                      bind (write_array (snd list) (Arr.splice1 vs index))
                           (fun _ =>
                      match children pn with
                      | Some cl =>
                          bind (get (fun s => children_at s cl)) (fun ls =>
                          let ls' := Arr.splice1 ls index in
                          bind (write_children cl ls') (fun _ =>
                          bind (each
                                  (fun ic =>
                                     modify_node (snd ic)
                                       (with_name_path
                                          (Str.of_nat (fst ic))
                                          (parentPath
                                             ++ [Str.of_nat (fst ic)])))
                                  (imap (fun i c => (i, c)) ls'))
                               (fun _ => ret tt)))
                      | None => ret tt
                      end)))
                  | _ => fail
                  end
              | _ => ret tt
              end
              (fun _ =>
            bind (updateParentValues clonedRoot parentPath) (fun _ =>
            ret clonedRoot)))
        end)).

    (** renameTag *)
Definition renameTag (fuel : nat) (root : loc) (nodePath : list string)
        (newName : string) : M loc :=
      if (length nodePath <=? 1)%nat then ret root
      else
        bind (cloneTree fuel root None) (fun clonedRoot =>
        let parentPath := removelast nodePath in
        let oldName := List.last nodePath "" in
        bind (get (fun s => findNodeByPath s clonedRoot parentPath))
             (fun parent =>
        bind (get (fun s => findNodeByPath s clonedRoot nodePath))
             (fun node =>
        match parent, node with
        | Some p, Some n =>
            bind (get (fun s => node_at s p)) (fun pn =>
            if bool_decide (Heap.type pn = TCompound) then
              match Heap.value pn with
              | JRef l =>
                  bind (get (fun s => compound_at s l)) (fun compound =>
                  let tag := read_member compound oldName in
                  bind (write_compound l
                          (Obj.set (Obj.delete compound oldName)
                                   newName tag)) (fun _ =>
                  bind (modify_node n
                          (with_name_path newName
                                          (parentPath ++ [newName])))
                       (fun _ =>
                  bind (get (fun s => node_at s p)) (fun pn' =>
                  match children pn' with
                  | Some cl =>
                      bind (sort_children cl) (fun _ => ret clonedRoot)
                  | None => ret clonedRoot
                  end))))
              | _ => fail
              end
            else ret clonedRoot)
        | _, _ => ret clonedRoot
        end))).
End Collation.

  (** *** What the frame property says *)

  (** Every cell of [s] is still there, unchanged, in [s']. *)
Definition unchanged (s s' : store) : Prop :=
    forall l c, s !! l = Some c -> s' !! l = Some c.

  (** *** The invariant behind it

      Cells at or above [n0] are those a run has allocated.  A node
      among them points to a children array among them, whose elements
      lie above the node itself; unless excepted by [ex], a Compound or
      List node holds a value among them; so does a list object its
      array. *)
Definition container (t : TagType) : Prop := t = TCompound \/ t = TList.

Definition wf_cell (n0 : nat) (ex : loc -> Prop) (s : store) (l : loc)
      (c : cell) : Prop :=
    match c with
    | CNode n =>
        (forall cl, children n = Some cl ->
           (n0 <= cl < length s)%nat /\
           forall ls, children_at s cl = Some ls ->
                      Forall (fun c => (l < c)%nat) ls) /\
        (~ ex l -> container (type n) ->
         forall v, value n = JRef v -> (n0 <= v)%nat)
    | CList _ a => (n0 <= a)%nat
    | _ => True
    end.

Definition Inv (n0 : nat) (ex : loc -> Prop) (s : store) : Prop :=
    (n0 <= length s)%nat /\
    forall l c, (n0 <= l)%nat -> s !! l = Some c -> wf_cell n0 ex s l c.

  (** A run that only extends the store and keeps the invariant. *)
Definition grows (n0 : nat) (ex : loc -> Prop) {A : Type} (m : M A)
    : Prop :=
    forall s,
      s `prefix_of` fst (m s) /\
      (Inv n0 ex s -> forall a, snd (m s) = Some a -> Inv n0 ex (fst (m s))).






  (** Every cell of [s] is in [s'] a cell of the same kind: a node is
      still a node, a compound object, a list object and an array are
      still there, and a children array of nodes is one of nodes. *)
Definition settled (s s' : store) : Prop :=
    (forall x, is_Some (node_at s x) -> is_Some (node_at s' x)) /\
    (forall x, is_Some (compound_at s x) -> is_Some (compound_at s' x)) /\
    (forall x list, list_at s x = Some list -> list_at s' x = Some list) /\
    (forall x, is_Some (array_at s x) -> is_Some (array_at s' x)) /\
    (forall cl ls,
       children_at s cl = Some ls ->
       Forall (fun c => is_Some (node_at s c)) ls ->
       exists ls', children_at s' cl = Some ls' /\
                   Forall (fun c => is_Some (node_at s' c)) ls').

  (** [s''] still has the cells of [base] and those that a run from [s]
      to [s'] has made. *)
Definition holds (base s s' s'' : store) : Prop :=
    unchanged base s'' /\
    forall l, (length s <= l < length s')%nat -> s'' !! l = s' !! l.




  (** *** Reading a heap tree back as a structural one *)

Fixpoint reify_value (fuel : nat) (s : store) (v : jsval)
    : option Tree.NbtValue :=
    match fuel with
    | O => None
    | S fuel' =>
        match v with
        | JNumber n => Some (Tree.VNumber n)
        | JBigInt n => Some (Tree.VBigInt n)
        | JString x => Some (Tree.VString x)
        | JUndefined => None
        | JEmpty => Some Tree.VEmpty
        | JRef l =>
            match s !! l with
            | Some (CTyped TByteArray a) => Some (Tree.VInt8Array a)
            | Some (CTyped TIntArray a) => Some (Tree.VInt32Array a)
            | Some (CTyped TLongArray a) => Some (Tree.VBigInt64Array a)
            | Some (CList t a) =>
                vs ← array_at s a;
                Tree.VList t <$> mapM (reify_value fuel' s) vs
            | Some (CCompound es) =>
                Tree.VCompound
                  <$> mapM (fun e =>
                              match snd e with
                              | MTag t v =>
                                  v' ← reify_value fuel' s v;
                                  Some (fst e, MTag t v')
                              | MUndefined => Some (fst e, MUndefined)
                              | MUntyped => Some (fst e, MUntyped)
                              end)
                           es
            | _ => None
            end
        end
    end.

Fixpoint reify (fuel : nat) (s : store) (l : loc)
    : option Tree.NbtTreeNode :=
    match fuel with
    | O => None
    | S fuel' =>
        n ← node_at s l;
        v ← reify_value fuel' s (value n);
        c ← match children n with
            | None => Some None
            | Some cl =>
                ls ← children_at s cl;
                Some <$> mapM (reify fuel' s) ls
            end;
        Some (Tree.Node (id n) (name n) (type n) v (path n) c)
    end.

  (** Laying a structural value out in the store, as convertValue
      builds it. *)
Fixpoint store_value (v : Tree.NbtValue) : M jsval :=
    match v with
    | Tree.VNumber n => ret (JNumber n)
    | Tree.VBigInt n => ret (JBigInt n)
    | Tree.VString x => ret (JString x)
    | Tree.VInt8Array a => bind (alloc (CTyped TByteArray a)) (fun l => ret (JRef l))
    | Tree.VInt32Array a => bind (alloc (CTyped TIntArray a)) (fun l => ret (JRef l))
    | Tree.VBigInt64Array a =>
        bind (alloc (CTyped TLongArray a)) (fun l => ret (JRef l))
    | Tree.VList t vs =>
        bind ((fix go (l : list Tree.NbtValue) : M (list jsval) :=
                 match l with
                 | [] => ret []
                 | x :: l' =>
                     bind (store_value x) (fun y =>
                     bind (go l') (fun k => ret (y :: k)))
                 end) vs) (fun vs' =>
        bind (alloc (CArray vs')) (fun a =>
        bind (alloc (CList t a)) (fun l => ret (JRef l))))
    | Tree.VCompound es =>
        bind ((fix go (l : list (string * member Tree.NbtValue))
                 : M (list (string * member jsval)) :=
                 match l with
                 | [] => ret []
                 | e :: l' =>
                     bind match snd e with
                          | MTag t x =>
                              bind (store_value x) (fun y => ret (MTag t y))
                          | MUndefined => ret MUndefined
                          | MUntyped => ret MUntyped
                          end (fun m =>
                     bind (go l') (fun k => ret ((fst e, m) :: k)))
                 end) es) (fun es' =>
        bind (alloc (CCompound es')) (fun l => ret (JRef l)))
    | Tree.VEmpty => ret JEmpty
    end.

  (** The sample tag laid out and its tree built, from the empty store. *)
Definition sample_heap : store * option (loc * Z) :=
    bind (store_value Tree.sample_tag)
         (fun v => buildTreeNode Tree.codeUnitCompare 8 "Data" TCompound v []
                                 None 0) [].



  (** The tree at [r] after a run that returned [r], read back. *)
Definition read_back {A : Type} (root_of : A -> loc)
      (run : store * option A) : option Tree.NbtTreeNode :=
    r ← snd run; reify 8 (fst run) (root_of r).

End Heap.

(** ** Tag type helpers (types) *)

Module Types.
Import Tree.

Definition isContainerType (type : TagType) : bool :=
    bool_decide (type = TCompound) || bool_decide (type = TList).

Definition isArrayType (type : TagType) : bool :=
    bool_decide (type = TByteArray) || bool_decide (type = TIntArray)
    || bool_decide (type = TLongArray).

Definition isNumericType (type : TagType) : bool :=
    bool_decide (type = TByte) || bool_decide (type = TShort)
    || bool_decide (type = TInt) || bool_decide (type = TLong)
    || bool_decide (type = TFloat) || bool_decide (type = TDouble).

  (** createDefaultValue *)
Definition createDefaultValue (type : TagType) : NbtValue :=
    match type with
    | TByte | TShort | TInt | TFloat | TDouble => VNumber 0
    | TLong => VBigInt 0
    | TString => VString ""
    | TByteArray => VInt8Array []
    | TIntArray => VInt32Array []
    | TLongArray => VBigInt64Array []
    | TList => VList TByte []
    | TCompound => VCompound []
    | TEnd => VNumber 0
    end.

End Types.

(** ** Between prismarine-nbt's values and the editor's (nbt/parser) *)

Module Convert.
Import Tree.

Local Set Warnings "-register-all".

  (** What a lookup in an object literal used as a map gives: an own
      entry, a member inherited from Object.prototype, or undefined. *)
Inductive looked_up (A : Type) : Type :=
  | Own (a : A)
  | Inherited (key : string)
  | Undefined.
Arguments Own {A} a.
Arguments Inherited {A} key.
Arguments Undefined {A}.

Definition lookup_literal {A : Type} (o : list (string * A)) (k : string)
    : looked_up A :=
    match Obj.get o k with
    | Some a => Own a
    | None =>
        if bool_decide (k ∈ Blocks.objectPrototypeKeys) then Inherited k
        else Undefined
    end.

  (** convertTagType: typeMap[type] ?? TagType.End.  A key inherited
      from Object.prototype is not nullish and comes back as it is. *)
Definition tagTypeMap : list (string * TagType) :=
    [("byte", TByte); ("short", TShort); ("int", TInt); ("long", TLong);
     ("float", TFloat); ("double", TDouble); ("byteArray", TByteArray);
     ("string", TString); ("list", TList); ("compound", TCompound);
     ("intArray", TIntArray); ("longArray", TLongArray)].

Definition convertTagType (type : string) : looked_up TagType :=
    match lookup_literal tagTypeMap type with
    | Undefined => Own TEnd
    | r => r
    end.

  (** convertToNbtType *)
Definition convertToNbtType (type : TagType) : string :=
    match type with
    | TEnd => "end"
    | TByte => "byte"
    | TShort => "short"
    | TInt => "int"
    | TLong => "long"
    | TFloat => "float"
    | TDouble => "double"
    | TByteArray => "byteArray"
    | TString => "string"
    | TList => "list"
    | TCompound => "compound"
    | TIntArray => "intArray"
    | TLongArray => "longArray"
    end.

  (** A value as prismarine-nbt hands it over or takes it back. *)
Inductive PValue : Type :=
  | PNumber (n : Z)
  | PBigInt (n : Z)
  | PString (s : string)
  | PArray (elements : list PValue)
  | PList (type : string) (value : list PValue)
  | PCompound (entries : list (string * (string * PValue))).

  (** Slots of an Int8Array and of an Int32Array. *)
Definition toInt8 (z : Z) : Z := (z + 2 ^ 7) mod 2 ^ 8 - 2 ^ 7.

  (** [return value]: the value goes through as it is.  An array or an
      object going through is no value of the editor's model, nor is a
      typed array or a container a value of prismarine's: [None]. *)
Definition as_it_is (value : PValue) : option NbtValue :=
    match value with
    | PNumber n => Some (VNumber n)
    | PBigInt n => Some (VBigInt n)
    | PString s => Some (VString s)
    | _ => None
    end.

Definition back_as_it_is (value : NbtValue) : option PValue :=
    match value with
    | VNumber n => Some (PNumber n)
    | VBigInt n => Some (PBigInt n)
    | VString s => Some (PString s)
    | _ => None
    end.

  (** Array.isArray(v) ? BigInt(v[0]) * BigInt(2 ** 32) + BigInt(v[1] >>> 0)
                       : BigInt(v);
      [None] where BigInt throws, or parses a string (not modelled). *)
Definition long_of (v : PValue) : option Z :=
    match v with
    | PArray (PNumber v0 :: PNumber v1 :: _) =>
        Some (Long.convertValue_long (Long.PArr v0 v1))
    | PNumber n => Some n
    | PBigInt n => Some n
    | _ => None
    end.

  (** The numbers of an array of numbers. *)
Definition numbers (value : PValue) : option (list Z) :=
    match value with
    | PArray elements =>
        mapM (fun e => match e with PNumber n => Some n | _ => None end)
             elements
    | _ => None
    end.

  (** convertValue.  [None]: the code throws, or the result lies
      outside the model (a typed array built from anything but an array
      of numbers, a tag type that is an inherited member). *)
Fixpoint convertValue (type : string) (value : PValue) {struct value}
    : option NbtValue :=
    if String.eqb type "long" then VBigInt <$> long_of value
    else if String.eqb type "byteArray"
    then (fun ns => VInt8Array (map toInt8 ns)) <$> numbers value
    else if String.eqb type "intArray"
    then (fun ns => VInt32Array (map JS.toInt32 ns)) <$> numbers value
    else if String.eqb type "longArray"
    then match value with
         | PArray elements =>
             (fun vs => VBigInt64Array (map JS.asInt64 vs))
               <$> mapM long_of elements
         | _ => None
         end
    else if String.eqb type "list"
    then match value with
         | PList t vs =>
             match convertTagType t with
             | Own t' => VList t' <$> mapM (convertValue t) vs
             | _ => None
             end
         | _ => None
         end
    else if String.eqb type "compound"
    then match value with
         | PCompound entries =>
             VCompound <$>
               fold_left
                 (fun compound e =>
                    c ← compound;
                    match convertTagType (fst (snd e)) with
                    | Own t' =>
                        v ← convertValue (fst (snd e)) (snd (snd e));
                        Some (Obj.set c (fst e) (MTag t' v))
                    | _ => None
                    end)
                 entries (Some [])
         | _ => None
         end
    else as_it_is value.

  (** A long on prismarine's side: the [high, low] array. *)
Definition pair_of (p : Long.plong) : PValue :=
    match p with
    | Long.PArr hi lo => PArray [PNumber hi; PNumber lo]
    | Long.PScalar v => PNumber v
    end.

  (** convertToPrismarineValue.  [None]: a cast applied to a value of
      another shape, a number that Number() cannot hold exactly, an
      empty slot in a list or a member of a compound that is no tag. *)
Fixpoint convertToPrismarineValue (type : TagType) (value : NbtValue)
      {struct value} : option PValue :=
    match type with
    | TLong =>
        match value with
        | VBigInt bigVal =>
            pair_of <$> Long.convertToPrismarineValue_long bigVal
        | _ => None
        end
    | TByteArray =>
        match value with
        | VInt8Array a => Some (PArray (map PNumber a))
        | _ => None
        end
    | TIntArray =>
        match value with
        | VInt32Array a => Some (PArray (map PNumber a))
        | _ => None
        end
    | TLongArray =>
        match value with
        | VBigInt64Array arr =>
            (fun ps => PArray (map pair_of ps))
              <$> Long.convertToPrismarineValue_longArray arr
        | _ => None
        end
    | TList =>
        match value with
        | VList t vs =>
            PList (convertToNbtType t)
              <$> mapM (convertToPrismarineValue t) vs
        | _ => None
        end
    | TCompound =>
        match value with
        | VCompound compound =>
            PCompound <$>
              fold_left
                (fun result e =>
                   r ← result;
                   match snd e with
                   | MTag t x =>
                       v ← convertToPrismarineValue t x;
                       Some (Obj.set r (fst e) (convertToNbtType t, v))
                   | _ => None
                   end)
                compound (Some [])
        | _ => None
        end
    | _ => back_as_it_is value
    end.

  (** Values whose contents fit the slots their tag type gives them:
      a Long in 64 bits, the elements of the typed arrays in 8, 32 and
      64 bits, the keys of a compound pairwise distinct. *)
Definition int8 (z : Z) : Prop := - 2 ^ 7 <= z < 2 ^ 7.
Definition int32 (z : Z) : Prop := - 2 ^ 31 <= z < 2 ^ 31.

Fixpoint well_typed (t : TagType) (v : NbtValue) {struct v} : Prop :=
    match t with
    | TEnd => False
    | TByte | TShort | TInt | TFloat | TDouble =>
        match v with VNumber _ => True | _ => False end
    | TString => match v with VString _ => True | _ => False end
    | TLong => match v with VBigInt b => Long.is_int64 b | _ => False end
    | TByteArray =>
        match v with VInt8Array a => Forall int8 a | _ => False end
    | TIntArray =>
        match v with VInt32Array a => Forall int32 a | _ => False end
    | TLongArray =>
        match v with
        | VBigInt64Array a => Forall Long.is_int64 a
        | _ => False
        end
    | TList =>
        match v with
        | VList t' vs =>
            (fix all (l : list NbtValue) : Prop :=
               match l with
               | [] => True
               | x :: l' => well_typed t' x /\ all l'
               end) vs
        | _ => False
        end
    | TCompound =>
        match v with
        | VCompound entries =>
            NoDup (map fst entries) /\
            (fix all (l : list (string * member NbtValue)) : Prop :=
               match l with
               | [] => True
               | e :: l' =>
                   match snd e with
                   | MTag t' x => well_typed t' x
                   | _ => False
                   end /\ all l'
               end) entries
        | _ => False
        end
    end.

  (** An entry of a compound and its counterpart on prismarine's side:
      same key, the type under its name, and the values converted into
      one another. *)
Definition there (e : string * member NbtValue)
      (e' : string * (string * PValue)) : Prop :=
    match snd e with
    | MTag t x =>
        fst e' = fst e /\ fst (snd e') = convertToNbtType t /\
        convertToPrismarineValue t x = Some (snd (snd e')) /\
        convertValue (fst (snd e')) (snd (snd e')) = Some x
    | _ => False
    end.

End Convert.

(** ** The editor hook (use-nbt-editor) *)

Module Hook.

  (** pasteNode, the name under which the clipboard is pasted:
        let counter = 1;
        while (existingNames.includes(name)) {
          name = `${clipboard.name} (${counter})`; counter++;
        }
      [fuel] bounds the turns of the loop. *)
Definition includes (existingNames : list string) (name : string) : bool :=
    existsb (String.eqb name) existingNames.

Definition numbered (base : string) (counter : Z) : string :=
    base +:+ " (" +:+ pretty counter +:+ ")".

Fixpoint unique_name (fuel : nat) (existingNames : list string)
      (base name : string) (counter : Z) : option string :=
    match fuel with
    | O => None
    | S fuel' =>
        if includes existingNames name
        then unique_name fuel' existingNames base (numbered base counter)
                         (counter + 1)
        else Some name
    end.

Definition pasteNode_name (fuel : nat) (existingNames : list string)
      (base : string) : option string :=
    unique_name fuel existingNames base base 1.

End Hook.

(** * Theorems *)

(** ** 64-bit split and combine *)

Lemma Number_exact (b : Z) : Z.abs b <= 2 ^ 53 -> JS.Number b = Some b.
Proof.
  intros H. unfold JS.Number.
  destruct (Z.leb_spec (Z.abs b) (2 ^ 53)); [reflexivity | lia].
Qed.

Lemma shr_zero (a : Z) : JS.shr a 0 = a mod 2 ^ 32.
Proof.
  unfold JS.shr, JS.toUint32.
  change ((0 mod 2 ^ 32) mod 32) with 0. apply Z.shiftr_0_r.
Qed.

Lemma long_roundtrip (v : Z) :
  Long.is_int64 v ->
  Long.convertValue_long <$> Long.convertToPrismarineValue_long v = Some v.
Proof.
  intros [Hlo Hhi]. unfold Long.convertToPrismarineValue_long.
  change 4294967295 with (Z.ones 32).
  rewrite Z.land_ones by lia. rewrite Z.shiftr_div_pow2 by lia.
  assert (H32 : 0 < 2 ^ 32) by lia.
  pose proof (Z.mod_pos_bound v (2 ^ 32) H32) as Hm.
  pose proof (Z.div_mod v (2 ^ 32) ltac:(lia)) as Hd.
  rewrite (Number_exact (v / 2 ^ 32)) by lia.
  rewrite (Number_exact (v mod 2 ^ 32)) by lia.
  cbn [mbind option_bind fmap option_fmap option_map Long.convertValue_long].
  f_equal. rewrite shr_zero. rewrite Z.mod_mod by lia. lia.
Qed.

Lemma asInt64_id (v : Z) : Long.is_int64 v -> JS.asInt64 v = v.
Proof.
  intros [Hlo Hhi]. unfold JS.asInt64.
  rewrite Z.mod_small by lia. lia.
Qed.

Lemma longArray_roundtrip (arr : list Z) :
  Forall Long.is_int64 arr ->
  Long.convertValue_longArray <$> Long.convertToPrismarineValue_longArray arr
  = Some arr.
Proof.
  unfold Long.convertToPrismarineValue_longArray, Long.convertValue_longArray.
  induction 1 as [|v arr Hv Harr IH]; [reflexivity|].
  pose proof (long_roundtrip v Hv) as Hr.
  destruct (Long.convertToPrismarineValue_long v) as [p|] eqn:Hp;
    [|discriminate].
  injection Hr as Hr.
  cbn [mapM]. rewrite Hp. cbn [mbind option_bind].
  destruct (mapM Long.convertToPrismarineValue_long arr) as [ps|];
    [|discriminate].
  injection IH as IH.
  cbn [mbind option_bind mret option_ret fmap option_fmap option_map map].
  rewrite Hr, IH, (asInt64_id v Hv). reflexivity.
Qed.

(** ** Packed block states *)

Section PackedFacts.
Import Packed.

Lemma extract_bits (w v off bits : Z) :
    0 <= off -> 0 <= bits -> 0 <= v < 2 ^ bits ->
    (forall j, 0 <= j < bits -> Z.testbit w (off + j) = Z.testbit v j) ->
    Z.land (Z.shiftr w off) (Z.ones bits) = v.
  Proof.
    intros Hoff Hbits Hv Hw. apply Z.bits_inj'. intros n Hn.
    rewrite Z.land_spec, Z.shiftr_spec by lia.
    destruct (Z.lt_ge_cases n bits) as [Hlt | Hge].
    - rewrite Z.ones_spec_low by lia. rewrite andb_true_r.
      rewrite Z.add_comm. apply Hw. lia.
    - rewrite Z.ones_spec_high by lia. rewrite andb_false_r.
      symmetry. rewrite <- (Z.mod_small v (2 ^ bits)) by lia.
      apply Z.mod_pow2_bits_high. lia.
  Qed.

Lemma low_bits_congr (a b n : Z) :
    a mod 2 ^ 64 = b mod 2 ^ 64 -> 0 <= n < 64 ->
    Z.testbit a n = Z.testbit b n.
  Proof.
    intros Hab Hn.
    rewrite <- (Z.mod_pow2_bits_low a 64 n) by lia.
    rewrite <- (Z.mod_pow2_bits_low b 64 n) by lia.
    now rewrite Hab.
  Qed.

Lemma asInt64_mod (w : Z) : JS.asInt64 w mod 2 ^ 64 = w mod 2 ^ 64.
  Proof.
    unfold JS.asInt64.
    pose proof (Z.div_mod (w + 2 ^ 63) (2 ^ 64) ltac:(lia)) as Hd.
    replace ((w + 2 ^ 63) mod 2 ^ 64 - 2 ^ 63)
      with (w + (- ((w + 2 ^ 63) / 2 ^ 64)) * 2 ^ 64) by lia.
    apply Z.mod_add. lia.
  Qed.

Lemma toInt32_mod (z : Z) : JS.toInt32 z mod 2 ^ 32 = z mod 2 ^ 32.
  Proof.
    unfold JS.toInt32.
    pose proof (Z.div_mod (z + 2 ^ 31) (2 ^ 32) ltac:(lia)) as Hd.
    replace ((z + 2 ^ 31) mod 2 ^ 32 - 2 ^ 31)
      with (z + (- ((z + 2 ^ 31) / 2 ^ 32)) * 2 ^ 32) by lia.
    apply Z.mod_add. lia.
  Qed.

Lemma toInt32_range (z : Z) : - 2 ^ 31 <= JS.toInt32 z < 2 ^ 31.
  Proof.
    unfold JS.toInt32.
    pose proof (Z.mod_pos_bound (z + 2 ^ 31) (2 ^ 32) ltac:(lia)). lia.
  Qed.

Lemma toInt32_small (z : Z) : - 2 ^ 31 <= z < 2 ^ 31 -> JS.toInt32 z = z.
  Proof. intros H. unfold JS.toInt32. rewrite Z.mod_small by lia. lia. Qed.

  (** The [high, low] pair denotes the same 64 bits, with [+] as with [|]. *)
Lemma highlow_sum_mod (w : Z) :
    (JS.toInt32 (Z.shiftr w 32) * 2 ^ 32 + JS.shr (JS.toInt32 w) 0) mod 2 ^ 64
    = w mod 2 ^ 64.
  Proof.
    rewrite shr_zero, toInt32_mod, Z.shiftr_div_pow2 by lia.
    pose proof (toInt32_mod (w / 2 ^ 32)) as Hh.
    pose proof (Z.div_mod (JS.toInt32 (w / 2 ^ 32)) (2 ^ 32) ltac:(lia)) as H1.
    pose proof (Z.div_mod (w / 2 ^ 32) (2 ^ 32) ltac:(lia)) as H2.
    pose proof (Z.div_mod w (2 ^ 32) ltac:(lia)) as H3.
    rewrite Hh in H1.
    set (q1 := JS.toInt32 (w / 2 ^ 32) / 2 ^ 32) in *.
    set (q2 := (w / 2 ^ 32) / 2 ^ 32) in *.
    replace (JS.toInt32 (w / 2 ^ 32) * 2 ^ 32 + w mod 2 ^ 32)
      with (w + (q1 - q2) * 2 ^ 64) by lia.
    apply Z.mod_add. lia.
  Qed.

Lemma lor_shiftl_sum (hi lo : Z) :
    0 <= lo < 2 ^ 32 -> Z.lor (Z.shiftl hi 32) lo = hi * 2 ^ 32 + lo.
  Proof.
    intros Hlo. rewrite <- Z.lxor_lor, <- Z.add_nocarry_lxor.
    - now rewrite Z.shiftl_mul_pow2 by lia.
    - apply Z.bits_inj'. intros n Hn.
      rewrite Z.land_spec, Z.bits_0.
      destruct (Z.lt_ge_cases n 32).
      + rewrite Z.shiftl_spec_low by lia. reflexivity.
      + rewrite <- (Z.mod_small lo (2 ^ 32)) by lia.
        rewrite Z.mod_pow2_bits_high by lia. apply andb_false_r.
    - apply Z.bits_inj'. intros n Hn.
      rewrite Z.land_spec, Z.bits_0.
      destruct (Z.lt_ge_cases n 32).
      + rewrite Z.shiftl_spec_low by lia. reflexivity.
      + rewrite <- (Z.mod_small lo (2 ^ 32)) by lia.
        rewrite Z.mod_pow2_bits_high by lia. apply andb_false_r.
  Qed.

Lemma bitsPerBlock_bounds (P : Z) :
    1 <= P < 2 ^ 32 ->
    4 <= bitsPerBlock P <= 32 /\ P <= 2 ^ bitsPerBlock P.
  Proof.
    intros HP. unfold bitsPerBlock.
    assert (Hup : Z.log2_up P <= 32).
    { apply Z.log2_up_le_pow2; lia. }
    assert (Hnn : 0 <= Z.log2_up P) by apply Z.log2_up_nonneg.
    assert (Hle : P <= 2 ^ Z.log2_up P).
    { destruct (Z.eq_dec P 1) as [-> | Hne]; [simpl; lia|].
      apply Z.log2_up_spec. lia. }
    split; [lia|].
    etransitivity; [exact Hle|].
    apply Z.pow_le_mono_r; lia.
  Qed.

Lemma blocksPerLong_bounds (bits : Z) :
    4 <= bits <= 32 ->
    2 <= blocksPerLong bits /\ blocksPerLong bits * bits <= 64.
  Proof.
    intros Hb. unfold blocksPerLong. split.
    - apply Z.div_le_lower_bound; lia.
    - rewrite Z.mul_comm. apply Z.mul_div_le. lia.
  Qed.

Lemma mask_118_ones (bits : Z) : mask_118 bits = Z.ones bits.
  Proof. unfold mask_118, Z.ones. lia. Qed.

Lemma mask_113_ones (bits : Z) : 4 <= bits <= 30 -> mask_113 bits = Z.ones bits.
  Proof.
    intros Hb. unfold mask_113, JS.shl, JS.toUint32.
    rewrite (toInt32_small 1) by lia.
    rewrite (Z.mod_small bits (2 ^ 32)) by lia.
    rewrite (Z.mod_small bits 32) by lia.
    rewrite Z.shiftl_1_l.
    assert (2 ^ bits <= 2 ^ 30) by (apply Z.pow_le_mono_r; lia).
    assert (0 < 2 ^ bits) by (apply Z.pow_pos_nonneg; lia).
    rewrite toInt32_small by lia.
    rewrite Z.ones_equiv. lia.
  Qed.

  (** A decoder word that agrees with the pattern [w] on its low 64 bits
      yields the packed index under the full-width mask. *)
Lemma extract_from_word (bits perLong i v w x : Z) :
    4 <= bits <= 32 -> perLong = blocksPerLong bits ->
    0 <= i -> 0 <= v < 2 ^ bits ->
    x mod 2 ^ 64 = w mod 2 ^ 64 ->
    (forall j, 0 <= j < bits ->
       Z.testbit w ((i mod perLong) * bits + j) = Z.testbit v j) ->
    Z.land (Z.shiftr x ((i mod perLong) * bits)) (Z.ones bits) = v.
  Proof.
    intros Hb -> Hi Hv Hx Hw.
    pose proof (blocksPerLong_bounds bits Hb) as [Hp1 Hp2].
    pose proof (Z.mod_pos_bound i (blocksPerLong bits) ltac:(lia)) as Hm.
    apply extract_bits; [nia | lia | exact Hv |].
    intros j Hj. rewrite <- Hw by exact Hj.
    apply low_bits_congr; [exact Hx | nia].
  Qed.

Lemma word_at_map (rep : Z -> longVal) (words : list Z) (k : Z) (w : Z) :
    0 <= k -> words !! Z.to_nat k = Some w ->
    (k >=? Z.of_nat (length (map rep words))) = false /\
    word_at (map rep words) k = Some (rep w).
  Proof.
    intros Hk Hw. split.
    - apply lookup_lt_Some in Hw. rewrite length_map.
      destruct (Z.geb_spec k (Z.of_nat (length words))); [lia | reflexivity].
    - unfold word_at. destruct (Z.ltb_spec k 0); [lia|].
      change (map rep words) with (rep <$> words).
      now rewrite list_lookup_fmap, Hw.
  Qed.

  (** Both branches recover the packed indices as long as the number
      mask of the 1.13 branch fits 32-bit arithmetic; the BigInt mask of
      the 1.18 branch does so for every palette an array can hold. *)
Lemma paletteIndex_118_recovers (P : Z) (indices words : list Z)
      (rep : Z -> longVal) :
    1 <= P < 2 ^ 32 -> in_palette P indices ->
    packed (bitsPerBlock P) (blocksPerLong (bitsPerBlock P)) indices words ->
    delivered rep ->
    forall i, 0 <= i < SECTION_SIZE ->
      exists v, indices !! Z.to_nat i = Some v /\
                paletteIndex_118 P (map rep words) i = Some v.
  Proof.
    intros HP Hin Hpk Hrep i Hi.
    destruct (Hpk i Hi) as (v & w & Hv & Hw & Hbits).
    exists v. split; [exact Hv|].
    pose proof (bitsPerBlock_bounds P HP) as [Hb HPle].
    pose proof (blocksPerLong_bounds _ Hb) as [Hp1 Hp2].
    assert (Hvr : 0 <= v < P).
    { unfold in_palette in Hin. rewrite Forall_forall in Hin.
      apply Hin. eapply list_elem_of_lookup_2, Hv. }
    assert (Hk : 0 <= i / blocksPerLong (bitsPerBlock P))
      by (apply Z.div_pos; lia).
    destruct (word_at_map rep words _ w Hk Hw) as [Hlen Hat].
    unfold paletteIndex_118. cbv zeta. rewrite Hlen, Hat, mask_118_ones.
    assert (Hpow : 2 ^ bitsPerBlock P <= 2 ^ 32)
      by (apply Z.pow_le_mono_r; lia).
    destruct Hrep as [-> | ->]; cbn [asBigInt asHighLow].
    - rewrite (extract_from_word _ _ i v w); try lia; try reflexivity.
      + apply Number_exact. lia.
      + apply asInt64_mod.
      + exact Hbits.
    - rewrite lor_shiftl_sum.
      2:{ rewrite shr_zero. apply Z.mod_pos_bound. lia. }
      rewrite (extract_from_word _ _ i v w); try lia; try reflexivity.
      + apply Number_exact. lia.
      + apply highlow_sum_mod.
      + exact Hbits.
  Qed.

Lemma paletteIndex_113_recovers (P : Z) (indices words : list Z)
      (rep : Z -> longVal) :
    1 <= P <= 2 ^ 30 -> in_palette P indices ->
    packed (bitsPerBlock P) (blocksPerLong (bitsPerBlock P)) indices words ->
    delivered rep ->
    forall i, 0 <= i < SECTION_SIZE ->
      exists v, indices !! Z.to_nat i = Some v /\
                paletteIndex_113 P (map rep words) i = Some v.
  Proof.
    intros HP Hin Hpk Hrep i Hi.
    destruct (Hpk i Hi) as (v & w & Hv & Hw & Hbits).
    exists v. split; [exact Hv|].
    pose proof (bitsPerBlock_bounds P ltac:(lia)) as [Hb HPle].
    assert (Hb30 : bitsPerBlock P <= 30).
    { unfold bitsPerBlock. apply Z.max_lub; [lia|].
      apply Z.log2_up_le_pow2; lia. }
    pose proof (blocksPerLong_bounds _ Hb) as [Hp1 Hp2].
    assert (Hvr : 0 <= v < P).
    { unfold in_palette in Hin. rewrite Forall_forall in Hin.
      apply Hin. eapply list_elem_of_lookup_2, Hv. }
    assert (Hk : 0 <= i / blocksPerLong (bitsPerBlock P))
      by (apply Z.div_pos; lia).
    destruct (word_at_map rep words _ w Hk Hw) as [Hlen Hat].
    unfold paletteIndex_113. cbv zeta.
    rewrite Hlen, Hat, mask_113_ones by lia.
    destruct Hrep as [-> | ->]; cbn [asBigInt asHighLow].
    - rewrite (extract_from_word _ _ i v w); try lia; try reflexivity.
      + apply Number_exact. lia.
      + apply asInt64_mod.
      + exact Hbits.
    - rewrite (extract_from_word _ _ i v w); try lia; try reflexivity.
      + apply Number_exact. lia.
      + apply highlow_sum_mod.
      + exact Hbits.
  Qed.

Lemma packedb_sound (bits perLong : Z) (indices words : list Z) :
    packedb bits perLong indices words = true ->
    packed bits perLong indices words.
  Proof.
    unfold packedb, packed. intros H i Hi.
    rewrite forallb_forall in H.
    specialize (H (Z.to_nat i)).
    rewrite Z2Nat.id in H by lia.
    assert (Hin : In (Z.to_nat i) (seq 0 (Z.to_nat SECTION_SIZE))).
    { apply in_seq. unfold SECTION_SIZE in *. lia. }
    specialize (H Hin).
    destruct (indices !! Z.to_nat i) as [v|]; [|discriminate].
    destruct (words !! Z.to_nat (i / perLong)) as [w|]; [|discriminate].
    exists v, w. split; [reflexivity|]. split; [reflexivity|].
    intros j Hj. rewrite forallb_forall in H.
    specialize (H (Z.to_nat j)). rewrite Z2Nat.id in H by lia.
    apply Bool.eqb_prop. apply H. apply in_seq. lia.
  Qed.

Lemma in_paletteb_sound (P : Z) (indices : list Z) :
    in_paletteb P indices = true -> in_palette P indices.
  Proof.
    unfold in_paletteb, in_palette. rewrite forallb_forall, Forall_forall.
    intros H v Hv. apply list_elem_of_In in Hv. specialize (H v Hv).
    apply andb_true_iff in H as [H1 H2]. lia.
  Qed.


End PackedFacts.

(** ** The tag tree: structural facts *)

Section TreeInduction.
Import Tree.

Lemma NbtValue_nested_ind (P : NbtValue -> Prop) :
    (forall n, P (VNumber n)) -> (forall n, P (VBigInt n)) ->
    (forall s, P (VString s)) -> (forall a, P (VInt8Array a)) ->
    (forall a, P (VInt32Array a)) -> (forall a, P (VBigInt64Array a)) ->
    (forall t vs, Forall P vs -> P (VList t vs)) ->
    (forall es, Forall (fun e => of_tag (fun _ v => P v) (snd e)) es ->
                P (VCompound es)) ->
    P VEmpty ->
    forall v, P v.
  Proof.
    intros H1 H2 H3 H4 H5 H6 HL HC HE.
    fix IH 1. intros [n|n|s|a|a|a|t vs|es|];
      [apply H1 | apply H2 | apply H3 | apply H4 | apply H5 | apply H6 | |
      | apply HE].
    - apply HL. induction vs as [|v vs IHvs]; constructor; [apply IH | exact IHvs].
    - apply HC. induction es as [|[k [t v| |]] es IHes]; constructor;
        try exact IHes; try exact I.
      apply IH.
  Qed.

Lemma NbtTreeNode_nested_ind (P : NbtTreeNode -> Prop) :
    (forall i s t v p, P (Node i s t v p None)) ->
    (forall i s t v p cs, Forall P cs -> P (Node i s t v p (Some cs))) ->
    forall n, P n.
  Proof.
    intros HN HS. fix IH 1. intros [i s t v p [cs|]]; [|apply HN].
    apply HS. induction cs as [|c cs IHcs]; constructor;
      [apply IH | exact IHcs].
  Qed.

Lemma shaped_list_Forall (t : TagType) (vs : list NbtValue) :
    (fix all (l : list NbtValue) : Prop :=
       match l with
       | [] => True
       | x :: l' => shaped t x /\ all l'
       end) vs <-> Forall (shaped t) vs.
  Proof.
    induction vs as [|v vs IH]; [split; auto|].
    rewrite Forall_cons, <- IH. reflexivity.
  Qed.

Lemma shaped_entries_Forall (es : list (string * member NbtValue)) :
    (fix all (l : list (string * member NbtValue)) : Prop :=
       match l with
       | [] => True
       | e :: l' =>
           match snd e with
           | MTag t' x => shaped t' x
           | _ => False
           end /\ all l'
       end) es
    <-> Forall (fun e => match snd e with
                         | MTag t' x => shaped t' x
                         | _ => False
                         end) es.
  Proof.
    induction es as [|e es IH]; [split; auto|].
    rewrite Forall_cons, <- IH. reflexivity.
  Qed.

Lemma shaped_children_Forall (cs : list NbtTreeNode) :
    (fix all (l : list NbtTreeNode) : Prop :=
       match l with
       | [] => True
       | x :: l' => shaped_tree x /\ all l'
       end) cs <-> Forall shaped_tree cs.
  Proof.
    induction cs as [|c cs IH]; [split; auto|].
    rewrite Forall_cons, <- IH. reflexivity.
  Qed.



Lemma shaped_tree_unfold i s t v p c :
    shaped_tree (Node i s t v p c) <->
    shaped t v /\
    match c with None => True | Some cs => Forall shaped_tree cs end.
  Proof.
    destruct c as [cs|]; [|reflexivity].
    cbn [shaped_tree]. rewrite shaped_children_Forall. reflexivity.
  Qed.

  (** *** Objects *)

Lemma Obj_set_fresh {A : Type} (o : list (string * A)) (k : string) (v : A) :
    k ∉ map fst o -> Obj.set o k v = o ++ [(k, v)].
  Proof.
    induction o as [|[k' v'] o IH]; intros Hk; [reflexivity|].
    cbn [Obj.set]. cbn [map fst] in Hk.
    apply not_elem_of_cons in Hk as [Hne Hk].
    destruct (String.eqb_spec k' k) as [->|_]; [contradiction|].
    cbn [app]. now rewrite IH.
  Qed.

  (** *** Cloning a well-shaped value or tree returns an equal one *)

Lemma clone_entries_shaped (es acc : list (string * member NbtValue)) :
    Forall (fun e => match snd e with
                     | MTag t v => cloneValue t v = Some v
                     | _ => False
                     end) es ->
    NoDup (map fst (acc ++ es)) ->
    fold_left
      (fun cloned e =>
         c ← cloned;
         match snd e with
         | MTag t v =>
             v' ← cloneValue t v; Some (Obj.set c (fst e) (MTag t v'))
         | MUndefined => None
         | MUntyped => Some (Obj.set c (fst e) MUntyped)
         end)
      es (Some acc) = Some (acc ++ es).
  Proof.
    revert acc. induction es as [|[k m] es IH]; intros acc Hes Hnd.
    - now rewrite app_nil_r.
    - apply Forall_cons in Hes as [He Hes]. cbn [fst snd] in He.
      destruct m as [t v| |]; try contradiction.
      cbn [fold_left fst snd mbind option_bind]. rewrite He.
      cbn [mbind option_bind].
      rewrite Obj_set_fresh.
      + rewrite IH; [now rewrite <- app_assoc | exact Hes |].
        now rewrite <- app_assoc.
      + rewrite map_app in Hnd. apply NoDup_app in Hnd as (_ & Hd & _).
        intros Hin. apply (Hd k Hin). cbn. left.
  Qed.

Lemma cloneValue_shaped (v : NbtValue) :
    forall t, shaped t v -> cloneValue t v = Some v.
  Proof.
    induction v as [n|n|s|a|a|a|t' vs IH|es IH|] using NbtValue_nested_ind;
      intros t Hs; destruct t; cbn in Hs; try contradiction;
      try reflexivity.
    - cbn [cloneValue]. apply shaped_list_Forall in Hs.
      assert (Hm : mapM (fun v => match v with
                                  | VEmpty => Some VEmpty
                                  | _ => cloneValue t' v
                                  end) vs = Some vs).
      { apply mapM_Some. induction vs as [|v vs IHvs]; [constructor|].
        apply Forall_cons in IH as [Hv IH]. apply Forall_cons in Hs as [Hsv Hs].
        constructor; [|apply IHvs; assumption].
        specialize (Hv t' Hsv). now destruct v. }
      now rewrite Hm.
    - cbn [cloneValue]. destruct Hs as [Hnd Hs].
      apply shaped_entries_Forall in Hs.
      rewrite (clone_entries_shaped es []); [reflexivity| |exact Hnd].
      rewrite Forall_forall in *. intros e He.
      specialize (IH e He). specialize (Hs e He).
      destruct (snd e) as [t v| |]; try contradiction.
      apply IH, Hs.
  Qed.

Lemma cloneTree_shaped (n : NbtTreeNode) :
    shaped_tree n -> cloneTree n = Some n.
  Proof.
    induction n as [i s t v p|i s t v p cs IH] using NbtTreeNode_nested_ind;
      intros Hs; apply shaped_tree_unfold in Hs as [Hv Hc];
      cbn [cloneTree]; rewrite (cloneValue_shaped v t Hv);
      cbn [mbind option_bind]; [reflexivity|].
    assert (Hm : mapM cloneTree cs = Some cs).
    { apply mapM_Some. induction cs as [|c cs IHcs]; [constructor|].
      apply Forall_cons in IH as [Hc1 IH]. apply Forall_cons in Hc as [Hs1 Hc].
      constructor; [apply Hc1, Hs1 | apply IHcs; assumption]. }
    now rewrite Hm.
  Qed.

  (** *** findNodeByPath *)

Lemma findNodeByPath_walk (root : NbtTreeNode) (path : list string) :
    findNodeByPath root path = walk root (tail path).
  Proof.
    destruct path as [|p0 rest]; [reflexivity|].
    cbn [findNodeByPath tail].
    destruct (bool_decide (rest = [])) eqn:Hr; [|reflexivity].
    apply bool_decide_eq_true in Hr. subst rest.
    now destruct (String.eqb p0 (name root)).
  Qed.

Lemma walk_app (n : NbtTreeNode) (pre post : list string) :
    walk n (pre ++ post) = walk n pre ≫= fun m => walk m post.
  Proof.
    revert n. induction pre as [|s pre IH]; intros n; [reflexivity|].
    cbn [app walk]. destruct (children n) as [cs|]; [|reflexivity].
    destruct (find_child cs s) as [c|]; [apply IH | reflexivity].
  Qed.

Lemma find_child_none (cs : list NbtTreeNode) (s : string) :
    Forall (fun c => name c <> s) cs -> find_child cs s = None.
  Proof.
    induction 1 as [|c cs Hc Hcs IH]; [reflexivity|].
    cbn [find_child]. destruct (String.eqb_spec (name c) s); [contradiction|].
    exact IH.
  Qed.

End TreeInduction.

Section TreeClaims.
Import Tree.

  (** C4, as stated, fails: a singleton path whose element is not the
      root's name still resolves to the root. *)
Lemma C4_counterexample :
    ~ (forall (root : NbtTreeNode) (p : string),
         p <> name root -> findNodeByPath root [p] = None).
  Proof.
    intros H. specialize (H sample_tree "other" ltac:(discriminate)).
    discriminate H.
  Qed.

  (** C4, amended: findNodeByPath resolves the empty path and every
      singleton path to the root; in a longer path the first element is
      never compared, and the result is null as soon as a later segment
      matches no child of the node reached so far. *)
Theorem C4_findNodeByPath_resolution (root : NbtTreeNode) :
    findNodeByPath root [] = Some root /\
    (forall p, findNodeByPath root [p] = Some root) /\
    (forall p0 p0' rest,
       findNodeByPath root (p0 :: rest) = findNodeByPath root (p0' :: rest)) /\
    (forall p0 pre s post n,
       findNodeByPath root (p0 :: pre) = Some n ->
       match children n with
       | None => True
       | Some cs => Forall (fun c => name c <> s) cs
       end ->
       findNodeByPath root (p0 :: pre ++ s :: post) = None).
  Proof.
    split; [reflexivity|]. split; [|split].
    - intros p. now rewrite findNodeByPath_walk.
    - intros p0 p0' rest. now rewrite !findNodeByPath_walk.
    - intros p0 pre s post n Hn Hs.
      rewrite findNodeByPath_walk in *. cbn [tail] in *.
      rewrite walk_app, Hn. cbn [mbind option_bind walk].
      destruct (children n) as [cs|]; [|reflexivity].
      now rewrite (find_child_none cs s Hs).
  Qed.

Lemma C4_witness :
    findNodeByPath sample_tree ["Data"; "a"; "nope"; "x"] = None.
  Proof.
    refine (proj2 (proj2 (proj2 (C4_findNodeByPath_resolution sample_tree)))
              "Data" ["a"] "nope" ["x"]
              (Node "node-2" "a" TCompound (VCompound [("x", MTag TInt (VNumber 5))])
                 ["Data"; "a"]
                 (Some [Node "node-3" "x" TInt (VNumber 5)
                          ["Data"; "a"; "x"] None]))
              _ _).
    - reflexivity.
    - cbn [children]. repeat constructor. discriminate.
  Defined.



Lemma sample_tree_shaped : shaped_tree sample_tree.
  Proof.
    cbn. repeat split;
      match goal with
      | |- NoDup ?l => apply (bool_decide_unpack (NoDup l)); vm_compute; exact I
      end.
  Qed.


  (** C2, at the failing input: adding "b" to a compound that already
      has a "b" overwrites the entry of the value but appends a second
      child; the first child named "b" keeps the old type and value.
      Renaming below the first level leaves the value of the
      grandparent as it was. *)
Theorem C2_addTag_existing_name :
    (exists t counter,
       addTag alphabeticCompare sample_tree ["Data"] "b" TInt (VNumber 7) 8
       = Some (t, counter) /\
       map name (default [] (children t)) = ["a"; "b"; "b"; "l"] /\
       (exists es, value t = VCompound es /\
                   Obj.keys es = ["b"; "a"; "l"] /\
                   Obj.get es "b" = Some (MTag TInt (VNumber 7))) /\
       (exists c, findNodeByPath t ["Data"; "b"] = Some c /\
                  type c = TByte /\ value c = VNumber 1)) /\
    (exists t,
       renameTag alphabeticCompare sample_tree ["Data"; "a"; "x"] "y" = Some t /\
       (exists c, findNodeByPath t ["Data"; "a"] = Some c /\
                  map name (default [] (children c)) = ["y"] /\
                  value c = VCompound [("y", MTag TInt (VNumber 5))]) /\
       (exists es, value t = VCompound es /\
                   Obj.get es "a"
                   = Some (MTag TCompound (VCompound [("x", MTag TInt (VNumber 5))])))).
  Proof.
    split.
    - eexists _, _. split; [vm_compute; reflexivity|].
      split; [reflexivity|]. split.
      + eexists. split; [reflexivity|]. split; reflexivity.
      + eexists. split; [reflexivity|]. split; reflexivity.
    - eexists. split; [vm_compute; reflexivity|]. split.
      + eexists. split; [reflexivity|]. split; reflexivity.
      + eexists. split; reflexivity.
  Qed.

End TreeClaims.

(** ** Compound children stay in collation order *)

Section Sorting.
Import Tree.
Variable cmp : string -> string -> Z.
Hypothesis cmp_consistent : consistent cmp.

Context {A : Type} (key : A -> string).

Lemma insert_sorted_perm (x : A) (l : list A) :
    insert_sorted cmp key x l ≡ₚ x :: l.
  Proof.
    induction l as [|y l IH]; [reflexivity|].
    cbn [insert_sorted]. destruct (cmp (key x) (key y) <? 0); [reflexivity|].
    rewrite IH. apply Permutation_swap.
  Qed.

Lemma sort_from_perm (l acc : list A) :
    fold_left (fun acc x => insert_sorted cmp key x acc) l acc ≡ₚ acc ++ l.
  Proof.
    revert acc. induction l as [|x l IH]; intros acc.
    - now rewrite app_nil_r.
    - cbn [fold_left]. rewrite IH, insert_sorted_perm.
      rewrite (Permutation_middle acc l x). reflexivity.
  Qed.

Lemma sort_perm (l : list A) : sort cmp key l ≡ₚ l.
  Proof. unfold sort. now rewrite sort_from_perm. Qed.




End Sorting.

Section SortedInvariant.
Import Tree.
Variable cmp : string -> string -> Z.
Hypothesis cmp_consistent : consistent cmp.




Lemma children_set_value v n : children (set_value v n) = children n.
  Proof. now destruct n. Qed.























End SortedInvariant.

Section Comparators.
Import Tree.

Lemma lex_compare_total (a : list Z) :
    forall b, 0 <= lex_compare a b -> lex_compare b a <= 0.
  Proof.
    induction a as [|x a IH]; intros [|y b]; cbn [lex_compare]; try lia.
    destruct (Z.ltb_spec x y), (Z.ltb_spec y x); try lia. apply IH.
  Qed.

Lemma lex_compare_trans (a : list Z) :
    forall b c, lex_compare a b <= 0 -> lex_compare b c <= 0 ->
                lex_compare a c <= 0.
  Proof.
    induction a as [|x a IH]; intros [|y b] [|z c]; cbn [lex_compare];
      try lia.
    destruct (Z.ltb_spec x y), (Z.ltb_spec y x), (Z.ltb_spec y z),
      (Z.ltb_spec z y), (Z.ltb_spec x z), (Z.ltb_spec z x); try lia.
    apply IH.
  Qed.

Lemma lex_consistent (weights : string -> list Z) :
    consistent (fun a b => lex_compare (weights a) (weights b)).
  Proof.
    split.
    - intros a b. apply lex_compare_total.
    - intros a b c. apply lex_compare_trans.
  Qed.


Lemma codeUnitCompare_consistent : consistent codeUnitCompare.
  Proof. exact (lex_consistent code_units). Qed.

End Comparators.

Section SortedClaim.
Import Tree.




End SortedClaim.

(** ** Region headers *)

Section RegionHeaders.

Lemma upto_snoc (n : nat) : upto (S n) = upto n ++ [Z.of_nat n].
  Proof. unfold upto. rewrite seq_S, map_app. reflexivity. Qed.

Lemma elem_of_upto (n : nat) (i : Z) : i ∈ upto n <-> 0 <= i < Z.of_nat n.
  Proof.
    unfold upto. rewrite list_elem_of_In, in_map_iff. split.
    - intros (k & <- & Hk). apply in_seq in Hk. lia.
    - intros Hi. exists (Z.to_nat i). split; [lia|]. apply in_seq. lia.
  Qed.

  (** *** The editor's parser: slot i of the array *)

Lemma Region_header_fold (buffer : list Z) (n : nat) :
    (n <= 1024)%nat ->
    let r := fold_left (Region.header_step buffer) (upto n)
                       (replicate 1024 None, 0) in
    length (fst r) = 1024%nat /\
    forall k, (k < 1024)%nat ->
      fst r !! k = Some (if decide (k < n)%nat
                         then Region.header_entry buffer (Z.of_nat k)
                         else None).
  Proof.
    induction n as [|n IH]; intros Hn.
    - change (upto 0) with (@nil Z). cbn [fold_left fst].
      split; [apply length_replicate|].
      intros k Hk. rewrite lookup_replicate_2 by lia.
      destruct (decide (k < 0)%nat); [lia | reflexivity].
    - rewrite upto_snoc, fold_left_app. cbn [fold_left].
      destruct (IH ltac:(lia)) as [Hlen Hk]. cbv zeta.
      set (acc := fold_left (Region.header_step buffer) (upto n)
                            (replicate 1024 None, 0)) in *.
      unfold Region.header_step.
      destruct (Region.header_entry buffer (Z.of_nat n)) as [info|] eqn:He.
      + cbn [fst]. rewrite length_insert. split; [exact Hlen|].
        intros k Hk'. rewrite Nat2Z.id.
        destruct (decide (k = n)) as [->|Hne].
        * rewrite list_lookup_insert_eq by lia.
          destruct (decide (n < S n)%nat); [now rewrite He | lia].
        * rewrite list_lookup_insert_ne by lia. rewrite Hk by lia.
          destruct (decide (k < n)%nat), (decide (k < S n)%nat);
            try lia; reflexivity.
      + split; [exact Hlen|]. intros k Hk'. rewrite Hk by lia.
        destruct (decide (k = n)) as [->|Hne].
        * destruct (decide (n < n)%nat); [lia|].
          destruct (decide (n < S n)%nat); [now rewrite He | lia].
        * destruct (decide (k < n)%nat), (decide (k < S n)%nat);
            try lia; reflexivity.
  Qed.

Lemma Region_chunks_lookup (buffer : list Z) (i : Z) :
    0 <= i < 1024 ->
    Region.chunks (Region.parseRegionHeader buffer) !! Z.to_nat i
    = Some (Region.header_entry buffer i).
  Proof.
    intros Hi. unfold Region.parseRegionHeader. cbn [Region.chunks].
    destruct (Region_header_fold buffer 1024 ltac:(lia)) as [_ Hk].
    rewrite (Hk (Z.to_nat i)) by lia.
    destruct (decide (Z.to_nat i < 1024)%nat); [|lia].
    now rewrite Z2Nat.id by lia.
  Qed.

  (** *** The viewer's parser: the map entry of slot i *)

Lemma slot_keys_distinct : NoDup (map Mca.slot_key (upto 1024)).
  Proof.
    apply (bool_decide_unpack (NoDup (map Mca.slot_key (upto 1024)))).
    vm_compute. exact I.
  Qed.

Lemma slot_key_inj (i j : Z) :
    0 <= i < 1024 -> 0 <= j < 1024 -> Mca.slot_key i = Mca.slot_key j -> i = j.
  Proof.
    intros Hi Hj Heq.
    pose proof slot_keys_distinct as Hnd.
    assert (Hli : map Mca.slot_key (upto 1024) !! Z.to_nat i = Some (Mca.slot_key i)).
    { change (map Mca.slot_key (upto 1024)) with (Mca.slot_key <$> upto 1024).
      rewrite list_lookup_fmap. unfold upto.
      change (map Z.of_nat (seq 0 1024)) with (Z.of_nat <$> seq 0 1024).
      rewrite list_lookup_fmap, lookup_seq_lt by lia.
      cbn. now rewrite Z2Nat.id by lia. }
    assert (Hlj : map Mca.slot_key (upto 1024) !! Z.to_nat j = Some (Mca.slot_key j)).
    { change (map Mca.slot_key (upto 1024)) with (Mca.slot_key <$> upto 1024).
      rewrite list_lookup_fmap. unfold upto.
      change (map Z.of_nat (seq 0 1024)) with (Z.of_nat <$> seq 0 1024).
      rewrite list_lookup_fmap, lookup_seq_lt by lia.
      cbn. now rewrite Z2Nat.id by lia. }
    rewrite Heq in Hli.
    pose proof (NoDup_lookup _ _ _ _ Hnd Hli Hlj). lia.
  Qed.

Lemma map_get_set (m : Mca.chunkMap) (k k' : string) (v : Mca.ChunkLocation) :
    Mca.map_get (Mca.map_set m k v) k'
    = if String.eqb k k' then Some v else Mca.map_get m k'.
  Proof.
    induction m as [|[k0 v0] m IH]; cbn [Mca.map_set Mca.map_get].
    - reflexivity.
    - destruct (String.eqb_spec k0 k) as [->|Hne]; cbn [Mca.map_get].
      + destruct (String.eqb_spec k k'); reflexivity.
      + rewrite IH. destruct (String.eqb_spec k0 k') as [->|Hne'];
          [|reflexivity].
        destruct (String.eqb_spec k k'); [congruence | reflexivity].
  Qed.

Lemma Mca_entry_key (buffer : list Z) (i : Z) (loc : Mca.ChunkLocation) :
    Mca.header_entry buffer i = Some loc ->
    Mca.x loc = i mod 32 /\ Mca.z loc = i / 32.
  Proof.
    unfold Mca.header_entry. cbv zeta.
    destruct (_ && _); [discriminate|]. intros H. injection H as <-. auto.
  Qed.

Lemma Mca_header_fold (buffer : list Z) (n : nat) :
    (n <= 1024)%nat ->
    let r := fold_left (Mca.header_step buffer) (upto n) ([], []) in
    forall k, (k < 1024)%nat ->
      Mca.map_get (fst r) (Mca.slot_key (Z.of_nat k))
      = if decide (k < n)%nat then Mca.header_entry buffer (Z.of_nat k)
        else None.
  Proof.
    induction n as [|n IH]; intros Hn.
    - change (upto 0) with (@nil Z). cbn [fold_left fst Mca.map_get].
      intros k Hk. destruct (decide (k < 0)%nat); [lia | reflexivity].
    - rewrite upto_snoc, fold_left_app. cbn [fold_left]. cbv zeta.
      specialize (IH ltac:(lia)). cbv zeta in IH.
      set (acc := fold_left (Mca.header_step buffer) (upto n) ([], [])) in *.
      unfold Mca.header_step. intros k Hk.
      destruct (Mca.header_entry buffer (Z.of_nat n)) as [loc|] eqn:He.
      + cbn [fst]. destruct (Mca_entry_key _ _ _ He) as [-> ->].
        rewrite map_get_set. fold (Mca.slot_key (Z.of_nat n)).
        destruct (String.eqb_spec (Mca.slot_key (Z.of_nat n)) (Mca.slot_key (Z.of_nat k)))
          as [Heq|Hne].
        * apply slot_key_inj in Heq; [|lia|lia].
          assert (k = n) as -> by lia.
          destruct (decide (n < S n)%nat); [now rewrite He | lia].
        * rewrite IH by lia.
          destruct (decide (k = n)) as [->|Hkn]; [contradiction|].
          destruct (decide (k < n)%nat), (decide (k < S n)%nat);
            try lia; reflexivity.
      + rewrite IH by lia.
        destruct (decide (k = n)) as [->|Hkn].
        * destruct (decide (n < n)%nat); [lia|].
          destruct (decide (n < S n)%nat); [now rewrite He | lia].
        * destruct (decide (k < n)%nat), (decide (k < S n)%nat);
            try lia; reflexivity.
  Qed.

Lemma Mca_chunks_lookup (buffer : list Z) (i : Z) :
    0 <= i < 1024 ->
    Mca.map_get (Mca.chunks (Mca.parseRegionHeader buffer))
                (Mca.key (i mod 32) (i / 32))
    = Mca.header_entry buffer i.
  Proof.
    intros Hi. unfold Mca.parseRegionHeader. cbn [Mca.chunks].
    pose proof (Mca_header_fold buffer 1024 ltac:(lia) (Z.to_nat i) ltac:(lia))
      as H.
    cbv zeta in H. rewrite Z2Nat.id in H by lia. unfold Mca.slot_key in H.
    rewrite H. destruct (decide (Z.to_nat i < 1024)%nat); [reflexivity | lia].
  Qed.

  (** *** Big-endian reads on bytes *)

Lemma lor_mul_pow2_add (hi lo k : Z) :
    0 <= k -> 0 <= lo < 2 ^ k -> Z.lor (hi * 2 ^ k) lo = hi * 2 ^ k + lo.
  Proof.
    intros Hk Hlo. rewrite <- Z.lxor_lor, <- Z.add_nocarry_lxor;
      try reflexivity;
      apply Z.bits_inj'; intros n Hn;
      rewrite Z.land_spec, Z.bits_0;
      (destruct (Z.lt_ge_cases n k);
       [rewrite Z.mul_pow2_bits_low by lia; reflexivity
       |rewrite <- (Z.mod_small lo (2 ^ k)) by lia;
        rewrite Z.mod_pow2_bits_high by lia; apply andb_false_r]).
  Qed.

Lemma shl_small (a k : Z) :
    0 <= k < 32 -> 0 <= a -> a * 2 ^ k < 2 ^ 31 -> JS.shl a k = a * 2 ^ k.
  Proof.
    intros Hk Ha Hb. unfold JS.shl, JS.toUint32.
    assert (1 <= 2 ^ k) by (apply (Z.pow_le_mono_r 2 0 k); lia).
    rewrite (toInt32_small a) by nia.
    rewrite (Z.mod_small k (2 ^ 32)) by lia.
    rewrite (Z.mod_small k 32) by lia.
    rewrite Z.shiftl_mul_pow2 by lia. apply toInt32_small. nia.
  Qed.

Lemma bor_small (a b : Z) :
    - 2 ^ 31 <= a < 2 ^ 31 -> - 2 ^ 31 <= b < 2 ^ 31 ->
    JS.bor a b = JS.toInt32 (Z.lor a b).
  Proof.
    intros Ha Hb. unfold JS.bor.
    now rewrite (toInt32_small a), (toInt32_small b) by lia.
  Qed.

Lemma js_be24 (a b c : Z) :
    0 <= a < 256 -> 0 <= b < 256 -> 0 <= c < 256 ->
    JS.bor (JS.bor (JS.shl a 16) (JS.shl b 8)) c
    = a * 65536 + b * 256 + c.
  Proof.
    intros Ha Hb Hc.
    rewrite (shl_small a 16), (shl_small b 8) by lia.
    rewrite (bor_small (a * 2 ^ 16) (b * 2 ^ 8)) by lia.
    rewrite (lor_mul_pow2_add a (b * 2 ^ 8) 16) by lia.
    rewrite (toInt32_small (a * 2 ^ 16 + b * 2 ^ 8)) by lia.
    rewrite bor_small by lia.
    replace (a * 2 ^ 16 + b * 2 ^ 8) with ((a * 256 + b) * 2 ^ 8) by lia.
    rewrite lor_mul_pow2_add by lia.
    rewrite toInt32_small by lia. lia.
  Qed.

Lemma u8_at_byte (buffer : list Z) (i : Z) :
    is_bytes buffer -> 0 <= JS.num (JS.u8_at buffer i) < 256.
  Proof.
    intros Hb. unfold JS.u8_at, JS.num.
    destruct (i <? 0); [cbn; lia|].
    destruct (buffer !! Z.to_nat i) as [b|] eqn:Hl; [|cbn; lia].
    cbn. unfold is_bytes in Hb. rewrite Forall_forall in Hb.
    apply Hb. eapply list_elem_of_lookup_2, Hl.
  Qed.

Lemma u8_at_before (buffer : list Z) (i j : Z) (b : Z) :
    0 <= i <= j -> JS.u8_at buffer j = Some b ->
    JS.u8_at buffer i = Some (JS.num (JS.u8_at buffer i)).
  Proof.
    intros Hij Hj. unfold JS.u8_at in *.
    destruct (Z.ltb_spec j 0); [discriminate|].
    destruct (Z.ltb_spec i 0); [lia|].
    apply lookup_lt_Some in Hj.
    destruct (lookup_lt_is_Some_2 buffer (Z.to_nat i) ltac:(lia)) as [x Hx].
    now rewrite Hx.
  Qed.

  (** The loop takes [continue] exactly on four zero bytes. *)
Lemma location_zero_iff (buffer : list Z) (i : Z) :
    is_bytes buffer -> 0 <= i ->
    ((JS.bor (JS.bor (JS.shl (JS.num (JS.u8_at buffer (i * 4))) 16)
                     (JS.shl (JS.num (JS.u8_at buffer (i * 4 + 1))) 8))
             (JS.num (JS.u8_at buffer (i * 4 + 2))) =? 0)
     && bool_decide (JS.u8_at buffer (i * 4 + 3) = Some 0)) = true
    <-> slot_zero buffer i.
  Proof.
    intros Hb Hi.
    pose proof (u8_at_byte buffer (i * 4) Hb) as Ha.
    pose proof (u8_at_byte buffer (i * 4 + 1) Hb) as Hb1.
    pose proof (u8_at_byte buffer (i * 4 + 2) Hb) as Hc.
    rewrite js_be24 by assumption.
    rewrite andb_true_iff, Z.eqb_eq, bool_decide_eq_true.
    unfold slot_zero. split.
    - intros [Hz Hd].
      pose proof (u8_at_before buffer (i * 4) (i * 4 + 3) 0 ltac:(lia) Hd) as E0.
      pose proof (u8_at_before buffer (i * 4 + 1) (i * 4 + 3) 0 ltac:(lia) Hd)
        as E1.
      pose proof (u8_at_before buffer (i * 4 + 2) (i * 4 + 3) 0 ltac:(lia) Hd)
        as E2.
      rewrite E0, E1, E2.
      repeat split; try exact Hd; f_equal; lia.
    - intros (H0 & H1 & H2 & H3). rewrite H0, H1, H2. cbn. auto.
  Qed.

  (** C10: for every buffer of bytes and every slot i in [0, 1024), the
      header parser of the MCA module and the one of the NBT region
      module skip the slot together, exactly when its four location
      bytes are zero, and otherwise both record it with x = i mod 32,
      z = i / 32 and the same offset, sector count and timestamp. *)
Theorem C10_region_header_parsers_agree (buffer : list Z) (i : Z) :
    is_bytes buffer -> 0 <= i < 1024 ->
    let slot := Region.chunks (Region.parseRegionHeader buffer) !! Z.to_nat i in
    let entry := Mca.map_get (Mca.chunks (Mca.parseRegionHeader buffer))
                             (Mca.key (i mod 32) (i / 32)) in
    (slot_zero buffer i -> slot = Some None /\ entry = None) /\
    (~ slot_zero buffer i ->
     exists chunkInfo location,
       slot = Some (Some chunkInfo) /\ entry = Some location /\
       Region.x chunkInfo = i mod 32 /\ Region.z chunkInfo = i / 32 /\
       Mca.x location = i mod 32 /\ Mca.z location = i / 32 /\
       Region.offset chunkInfo = Mca.offset location /\
       Region.sectorCount chunkInfo = Mca.sectorCount location /\
       Region.timestamp chunkInfo = Mca.timestamp location).
  Proof.
    intros Hb Hi. cbv zeta.
    rewrite Region_chunks_lookup, Mca_chunks_lookup by exact Hi.
    pose proof (location_zero_iff buffer i Hb ltac:(lia)) as Hz.
    unfold Region.header_entry, Mca.header_entry. cbv zeta.
    destruct (_ && _) eqn:Hskip.
    - split; [auto|]. intros Hn. exfalso. apply Hn, Hz. reflexivity.
    - split.
      + intros Hs. apply Hz in Hs. discriminate.
      + intros _. eexists _, _.
        split. reflexivity. split. reflexivity.
        cbn [Region.x Region.z Region.offset Region.sectorCount
             Region.timestamp Mca.x Mca.z Mca.offset Mca.sectorCount
             Mca.timestamp].
        split. reflexivity. split. reflexivity. split. reflexivity.
        split. reflexivity. split. reflexivity. split. reflexivity.
        reflexivity.
  Qed.

Lemma C10_witness :
    exists chunkInfo location,
      Region.chunks (Region.parseRegionHeader [0; 0; 2; 1]) !! Z.to_nat 0
      = Some (Some chunkInfo) /\
      Mca.map_get (Mca.chunks (Mca.parseRegionHeader [0; 0; 2; 1]))
                  (Mca.key (0 mod 32) (0 / 32)) = Some location /\
      Region.x chunkInfo = 0 mod 32 /\ Region.z chunkInfo = 0 / 32 /\
      Mca.x location = 0 mod 32 /\ Mca.z location = 0 / 32 /\
      Region.offset chunkInfo = Mca.offset location /\
      Region.sectorCount chunkInfo = Mca.sectorCount location /\
      Region.timestamp chunkInfo = Mca.timestamp location.
  Proof.
    assert (Hb : is_bytes [0; 0; 2; 1]).
    { unfold is_bytes. repeat constructor; lia. }
    refine (proj2 (C10_region_header_parsers_agree [0; 0; 2; 1] 0 Hb
                     ltac:(lia)) _).
    intros (_ & _ & H & _). discriminate H.
  Defined.

End RegionHeaders.

(** ** Chunk payloads *)

Section ChunkExtraction.
Variable ungzip inflate : list Z -> option (list Z).
Variable tree : Type.
Variable parseNbtBuffer : list Z -> option tree.

Lemma readChunkData_result (buffer : list Z) (location : Mca.ChunkLocation) :
    Mca.readChunkData ungzip inflate buffer location
    = Returned
        (let data := Mca.compressedData buffer location in
         match JS.u8_at buffer (Mca.offset location * 4096 + 4) with
         | Some 1 => ungzip data
         | Some 2 => inflate data
         | Some 3 => Some data
         | _ => None
         end).
  Proof.
    unfold Mca.readChunkData, Mca.readChunkData_body, Mca.pako. cbv zeta.
    destruct (ungzip (Mca.compressedData buffer location)),
      (inflate (Mca.compressedData buffer location)),
      (JS.u8_at buffer (Mca.offset location * 4096 + 4))
      as [[|[[|[]|]|[|[]|]|]|]|]; reflexivity.
  Qed.

Lemma extractChunk_result (buffer : list Z)
      (chunkInfo : Region.RegionChunkInfo) :
    Region.extractChunk ungzip inflate tree parseNbtBuffer buffer chunkInfo
    = Returned
        (Region.decoded ungzip inflate tree parseNbtBuffer buffer chunkInfo).
  Proof.
    unfold Region.extractChunk, Region.extractChunk_body, Region.decoded,
      Region.may_throw. cbv zeta.
    destruct (Region.compressionType chunkInfo)
      as [[|[[|[]|]|[|[]|]|]|]|]; try reflexivity;
      repeat match goal with
             | |- context [obind (match ?x with _ => _ end) _] =>
                 destruct x; cbn [obind mbind option_bind try_catch]
             end; reflexivity.
  Qed.

Lemma extractAll_upto (buffer : list Z) (info : Region.RegionFileInfo)
      (n : nat) :
    fold_left
      (fun acc i =>
         obind acc (fun rootChildren =>
         match Region.chunks info !! Z.to_nat i with
         | Some (Some chunkInfo) =>
             obind (Region.extractChunk ungzip inflate tree parseNbtBuffer
                      buffer chunkInfo)
                   (fun chunkData =>
                      match chunkData with
                      | Some t => Returned (rootChildren ++ [(chunkInfo, t)])
                      | None => Returned rootChildren
                      end)
         | _ => Returned rootChildren
         end))
      (upto n) (Returned [])
    = Returned
        (omap (fun slot =>
                 chunkInfo ← slot;
                 t ← Region.decoded ungzip inflate tree parseNbtBuffer
                       buffer chunkInfo;
                 Some (chunkInfo, t))
              (take n (Region.chunks info))).
  Proof.
    induction n as [|n IH]; [reflexivity|].
    rewrite upto_snoc, fold_left_app, IH. cbn [fold_left obind].
    rewrite Nat2Z.id.
    destruct (Region.chunks info !! n) as [slot|] eqn:Hn.
    - rewrite (take_S_r _ _ _ Hn), omap_app.
      destruct slot as [chunkInfo|]; cbn [omap list_omap mbind option_bind].
      + rewrite extractChunk_result. cbn [obind].
        destruct (Region.decoded ungzip inflate tree parseNbtBuffer buffer
                    chunkInfo) as [t|];
          cbn [mbind option_bind]; [reflexivity | now rewrite app_nil_r].
      + now rewrite app_nil_r.
    - apply lookup_ge_None in Hn.
      rewrite !take_ge by lia. reflexivity.
  Qed.

  (** C8, as stated, fails: a payload range that runs past the end of
      the buffer is clamped by slice, and an uncompressed chunk is then
      returned truncated instead of null. *)
Lemma C8_counterexample :
    let buffer := [0; 0; 0; 10; 3; 1; 2] in
    let location :=
      {| Mca.x := 0; Mca.z := 0; Mca.offset := 0;
         Mca.sectorCount := Some 1; Mca.timestamp := 0 |} in
    Z.of_nat (length buffer)
      < Mca.offset location * 4096 + 5
        + (Mca.chunk_dataLength buffer (Mca.offset location * 4096) - 1) /\
    Mca.readChunkData (fun _ => None) (fun _ => None) buffer location
    = Returned (Some [1; 2]).
  Proof. split; vm_compute; reflexivity. Qed.

  (** C8, amended: readChunkData and extractChunk never raise.  The
      payload is the slice from byte offset * 4096 + 5 of the length the
      header declares minus one, clamped to the buffer (a range past the
      end is not an error).  Compression type 1 selects GZip, 2 Zlib,
      3 no decompression; any other or missing type, a failing
      decompression and, in extractChunk, a failing NBT parse yield
      null.  In parseRegionFile every slot contributes its own result in
      slot order, and a null chunk is passed over without effect on the
      others. *)
Theorem C8_chunk_extraction (buffer : list Z) :
    (forall location,
       Mca.readChunkData ungzip inflate buffer location
       = Returned
           (let chunkOffset := Mca.offset location * 4096 in
            let data :=
              slice buffer (chunkOffset + 5)
                    (chunkOffset + 5
                     + Mca.chunk_dataLength buffer chunkOffset - 1) in
            match JS.u8_at buffer (chunkOffset + 4) with
            | Some 1 => ungzip data
            | Some 2 => inflate data
            | Some 3 => Some data
            | _ => None
            end)) /\
    (forall chunkInfo,
       Region.extractChunk ungzip inflate tree parseNbtBuffer buffer chunkInfo
       = Returned
           (let chunkOffset := Region.offset chunkInfo * 4096 in
            let data :=
              slice buffer (chunkOffset + 5)
                    (chunkOffset + 5 + Region.dataLength chunkInfo) in
            match Region.compressionType chunkInfo with
            | Some 1 => ungzip data ≫= parseNbtBuffer
            | Some 2 => inflate data ≫= parseNbtBuffer
            | Some 3 => parseNbtBuffer data
            | _ => None
            end)) /\
    (forall info,
       Region.extractAll ungzip inflate tree parseNbtBuffer buffer info
       = Returned
           (omap (fun slot =>
                    chunkInfo ← slot;
                    t ← Region.decoded ungzip inflate tree parseNbtBuffer
                          buffer chunkInfo;
                    Some (chunkInfo, t))
                 (take 1024 (Region.chunks info)))).
  Proof.
    split; [|split].
    - intros location. apply readChunkData_result.
    - intros chunkInfo. apply extractChunk_result.
    - intros info. apply extractAll_upto.
  Qed.

End ChunkExtraction.

(** ** Block sections *)

Section BlockSections.
Import Blocks.

Lemma NoDup_upto (n : nat) : NoDup (upto n).
  Proof.
    unfold upto. change (map Z.of_nat (seq 0 n)) with (Z.of_nat <$> seq 0 n).
    apply NoDup_fmap; [apply _ | apply NoDup_seq].
  Qed.

Lemma length_upto (n : nat) : length (upto n) = n.
  Proof. unfold upto. now rewrite length_map, length_seq. Qed.

  (** The local coordinates determine the index. *)
Lemma local_position_index (i : Z) :
    0 <= i < 4096 ->
    JS.band i 15 + 16 * JS.band (JS.sar i 4) 15 + 256 * JS.sar i 8 = i.
  Proof.
    intros Hi.
    assert (H : forallb
                  (fun i => JS.band i 15 + 16 * JS.band (JS.sar i 4) 15
                            + 256 * JS.sar i 8 =? i) (upto 4096) = true)
      by (vm_compute; reflexivity).
    rewrite forallb_forall in H.
    apply Z.eqb_eq, H. apply list_elem_of_In, elem_of_upto. lia.
  Qed.

Lemma position_of_inj (xOffset yOffset zOffset i j : Z) :
    0 <= i < 4096 -> 0 <= j < 4096 ->
    position_of i xOffset yOffset zOffset = position_of j xOffset yOffset zOffset ->
    i = j.
  Proof.
    intros Hi Hj H. unfold position_of in H. cbv zeta in H.
    injection H as Hx Hy Hz.
    rewrite <- (local_position_index i Hi), <- (local_position_index j Hj).
    lia.
  Qed.

Lemma filled_named (block : option paletteEntry) (nm : string)
      (xOffset yOffset zOffset : Z) :
    nameOf block = Some nm -> skipped (Some nm) = false ->
    let records := filled block xOffset yOffset zOffset in
    records = map (named_block nm None xOffset yOffset zOffset) (upto 4096) /\
    length records = 4096%nat /\
    NoDup (map position records) /\
    Forall (fun r => blockName r = Some (remove_first "minecraft:" nm)) records.
  Proof.
    intros Hn Hs. cbv zeta. unfold filled. rewrite Hn, Hs. cbn [default].
    split; [reflexivity|]. split; [now rewrite length_map, length_upto|].
    split.
    - rewrite map_map. cbn [named_block position].
      change (map (fun i => position_of i xOffset yOffset zOffset) (upto 4096))
        with ((fun i => position_of i xOffset yOffset zOffset) <$> upto 4096).
      apply NoDup_fmap_2_strong; [|apply NoDup_upto].
      intros i j Hi Hj. apply elem_of_upto in Hi, Hj.
      apply position_of_inj; lia.
    - apply Forall_forall. intros r Hr.
      apply list_elem_of_In, in_map_iff in Hr as (i & <- & _). reflexivity.
  Qed.

  (** C6, as stated, fails: a single palette entry that carries no
      name is not air, yet the section yields no record. *)
Lemma C6_counterexample :
    let s :=
      {| Y := Some 4; y := None; Blocks := None; Add := None; Data := None;
         BlockLight := None; SkyLight := None; Palette := None;
         BlockStates := None;
         block_states :=
           Some {| palette := Some [PObject None None]; data := None |} |} in
    nameOf (Some (PObject None None)) <> Some "minecraft:air" /\
    nameOf (Some (PObject None None)) <> Some "air" /\
    sectionBlocks None 0 0 s = [].
  Proof. cbv zeta. split; [discriminate|]. split; [discriminate|reflexivity]. Qed.

  (** C6, amended: for a section decoded by the 1.18+ branch whose data
      array is missing or empty, the records are exactly the 4096
      positions of the section, each carrying the name of palette[0]
      with its first "minecraft:" removed, when palette[0] has a
      non-empty name other than minecraft:air / air; there is no record
      when that name is air, empty or missing, nor when the palette is
      missing or empty. *)
Theorem C6_degenerate_sections (biomes : option (list Z))
      (xOffset zOffset : Z) (s : SectionNBT) (bs : BlockStatesNBT) :
    Blocks s = None ->
    Palette s = None \/ BlockStates s = None ->
    block_states s = Some bs ->
    let records := sectionBlocks biomes xOffset zOffset s in
    let yOffset := default 0 (or_else (Y s) (y s)) * 16 in
    (palette bs = None \/ palette bs = Some [] -> records = []) /\
    (forall block rest,
       palette bs = Some (block :: rest) ->
       data bs = None \/ data bs = Some [] ->
       (skipped (nameOf (Some block)) = true -> records = []) /\
       (forall nm,
          nameOf (Some block) = Some nm -> skipped (Some nm) = false ->
          records
          = map (named_block nm None xOffset yOffset zOffset) (upto 4096) /\
          length records = 4096%nat /\
          NoDup (map position records) /\
          Forall (fun r => blockName r = Some (remove_first "minecraft:" nm))
                 records)).
  Proof.
    intros HB HP Hbs. cbv zeta. unfold sectionBlocks. rewrite HB, Hbs.
    split.
    - intros [Hp | Hp].
      + destruct (Palette s) as [p|], (BlockStates s) as [b|];
          try (destruct HP; discriminate); now rewrite Hp.
      + destruct (Palette s) as [p|], (BlockStates s) as [b|];
          try (destruct HP; discriminate); now rewrite Hp.
    - intros block rest Hp Hd.
      assert (Hrec :
        match Palette s, BlockStates s with
        | Some pal, Some blockStates =>
            if bool_decide (pal = []) then []
            else if bool_decide (blockStates = []) then []
            else omap (indexed_block pal blockStates xOffset
                         (default 0 (Y s) * 16) zOffset) (upto 4096)
        | _, _ =>
            match palette bs with
            | None | Some [] => []
            | Some pal =>
                match data bs with
                | None | Some [] =>
                    filled (at_index pal 0) xOffset
                           (default 0 (or_else (Y s) (y s)) * 16) zOffset
                | Some d =>
                    omap (nested_block pal d xOffset
                            (default 0 (or_else (Y s) (y s)) * 16) zOffset)
                         (upto 4096)
                end
            end
        end
        = filled (Some block) xOffset
                 (default 0 (or_else (Y s) (y s)) * 16) zOffset).
      { destruct (Palette s) as [p|], (BlockStates s) as [b|];
          try (destruct HP; discriminate); rewrite Hp;
          destruct Hd as [-> | ->]; reflexivity. }
      rewrite Hrec. split.
      + intros Hs. unfold filled. now rewrite Hs.
      + intros nm Hn Hs. now apply filled_named.
  Qed.

Lemma C6_witness :
    let s :=
      {| Y := Some 4; y := None; Blocks := None; Add := None; Data := None;
         BlockLight := None; SkyLight := None; Palette := None;
         BlockStates := None;
         block_states :=
           Some {| palette := Some [PObject (Some "minecraft:stone") None];
                   data := None |} |} in
    length (sectionBlocks None 0 0 s) = 4096%nat /\
    Forall (fun r => blockName r = Some "stone") (sectionBlocks None 0 0 s).
  Proof.
    cbv zeta.
    pose proof (C6_degenerate_sections None 0 0
      {| Y := Some 4; y := None; Blocks := None; Add := None; Data := None;
         BlockLight := None; SkyLight := None; Palette := None;
         BlockStates := None;
         block_states :=
           Some {| palette := Some [PObject (Some "minecraft:stone") None];
                   data := None |} |}
      {| palette := Some [PObject (Some "minecraft:stone") None];
         data := None |}
      eq_refl (or_introl eq_refl) eq_refl) as H.
    cbv zeta in H. destruct H as [_ H].
    specialize (H (PObject (Some "minecraft:stone") None) [] eq_refl
                  (or_introl eq_refl)).
    destruct H as [_ H].
    specialize (H "minecraft:stone" eq_refl eq_refl).
    destruct H as (_ & Hlen & _ & Hnames).
    split; [exact Hlen | exact Hnames].
  Defined.

End BlockSections.

(** ** The claims on 64-bit values and packed indices *)

Section BitClaims.
Import Packed.

  (** C7: for every 64-bit integer v, splitting v into the [high, low]
      pair as convertToPrismarineValue does for a Long and for every
      element of a LongArray, and recombining as convertValue does,
      yields exactly v. *)
Theorem C7_long_split_combine :
    (forall v, Long.is_int64 v ->
       Long.convertValue_long <$> Long.convertToPrismarineValue_long v
       = Some v) /\
    (forall arr, Forall Long.is_int64 arr ->
       Long.convertValue_longArray
         <$> Long.convertToPrismarineValue_longArray arr = Some arr).
  Proof.
    split; [exact long_roundtrip | exact longArray_roundtrip].
  Qed.

Lemma C7_witness :
    Long.convertValue_long
      <$> Long.convertToPrismarineValue_long (-9223372036854775808)
    = Some (-9223372036854775808).
  Proof.
    apply (proj1 C7_long_split_combine). unfold Long.is_int64. lia.
  Defined.



  (** The bound 2^30 of the 1.13-1.17 branch is that of its mask: at 31
      bits per entry the 32-bit [1 << 31] is negative, and the mask
      built from it keeps bits of the next entry, while the BigInt mask
      of the 1.18+ branch does not. *)
Remark mask_113_at_31_bits :
    bitsPerBlock (2 ^ 30 + 1) = 31 /\ blocksPerLong 31 = 2 /\
    in_palette (2 ^ 30 + 1) wide_indices /\
    packed 31 2 wide_indices wide_words /\
    wide_indices !! 0%nat = Some 5 /\
    mask_113 31 = -2147483649 /\
    paletteIndex_113 (2 ^ 30 + 1) (map asBigInt wide_words) 0
    = Some 4294967301 /\
    paletteIndex_118 (2 ^ 30 + 1) (map asBigInt wide_words) 0 = Some 5.
  Proof.
    split; [vm_compute; reflexivity|].
    split; [vm_compute; reflexivity|].
    split; [apply in_paletteb_sound; vm_compute; reflexivity|].
    split; [apply packedb_sound; vm_compute; reflexivity|].
    split; [reflexivity|].
    split; [vm_compute; reflexivity|].
    split; vm_compute; reflexivity.
  Qed.

End BitClaims.

(** ** The edits leave the tree they are given untouched *)

Section HeapFrame.
Import Heap.
Import Tree (TagType, TEnd, TByte, TShort, TInt, TLong, TFloat, TDouble,
               TByteArray, TString, TList, TCompound, TIntArray, TLongArray).

Variable n0 : nat.

  (** *** Frames *)






  (** *** Reading after allocation and assignment *)

Lemma lookup_alloc_old (s : store) (c : cell) (l : loc) :
    (l < length s)%nat -> (s ++ [c]) !! l = s !! l.
  Proof. intros. now apply lookup_app_l. Qed.






Lemma children_at_prefix (s s' : store) (l : loc) :
    s `prefix_of` s' -> (l < length s)%nat ->
    children_at s' l = children_at s l.
  Proof.
    intros [ext ->] Hl. unfold children_at. now rewrite lookup_app_l.
  Qed.

  (** *** The invariant under allocation and assignment *)

Variable ex : loc -> Prop.





  (** *** Runs that only extend the store *)

Lemma bind_run {A B : Type} (m : M A) (k : A -> M B) (s : store) :
    bind m k s = match m s with
                 | (s', Some a) => k a s'
                 | (s', None) => (s', None)
                 end.
  Proof. reflexivity. Qed.








  (** The result of a run that extends the store and ends with an
      allocation lies above the store it started from. *)
Lemma alloc_above {A : Type} (m : M A) (k : A -> cell) (s : store)
      (l : loc) :
    grows n0 ex m ->
    snd (bind m (fun a => bind (alloc (k a)) (fun l' => ret (JRef l'))) s)
    = Some (JRef l) ->
    (length s <= l)%nat.
  Proof.
    intros Hm. rewrite bind_run. destruct (Hm s) as [Hp _].
    destruct (m s) as [s' [a|]]; cbn [fst snd] in *; [|discriminate].
    cbn. intros H. injection H as <-. now apply prefix_length.
  Qed.



End HeapFrame.

Section HeapClone.
Import Heap.
Import Tree (TagType, TEnd, TByte, TShort, TInt, TLong, TFloat, TDouble,
               TByteArray, TString, TList, TCompound, TIntArray, TLongArray).

Variable n0 : nat.
Variable ex : loc -> Prop.

  (** *** cloneTree *)



End HeapClone.

Section HeapEdits.
Import Heap.
Import Tree (TagType, TEnd, TByte, TShort, TInt, TLong, TFloat, TDouble,
               TByteArray, TString, TList, TCompound, TIntArray, TLongArray).

Variable n0 : nat.
Variable ex : loc -> Prop.

  (** *** Rules for framed runs *)








  (** *** Reading after an assignment *)






Lemma children_at_alloc (s : store) (c : cell) (l : loc) :
    (l < length s)%nat -> children_at (s ++ [c]) l = children_at s l.
  Proof. intros H. unfold children_at. now rewrite lookup_alloc_old. Qed.


  (** *** The invariant under each kind of assignment *)






  (** *** Walking the tree *)


















  (** *** updateParentValues *)



  (** *** Loops and the children array *)







End HeapEdits.

Section HeapOperations.
Import Heap.
Import Tree (TagType, TEnd, TByte, TShort, TInt, TLong, TFloat, TDouble,
               TByteArray, TString, TList, TCompound, TIntArray, TLongArray).

Variable n0 : nat.





  (** *** updateNodeValue *)


Variable localeCompare : string -> string -> Z.

  (** *** renameTag *)


  (** *** deleteTag *)



  (** *** addTag *)





  (** *** The claim *)

  (** The heap model runs: on the sample tree each edit returns, its
      result read back is what the structural model computes, and the
      tree it was given reads back as before. *)
Lemma sample_heap_reads_back :
    read_back fst sample_heap = Some Tree.sample_tree.
  Proof. vm_compute. reflexivity. Qed.

Lemma sample_heap_edits :
    match sample_heap with
    | (s, Some (root, counter)) =>
        let cmp := Tree.codeUnitCompare in
        let same {A : Type} (root_of : A -> loc) (run : store * option A)
                 (t : option Tree.NbtTreeNode) :=
          read_back root_of run = t /\ t <> None /\
          reify 8 (fst run) root = Some Tree.sample_tree in
        same (fun r => r)
             (updateNodeValue 8 root ["Data"; "a"; "x"] (JNumber 9) s)
             (Tree.updateNodeValue Tree.sample_tree ["Data"; "a"; "x"]
                                   (Tree.VNumber 9)) /\
        same fst
             (addTag cmp 8 root ["Data"; "a"] "k" TInt (JNumber 7) counter s)
             (fst <$> Tree.addTag cmp Tree.sample_tree ["Data"; "a"] "k" TInt
                                  (Tree.VNumber 7) counter) /\
        same fst
             (addTag cmp 8 root ["Data"; "l"] "" TInt (JNumber 7) counter s)
             (fst <$> Tree.addTag cmp Tree.sample_tree ["Data"; "l"] "" TInt
                                  (Tree.VNumber 7) counter) /\
        same (fun r => r) (deleteTag 8 root ["Data"; "l"; "1"] s)
             (Tree.deleteTag Tree.sample_tree ["Data"; "l"; "1"]) /\
        same (fun r => r) (deleteTag 8 root ["Data"; "b"] s)
             (Tree.deleteTag Tree.sample_tree ["Data"; "b"]) /\
        same (fun r => r) (renameTag cmp 8 root ["Data"; "a"] "z" s)
             (Tree.renameTag cmp Tree.sample_tree ["Data"; "a"] "z")
    | _ => False
    end.
  Proof. vm_compute. repeat split; discriminate. Qed.

End HeapOperations.

Section ReadingBack.
Import Heap.


Variables s s' : store.
Hypothesis Hkept : unchanged s s'.


End ReadingBack.

(** ** On a well-formed tree the edits return *)

Section HeapReturns.
Import Heap.
Import Tree (TagType, TEnd, TByte, TShort, TInt, TLong, TFloat, TDouble,
               TByteArray, TString, TList, TCompound, TIntArray, TLongArray,
               member, MTag, MUndefined, MUntyped).

Variable n0 : nat.
Variable ex : loc -> Prop.

  (** *** Rules for runs that return *)














  (** *** Stores that keep the kinds of their cells *)

Lemma settled_refl (s : store) : settled s s.
  Proof. repeat split; auto. intros cl ls H1 H2. eauto. Qed.

Lemma settled_trans (s1 s2 s3 : store) :
    settled s1 s2 -> settled s2 s3 -> settled s1 s3.
  Proof.
    intros (A1 & A2 & A3 & A4 & A5) (B1 & B2 & B3 & B4 & B5).
    repeat split; auto.
    intros cl ls H1 H2. destruct (A5 cl ls H1 H2) as (ls' & H1' & H2').
    exact (B5 cl ls' H1' H2').
  Qed.













  (** *** findNodeByPath finds or finds nothing *)




End HeapReturns.
Section HeapReady.
Import Heap.
Import Tree (TagType, TEnd, TByte, TShort, TInt, TLong, TFloat, TDouble,
               TByteArray, TString, TList, TCompound, TIntArray, TLongArray,
               member, MTag, MUndefined, MUntyped).

Variable n0 : nat.
Variable ex : loc -> Prop.

  (** *** updateParentValues returns *)




  (** *** Cloning leaves the store ready *)












End HeapReady.
Section HeapCloneReady.
Import Heap.
Import Tree (TagType, TEnd, TByte, TShort, TInt, TLong, TFloat, TDouble,
               TByteArray, TString, TList, TCompound, TIntArray, TLongArray,
               member, MTag, MUndefined, MUntyped).

Variable n0 : nat.
Variable ex : loc -> Prop.


End HeapCloneReady.

Section HeapOperationsReturn.
Import Heap.
Import Tree (TagType, TEnd, TByte, TShort, TInt, TLong, TFloat, TDouble,
               TByteArray, TString, TList, TCompound, TIntArray, TLongArray,
               member, MTag, MUndefined, MUntyped).

Variable n0 : nat.







  (** *** updateNodeValue *)


Variable localeCompare : string -> string -> Z.

  (** *** renameTag *)


End HeapOperationsReturn.
Section HeapStructureReturns.
Import Heap.
Import Tree (TagType, TEnd, TByte, TShort, TInt, TLong, TFloat, TDouble,
               TByteArray, TString, TList, TCompound, TIntArray, TLongArray,
               member, MTag, MUndefined, MUntyped).

Variable n0 : nat.
Variable localeCompare : string -> string -> Z.



  (** *** deleteTag *)


  (** *** addTag *)



End HeapStructureReturns.

(** ** A tree that reads back well shaped is cloned *)

Section HeapCloneReturns.
Import Heap.
Import Tree (TagType, TEnd, TByte, TShort, TInt, TLong, TFloat, TDouble,
               TByteArray, TString, TList, TCompound, TIntArray, TLongArray,
               member, MTag, MUndefined, MUntyped).

Variable base : store.












End HeapCloneReturns.
(** ** The four edits on the heap *)





(** * Further properties *)

(** ** Packed block states, within the palette sizes the masks carry *)

(** X1: in the 1.18+ branch of extractBlocks, for a palette of P entries
    with 1 <= P < 2^32, the extraction step recovers every index of a
    sequence of 4096 indices below P packed as the format prescribes,
    whether the words arrive as BigInt or as [high, low] pairs. *)
Theorem X1_nested_palette_index_recovered :
  forall (P : Z) (indices words : list Z) (rep : Z -> Packed.longVal),
    1 <= P < 2 ^ 32 -> Packed.in_palette P indices ->
    Packed.packed (Packed.bitsPerBlock P)
                  (Packed.blocksPerLong (Packed.bitsPerBlock P))
                  indices words ->
    Packed.delivered rep ->
    forall i, 0 <= i < Packed.SECTION_SIZE ->
      exists v, indices !! Z.to_nat i = Some v /\
                Packed.paletteIndex_118 P (map rep words) i = Some v.
Proof. exact paletteIndex_118_recovers. Qed.

Lemma X1_witness :
  exists v, Packed.repeating16 !! Z.to_nat 77 = Some v /\
            Packed.paletteIndex_118 16
              (map Packed.asHighLow (Packed.packWords 4 16 Packed.repeating16))
              77 = Some v.
Proof.
  apply (X1_nested_palette_index_recovered 16 Packed.repeating16
           (Packed.packWords 4 16 Packed.repeating16) Packed.asHighLow).
  - lia.
  - apply in_paletteb_sound. vm_compute. reflexivity.
  - apply packedb_sound. vm_compute. reflexivity.
  - right. reflexivity.
  - unfold Packed.SECTION_SIZE. lia.
Defined.

(** X2: in the 1.13-1.17 branch of extractBlocks, whose mask is computed
    on 32-bit numbers, the extraction step recovers every packed index
    as long as the palette has at most 2^30 entries. *)
Theorem X2_indexed_palette_index_recovered :
  forall (P : Z) (indices words : list Z) (rep : Z -> Packed.longVal),
    1 <= P <= 2 ^ 30 -> Packed.in_palette P indices ->
    Packed.packed (Packed.bitsPerBlock P)
                  (Packed.blocksPerLong (Packed.bitsPerBlock P))
                  indices words ->
    Packed.delivered rep ->
    forall i, 0 <= i < Packed.SECTION_SIZE ->
      exists v, indices !! Z.to_nat i = Some v /\
                Packed.paletteIndex_113 P (map rep words) i = Some v.
Proof. exact paletteIndex_113_recovers. Qed.

Lemma X2_witness :
  exists v, Packed.repeating16 !! Z.to_nat 4095 = Some v /\
            Packed.paletteIndex_113 16
              (map Packed.asBigInt (Packed.packWords 4 16 Packed.repeating16))
              4095 = Some v.
Proof.
  apply (X2_indexed_palette_index_recovered 16 Packed.repeating16
           (Packed.packWords 4 16 Packed.repeating16) Packed.asBigInt).
  - lia.
  - apply in_paletteb_sound. vm_compute. reflexivity.
  - apply packedb_sound. vm_compute. reflexivity.
  - left. reflexivity.
  - unfold Packed.SECTION_SIZE. lia.
Defined.

(** ** Copies *)

(** X3: cloneTree returns a copy equal to the tree it is given - same
    ids, names, types, values, paths and children, at every depth -
    whenever the values of the tree have the shape their tag types
    announce. *)
Theorem X3_cloneTree_equal_copy :
  forall n : Tree.NbtTreeNode,
    Tree.shaped_tree n -> Tree.cloneTree n = Some n.
Proof. exact cloneTree_shaped. Qed.

Lemma X3_witness : Tree.cloneTree Tree.sample_tree = Some Tree.sample_tree.
Proof. apply X3_cloneTree_equal_copy. exact sample_tree_shaped. Defined.

(** ** What the header parsers report *)

Section HeaderReports.

Lemma count_fold {A B C : Type} (f : A -> option B)
      (step : C * Z -> A -> C * Z) (l : list A) :
    (forall acc i, snd (step acc i) = snd acc + match f i with Some _ => 1 | None => 0 end) ->
    forall acc,
      snd (fold_left step l acc) = snd acc + Z.of_nat (length (omap f l)).
  Proof.
    intros Hstep. induction l as [|i l IH]; intros acc.
    - cbn. lia.
    - cbn [fold_left]. rewrite IH, Hstep.
      change (omap f (i :: l))
        with (match f i with
              | Some y => y :: omap f l
              | None => omap f l
              end).
      destruct (f i) as [y|]; cbn [length]; lia.
  Qed.

Lemma push_fold {A B C : Type} (g : A -> option B)
      (step : C * list B -> A -> C * list B) (l : list A) :
    (forall acc i, snd (step acc i)
                   = snd acc ++ match g i with Some y => [y] | None => [] end) ->
    forall acc, snd (fold_left step l acc) = snd acc ++ omap g l.
  Proof.
    intros Hstep. induction l as [|i l IH]; intros acc.
    - cbn. now rewrite app_nil_r.
    - cbn [fold_left]. rewrite IH, Hstep.
      change (omap g (i :: l))
        with (match g i with
              | Some y => y :: omap g l
              | None => omap g l
              end).
      destruct (g i) as [y|]; [|now rewrite app_nil_r].
      now rewrite <- app_assoc.
  Qed.

Lemma Region_count_fold (buffer : list Z) (l : list Z) :
    forall acc,
      snd (fold_left (Region.header_step buffer) l acc)
      = snd acc + Z.of_nat (length (omap (Region.header_entry buffer) l)).
  Proof.
    apply count_fold. intros acc i. unfold Region.header_step.
    destruct (Region.header_entry buffer i) as [info|]; cbn [snd]; lia.
  Qed.

Lemma Region_chunks_all (buffer : list Z) :
    Region.chunks (Region.parseRegionHeader buffer)
    = map (Region.header_entry buffer) (upto 1024).
  Proof.
    destruct (Region_header_fold buffer 1024 ltac:(lia)) as [Hlen Hk].
    apply list_eq. intros k. unfold Region.parseRegionHeader.
    cbn [Region.chunks].
    destruct (decide (k < 1024)%nat) as [Hlt|Hge].
    - rewrite (Hk k Hlt). destruct (decide (k < 1024)%nat); [|lia].
      change (map (Region.header_entry buffer) (upto 1024))
        with (Region.header_entry buffer <$> upto 1024).
      rewrite list_lookup_fmap. unfold upto.
      change (map Z.of_nat (seq 0 1024)) with (Z.of_nat <$> seq 0 1024).
      now rewrite list_lookup_fmap, lookup_seq_lt by lia.
    - rewrite !(proj2 (lookup_ge_None _ _)); [reflexivity | |].
      + rewrite length_map. unfold upto. rewrite length_map, length_seq. lia.
      + cbv zeta in Hlen. rewrite Hlen. lia.
  Qed.

Lemma omap_id_map {A B : Type} (f : A -> option B) (l : list A) :
    omap id (map f l) = omap f l.
  Proof.
    induction l as [|x l IH]; [reflexivity|].
    cbn [map omap list_omap]. rewrite IH. now destruct (f x).
  Qed.

Lemma Mca_available_fold (buffer : list Z) (l : list Z) :
    forall acc,
      snd (fold_left (Mca.header_step buffer) l acc)
      = snd acc
        ++ omap (fun i => (fun _ => (i mod 32, i / 32))
                            <$> Mca.header_entry buffer i) l.
  Proof.
    apply push_fold. intros acc i. unfold Mca.header_step.
    destruct (Mca.header_entry buffer i) as [loc|] eqn:He; cbn;
      [|now rewrite app_nil_r].
    now destruct (Mca_entry_key _ _ _ He) as [-> ->].
  Qed.

End HeaderReports.

(** X4: the editor's parseRegionHeader returns an array of exactly 1024
    slots, and the chunkCount it reports is the number of slots that
    hold a chunk. *)
Theorem X4_chunkCount_counts_present_slots :
  forall buffer : list Z,
    let info := Region.parseRegionHeader buffer in
    length (Region.chunks info) = 1024%nat /\
    Region.chunkCount info
    = Z.of_nat (length (omap id (Region.chunks info))).
Proof.
  intros buffer info. subst info. rewrite Region_chunks_all. split.
  - unfold upto. now rewrite !length_map, length_seq.
  - rewrite omap_id_map. unfold Region.parseRegionHeader.
    cbn [Region.chunkCount]. rewrite Region_count_fold. cbn [snd]. lia.
Qed.

(** X5: in the viewer's parseRegionHeader, availableChunks and the chunks
    map tell the same story: the coordinates listed are pairwise
    distinct, and [x, z] is listed exactly when both lie in 0..31 and
    the map holds, under the key `x,z`, a location with these very
    coordinates. *)
Theorem X5_availableChunks_match_map :
  forall buffer : list Z,
    let r := Mca.parseRegionHeader buffer in
    NoDup (Mca.availableChunks r) /\
    forall x z,
      (x, z) ∈ Mca.availableChunks r <->
      (0 <= x < 32 /\ 0 <= z < 32 /\
       exists loc, Mca.map_get (Mca.chunks r) (Mca.key x z) = Some loc /\
                   Mca.x loc = x /\ Mca.z loc = z).
Proof.
  intros buffer r.
  assert (Hav : Mca.availableChunks r
                = omap (fun i => (fun _ => (i mod 32, i / 32))
                                   <$> Mca.header_entry buffer i)
                       (upto 1024)).
  { unfold r, Mca.parseRegionHeader. cbn [Mca.availableChunks].
    now rewrite Mca_available_fold. }
  assert (Hin : forall x z,
             (x, z) ∈ Mca.availableChunks r <->
             exists i, 0 <= i < 1024 /\ x = i mod 32 /\ z = i / 32 /\
                       is_Some (Mca.header_entry buffer i)).
  { intros x z. rewrite Hav, list_elem_of_omap. split.
    - intros (i & Hi & He). apply elem_of_upto in Hi.
      destruct (Mca.header_entry buffer i) as [loc|] eqn:Hloc;
        [|discriminate].
      cbn in He. injection He as <- <-. exists i.
      split; [lia|]. split; [reflexivity|]. split; [reflexivity|].
      rewrite Hloc. now exists loc.
    - intros (i & Hi & -> & -> & [loc Hloc]). exists i.
      split; [apply elem_of_upto; lia|]. now rewrite Hloc. }
  split.
  - rewrite Hav. clear Hav Hin.
    assert (Hgen : forall l, NoDup l ->
               NoDup (omap (fun i => (fun _ => (i mod 32, i / 32))
                                       <$> Mca.header_entry buffer i) l)).
    { induction 1 as [|i l Hi Hnd IH]; cbn [omap list_omap]; [constructor|].
      destruct (Mca.header_entry buffer i) as [loc|]; cbn; [|exact IH].
      constructor; [|exact IH]. intros Hin.
      apply list_elem_of_omap in Hin as (j & Hj & He).
      destruct (Mca.header_entry buffer j); [|discriminate]. cbn in He.
      injection He as Hm Hd.
      assert (i = j); [|congruence].
      rewrite (Z.div_mod i 32), (Z.div_mod j 32) by lia. lia. }
    apply Hgen. unfold upto. apply NoDup_fmap_2; [|apply NoDup_seq].
    intros a b H. lia.
  - intros x z. rewrite Hin. split.
    + intros (i & Hi & -> & -> & [loc Hloc]).
      pose proof (Z.mod_pos_bound i 32 ltac:(lia)).
      assert (0 <= i / 32 < 32).
      { split; [apply Z.div_pos; lia | apply Z.div_lt_upper_bound; lia]. }
      repeat split; try lia. exists loc.
      unfold r. rewrite Mca_chunks_lookup by lia.
      split; [exact Hloc|]. now apply (Mca_entry_key buffer i).
    + intros (Hx & Hz & loc & Hloc & _ & _).
      exists (x + 32 * z).
      assert (Hm : (x + 32 * z) mod 32 = x).
      { replace (x + 32 * z) with (x + z * 32) by lia.
        rewrite Z.mod_add by lia. apply Z.mod_small. lia. }
      assert (Hd : (x + 32 * z) / 32 = z).
      { replace (x + 32 * z) with (x + z * 32) by lia.
        rewrite Z.div_add by lia. rewrite (Z.div_small x 32) by lia. lia. }
      repeat split; try lia.
      pose proof (Mca_chunks_lookup buffer (x + 32 * z) ltac:(lia)) as Hl.
      rewrite Hm, Hd in Hl. fold r in Hl. rewrite <- Hl, Hloc.
      now exists loc.
Qed.

(** ** An edit is seen where it was made *)

Section TreeEdits.
Import Tree.
Variable cmp : string -> string -> Z.

Lemma mutate_walk_name (f : NbtTreeNode -> option NbtTreeNode)
      (segments : list string) :
    keeps_name f ->
    forall current current',
      mutate_walk f current segments = Some current' ->
      name current' = name current.
  Proof.
    intros Hf. destruct segments as [|s rest]; intros current current' H.
    - exact (Hf _ _ H).
    - cbn [mutate_walk] in H. destruct (children current) as [cs|].
      + destruct (mutate_child _ cs s); [|discriminate]. injection H as <-.
        now destruct current.
      + now injection H as <-.
  Qed.

Lemma mutate_child_walk (g : NbtTreeNode -> option NbtTreeNode)
      (cs cs' : list NbtTreeNode) (s : string) (c : NbtTreeNode) :
    keeps_name g -> find_child cs s = Some c ->
    mutate_child g cs s = Some cs' ->
    exists c', g c = Some c' /\ find_child cs' s = Some c'.
  Proof.
    intros Hg Hfind. revert cs'. induction cs as [|x cs IH]; intros cs' H;
      [discriminate|].
    cbn [find_child mutate_child] in *.
    destruct (String.eqb (name x) s) eqn:Hx.
    - injection Hfind as ->. destruct (g c) as [c'|] eqn:Hc; [|discriminate].
      injection H as <-. exists c'. split; [reflexivity|].
      cbn [find_child]. now rewrite (Hg c c' Hc), Hx.
    - destruct (mutate_child g cs s) as [cs''|]; [|discriminate].
      injection H as <-. destruct (IH Hfind cs'' eq_refl) as (c' & Hc & Hf).
      exists c'. split; [exact Hc|]. cbn [find_child]. now rewrite Hx.
  Qed.

  (** Rewriting a node above leaves what lies below it in place. *)
Lemma mutate_walk_above (g : NbtTreeNode -> option NbtTreeNode)
      (pre post : list string) :
    keeps_links g -> post <> [] ->
    forall current current' n,
      walk current (pre ++ post) = Some n ->
      mutate_walk g current pre = Some current' ->
      walk current' (pre ++ post) = Some n.
  Proof.
    intros Hg Hpost.
    assert (Hname : keeps_name g) by (intros x y H; apply (Hg x y H)).
    induction pre as [|s pre IH]; intros current current' n Hw Hm.
    - cbn [app mutate_walk] in *. destruct (Hg _ _ Hm) as [_ Hc].
      destruct post as [|p post]; [contradiction|].
      cbn [walk] in *. now rewrite Hc.
    - cbn [app walk mutate_walk] in *.
      destruct (children current) as [cs|] eqn:Hcs; [|discriminate].
      destruct (find_child cs s) as [c|] eqn:Hc; [|discriminate].
      destruct (mutate_child _ cs s) as [cs'|] eqn:Hcs'; [|discriminate].
      injection Hm as <-.
      destruct (mutate_child_walk (fun c => mutate_walk g c pre) cs cs' s c)
        as (c' & Hc' & Hf'); [|exact Hc|exact Hcs'|].
      { intros x y. apply mutate_walk_name, Hname. }
      destruct current. cbn. rewrite Hf'. eapply IH; eassumption.
  Qed.

Lemma store_child_value_links (child : NbtTreeNode) :
    keeps_links (store_child_value child).
  Proof.
    intros x y. unfold store_child_value.
    destruct (type x); try (intros H; injection H as <-; auto);
      destruct (value x); try discriminate.
    - intros H. injection H as <-. now destruct x.
    - intros H. injection H as <-. now destruct x.
  Qed.

Lemma tail_take (i : nat) (path : list string) :
    tail (take (S i) path) = take i (tail path).
  Proof. destruct path; [now destruct i | reflexivity]. Qed.

Lemma updateParentValues_below (path : list string) (r r' n : NbtTreeNode) :
    findNodeByPath r path = Some n ->
    updateParentValues r path = Some r' ->
    findNodeByPath r' path = Some n.
  Proof.
    unfold updateParentValues.
    assert (Hgen : forall turns acc,
               Forall (fun i => (1 <= i < length path)%nat) turns ->
               (forall x, acc = Some x -> findNodeByPath x path = Some n) ->
               forall x, fold_left (updateParentValues_turn path) turns acc
                         = Some x ->
               findNodeByPath x path = Some n).
    { induction turns as [|i turns IH]; intros acc Hall Hacc x Hx.
      - exact (Hacc x Hx).
      - apply Forall_cons in Hall as [Hi Hall]. cbn [fold_left] in Hx.
        eapply IH; [exact Hall | | exact Hx].
        intros y Hy. unfold updateParentValues_turn in Hy.
        destruct acc as [a|]; [|discriminate]. cbn in Hy.
        specialize (Hacc a eq_refl).
        destruct (findNodeByPath a (take i path)); [|now injection Hy as <-].
        destruct (findNodeByPath a (take (S i) path)) as [child|];
          [|now injection Hy as <-].
        rewrite findNodeByPath_walk in *. unfold mutate_found in Hy.
        destruct i as [|j]; [lia|]. rewrite tail_take in Hy.
        rewrite <- (take_drop j (tail path)) in Hacc |- *.
        eapply mutate_walk_above;
          [apply store_child_value_links | | exact Hacc | exact Hy].
        intros Hnil. apply (f_equal length) in Hnil.
        rewrite length_drop in Hnil. cbn in Hnil.
        destruct path; cbn in *; lia. }
    intros Hfind Hup. eapply Hgen; [| |exact Hup].
    - apply Forall_forall. intros i Hi. apply list_elem_of_In in Hi.
      apply in_rev, in_seq in Hi. lia.
    - intros x Hx. now injection Hx as <-.
  Qed.

  (** The edit [f], made at the node a path names, is what the path
      names afterwards. *)
Lemma mutate_found_found (f : NbtTreeNode -> option NbtTreeNode)
      (root r1 n : NbtTreeNode) (path : list string) :
    keeps_name f ->
    findNodeByPath root path = Some n ->
    mutate_found f root path = Some r1 ->
    exists n', f n = Some n' /\ findNodeByPath r1 path = Some n'.
  Proof.
    intros Hf Hfind Hm. rewrite findNodeByPath_walk in Hfind.
    unfold mutate_found in Hm. setoid_rewrite findNodeByPath_walk.
    revert root r1 Hfind Hm.
    induction (tail path) as [|s rest IH]; intros root r1 Hfind Hm.
    - cbn in *. injection Hfind as ->. eauto.
    - cbn [walk mutate_walk] in *.
      destruct (children root) as [cs|] eqn:Hcs; [|discriminate].
      destruct (find_child cs s) as [c|] eqn:Hc; [|discriminate].
      destruct (mutate_child _ cs s) as [cs'|] eqn:Hcs'; [|discriminate].
      injection Hm as <-.
      destruct (mutate_child_walk (fun c => mutate_walk f c rest) cs cs' s c)
        as (c' & Hc' & Hf'); [|exact Hc|exact Hcs'|].
      { intros x y. apply mutate_walk_name, Hf. }
      destruct (IH c c' Hfind Hc') as (n' & Hn' & Hw).
      exists n'. split; [exact Hn'|]. destruct root. cbn. now rewrite Hf'.
  Qed.

  (** So it is after updateParentValues, which rewrites values above. *)
Lemma edit_found (f : NbtTreeNode -> option NbtTreeNode)
      (root r1 r n : NbtTreeNode) (path : list string) :
    keeps_name f ->
    findNodeByPath root path = Some n ->
    mutate_found f root path = Some r1 ->
    updateParentValues r1 path = Some r ->
    exists n', f n = Some n' /\ findNodeByPath r path = Some n'.
  Proof.
    intros Hf Hfind Hm Hup.
    destruct (mutate_found_found f root r1 n path Hf Hfind Hm)
      as (n' & Hn' & Hw).
    exists n'. split; [exact Hn'|].
    eapply updateParentValues_below; eassumption.
  Qed.

Lemma tail_snoc (parentPath : list string) (s : string) :
    parentPath <> [] -> tail (parentPath ++ [s]) = tail parentPath ++ [s].
  Proof. now destruct parentPath. Qed.

Lemma split_last (nodePath : list string) :
    (1 < length nodePath)%nat ->
    removelast nodePath <> [] /\
    nodePath = removelast nodePath ++ [List.last nodePath ""%string].
  Proof.
    intros Hlen. split.
    - destruct nodePath as [|a [|b l]]; cbn in *; try lia. discriminate.
    - apply app_removelast_last. destruct nodePath; cbn in *; [lia|].
      discriminate.
  Qed.

Lemma addTag_at_name parentPath s t v i : keeps_name (addTag_at cmp parentPath s t v i).
  Proof.
    intros x y. unfold addTag_at.
    destruct (type x); try (intros H; injection H as <-; auto);
      destruct (value x); try discriminate;
      intros H; injection H as <-; now destruct x.
  Qed.

Lemma deleteTag_at_name parentPath s : keeps_name (deleteTag_at parentPath s).
  Proof.
    intros x y. unfold deleteTag_at.
    destruct (type x); try (intros H; injection H as <-; auto);
      destruct (value x); try discriminate;
      intros H; injection H as <-; now destruct x.
  Qed.

  (** X6: after updateNodeValue, the path resolves to the node it
      resolved to before, with the new value and nothing else changed
      (same id, name, type, path and children). *)
Theorem X6_updateNodeValue_read_back :
    forall (root n r : NbtTreeNode) (nodePath : list string)
           (newValue : NbtValue),
      shaped_tree root ->
      findNodeByPath root nodePath = Some n ->
      updateNodeValue root nodePath newValue = Some r ->
      findNodeByPath r nodePath = Some (set_value newValue n).
  Proof.
    intros root n r nodePath newValue Hshape Hfind Hup.
    unfold updateNodeValue in Hup.
    rewrite (cloneTree_shaped root Hshape) in Hup. cbn in Hup.
    rewrite Hfind in Hup.
    destruct (mutate_found _ root nodePath) as [r1|] eqn:Hm; [|discriminate].
    cbn in Hup.
    assert (Hk : keeps_name (fun node => Some (set_value newValue node))).
    { intros [] ? [= <-]. reflexivity. }
    destruct (edit_found _ root r1 r n nodePath Hk Hfind Hm Hup)
      as (n' & Hn' & Hw).
    now injection Hn' as <-.
  Qed.

Lemma X6_witness :
    findNodeByPath
      (Node "node-1" "Data" TCompound
            (VCompound [("a", MTag TCompound (VCompound [("x", MTag TInt (VNumber 9))]))])
            ["Data"]
            (Some
               [Node "node-2" "a" TCompound (VCompound [("x", MTag TInt (VNumber 9))])
                  ["Data"; "a"]
                  (Some [Node "node-3" "x" TInt (VNumber 9) ["Data"; "a"; "x"]
                           None])]))
      ["Data"; "a"; "x"]
    = Some (set_value (VNumber 9)
              (Node "node-3" "x" TInt (VNumber 5) ["Data"; "a"; "x"] None)).
  Proof.
    apply (X6_updateNodeValue_read_back
             (Node "node-1" "Data" TCompound
                (VCompound
                   [("a", MTag TCompound (VCompound [("x", MTag TInt (VNumber 5))]))])
                ["Data"]
                (Some
                   [Node "node-2" "a" TCompound
                      (VCompound [("x", MTag TInt (VNumber 5))]) ["Data"; "a"]
                      (Some [Node "node-3" "x" TInt (VNumber 5)
                               ["Data"; "a"; "x"] None])]))).
    - cbn. repeat split;
        match goal with
        | |- NoDup ?l => apply (bool_decide_unpack (NoDup l)); vm_compute; exact I
        end.
    - vm_compute. reflexivity.
    - vm_compute. reflexivity.
  Defined.

Lemma edit_at_parent (f : NbtTreeNode -> option NbtTreeNode)
      (root r1 r p : NbtTreeNode) (parentPath : list string) (s : string) :
    keeps_name f -> parentPath <> [] ->
    findNodeByPath root parentPath = Some p ->
    mutate_found f root parentPath = Some r1 ->
    updateParentValues r1 parentPath = Some r ->
    exists p', f p = Some p' /\ findNodeByPath r parentPath = Some p' /\
               findNodeByPath r (parentPath ++ [s])
               = (cs ← children p'; find_child cs s).
  Proof.
    intros Hf Hne Hfind Hm Hup.
    destruct (edit_found f root r1 r p parentPath Hf Hfind Hm Hup)
      as (p' & Hp' & Hw).
    exists p'. split; [exact Hp'|]. split; [exact Hw|].
    rewrite findNodeByPath_walk in *. rewrite tail_snoc by exact Hne.
    rewrite walk_app, Hw. cbn.
    destruct (children p') as [cs|]; [|reflexivity]. cbn.
    now destruct (find_child cs s).
  Qed.

  (** X7: deleteTag under a Compound parent removes the entry from the
      parent's value and every child of that name from its children,
      keeps the other children as they were, and the deleted path no
      longer resolves. *)
Theorem X7_deleteTag_compound_child_gone :
    forall (root p r : NbtTreeNode) (nodePath : list string),
      shaped_tree root -> (1 < length nodePath)%nat ->
      findNodeByPath root (removelast nodePath) = Some p ->
      type p = TCompound ->
      deleteTag root nodePath = Some r ->
      findNodeByPath r nodePath = None /\
      exists p' compound,
        findNodeByPath r (removelast nodePath) = Some p' /\
        value p = VCompound compound /\
        value p'
        = VCompound (Obj.delete compound (List.last nodePath ""%string)) /\
        children p'
        = (fun cs =>
             filter (fun c => negb (String.eqb (name c)
                                      (List.last nodePath ""%string))) cs)
            <$> children p.
  Proof.
    intros root p r nodePath Hshape Hlen Hfind Htype Hdel.
    unfold deleteTag in Hdel.
    destruct (Nat.leb_spec (length nodePath) 1) as [Hle|_]; [lia|].
    rewrite (cloneTree_shaped root Hshape) in Hdel. cbn in Hdel.
    destruct (split_last nodePath Hlen) as [Hne Heq].
    set (parentPath := removelast nodePath) in *.
    set (nodeName := List.last nodePath ""%string) in *.
    rewrite Hfind in Hdel.
    destruct (mutate_found _ root parentPath) as [r1|] eqn:Hm;
      [|discriminate].
    cbn in Hdel.
    destruct (edit_at_parent _ root r1 r p parentPath nodeName
                (deleteTag_at_name parentPath nodeName) Hne Hfind Hm Hdel)
      as (p' & Hp' & Hw & Hchild).
    unfold deleteTag_at in Hp'. rewrite Htype in Hp'.
    destruct (value p) as [| | | | | | |compound|] eqn:Hv; try discriminate.
    injection Hp' as <-. split.
    - rewrite Heq, Hchild. destruct p as [i s t v pa [cs|]]; cbn; [|reflexivity].
      apply find_child_none. apply Forall_forall. intros c Hc.
      apply list_elem_of_filter in Hc as [Hc _]. intros E.
      rewrite E, String.eqb_refl in Hc. exact Hc.
    - exists (set_children
                ((fun cs => filter (fun c => negb (String.eqb (name c) nodeName))
                                   cs) <$> children p)
                (set_value (VCompound (Obj.delete compound nodeName)) p)),
             compound.
      split; [exact Hw|]. split; [reflexivity|].
      destruct p; cbn in *. split; reflexivity.
  Qed.

Lemma X7_witness :
    exists r,
      deleteTag sample_tree ["Data"; "b"] = Some r /\
      findNodeByPath r ["Data"; "b"] = None.
  Proof.
    eexists. split; [vm_compute; reflexivity|].
    refine (proj1 (X7_deleteTag_compound_child_gone sample_tree sample_tree _
                     ["Data"; "b"] sample_tree_shaped _ _ _ _)).
    - cbn. lia.
    - vm_compute. reflexivity.
    - reflexivity.
    - vm_compute. reflexivity.
  Defined.






Lemma find_child_elem_of (cs : list NbtTreeNode) (s : string) (c : NbtTreeNode) :
    find_child cs s = Some c -> c ∈ cs /\ name c = s.
  Proof.
    induction cs as [|x cs IH]; [discriminate|]. cbn [find_child].
    destruct (String.eqb_spec (name x) s) as [E|_].
    - intros H. injection H as <-. split; [left | exact E].
    - intros H. destruct (IH H). split; [now right | assumption].
  Qed.

Lemma find_child_some (cs : list NbtTreeNode) (s : string) (x : NbtTreeNode) :
    x ∈ cs -> name x = s -> is_Some (find_child cs s).
  Proof.
    intros Hx Hn. induction cs as [|y cs IH]; [inversion Hx|].
    cbn [find_child]. destruct (String.eqb_spec (name y) s) as [|Hy];
      [eauto|].
    apply IH. apply elem_of_cons in Hx as [->|Hx]; [|exact Hx].
    contradiction.
  Qed.

  (** In a list where [x] alone bears the name, the name finds [x]. *)
Lemma find_child_only (cs l : list NbtTreeNode) (s : string)
      (x : NbtTreeNode) :
    l ≡ₚ cs ++ [x] -> Forall (fun c => name c <> s) cs -> name x = s ->
    find_child l s = Some x.
  Proof.
    intros Hperm Hcs Hx.
    destruct (find_child_some l s x) as [c Hc]; [|exact Hx|].
    { rewrite Hperm. apply elem_of_app. right. left. }
    rewrite Hc. f_equal. apply find_child_elem_of in Hc as [Hin Hn].
    rewrite Hperm in Hin. apply elem_of_app in Hin as [Hin|Hin].
    - destruct (proj1 (Forall_forall _ _) Hcs c Hin Hn).
    - now apply list_elem_of_singleton in Hin.
  Qed.

  (** X9: addTag with a name no child of the Compound parent bears -
      a name that is neither an array index nor __proto__ - adds the
      entry to the parent's value and a node that the extended path
      resolves to: it has the fresh id, the given name, type and value,
      the path of its place, and no children. *)
Theorem X9_addTag_compound_read_back :
    forall (root p r : NbtTreeNode) (parentPath : list string)
           (s : string) (t : TagType) (v : NbtValue)
           (nodeIdCounter counter' : Z) (compound : NbtCompound),
      shaped_tree root -> parentPath <> [] ->
      findNodeByPath root parentPath = Some p ->
      type p = TCompound -> value p = VCompound compound ->
      Forall (fun c => name c <> s) (default [] (children p)) ->
      Obj.ordinary_key s = true ->
      addTag cmp root parentPath s t v nodeIdCounter = Some (r, counter') ->
      counter' = nodeIdCounter + 1 /\
      findNodeByPath r (parentPath ++ [s])
      = Some (Node (fst (generateNodeId nodeIdCounter)) s t v
                   (parentPath ++ [s]) None) /\
      exists p', findNodeByPath r parentPath = Some p' /\
                 value p' = VCompound (Obj.set compound s (MTag t v)).
  Proof.
    intros root p r parentPath s t v nodeIdCounter counter' compound
           Hshape Hne Hfind Htype Hv Hfresh _ Hadd.
    unfold addTag in Hadd.
    rewrite (cloneTree_shaped root Hshape) in Hadd. cbn in Hadd.
    rewrite Hfind in Hadd.
    destruct (mutate_found _ root parentPath) as [r1|] eqn:Hm;
      [|discriminate].
    cbn in Hadd.
    destruct (updateParentValues r1 parentPath) as [r2|] eqn:Hup;
      [|discriminate].
    cbn in Hadd. injection Hadd as -> <-. split; [reflexivity|].
    destruct (edit_at_parent _ root r1 r p parentPath s
                (addTag_at_name parentPath s t v _) Hne Hfind Hm Hup)
      as (p' & Hp' & Hw & Hchild).
    unfold addTag_at in Hp'. rewrite Htype, Hv in Hp'.
    injection Hp' as <-. split.
    - rewrite Hchild. destruct p; cbn [children set_children set_value].
      cbn [mbind option_bind]. apply (find_child_only (default [] children0)).
      + apply sort_perm.
      + exact Hfresh.
      + reflexivity.
    - eexists. split; [exact Hw|]. now destruct p.
  Qed.


Lemma mutate_child_split (g : NbtTreeNode -> option NbtTreeNode)
      (cs cs' : list NbtTreeNode) (s : string) (c : NbtTreeNode) :
    find_child cs s = Some c -> mutate_child g cs s = Some cs' ->
    exists l1 l2 c', cs = l1 ++ c :: l2 /\ g c = Some c' /\
                     cs' = l1 ++ c' :: l2.
  Proof.
    revert cs'. induction cs as [|x cs IH]; intros cs' Hfind Hm;
      [discriminate|].
    cbn [find_child mutate_child] in *.
    destruct (String.eqb (name x) s).
    - injection Hfind as ->. destruct (g c) as [c'|]; [|discriminate].
      injection Hm as <-. now exists [], cs, c'.
    - destruct (mutate_child g cs s) as [cs''|]; [|discriminate].
      injection Hm as <-.
      destruct (IH cs'' Hfind eq_refl) as (l1 & l2 & c' & -> & Hg & ->).
      now exists (x :: l1), l2, c'.
  Qed.

Lemma renameTag_at_name parentPath old new :
    keeps_name (renameTag_at cmp parentPath old new).
  Proof.
    intros x y. unfold renameTag_at.
    destruct (value x); try discriminate.
    destruct (mutate_child _ _ _); [|discriminate]. cbn.
    intros H. injection H as <-. now destruct x.
  Qed.

  (** X11: renameTag under a Compound parent whose value has an entry
      under the old name, to a new name that no child of the parent
      bears and that is neither an array index nor __proto__, moves
      that entry to the new key and makes the path with the new name
      resolve to the renamed node: the node the old path resolved to,
      with the new name and path and nothing else changed. *)
Theorem X11_renameTag_read_back :
    forall (root p n r : NbtTreeNode) (nodePath : list string)
           (newName : string) (compound : list (string * member NbtValue))
           (tag : member NbtValue),
      shaped_tree root -> (1 < length nodePath)%nat ->
      findNodeByPath root (removelast nodePath) = Some p ->
      findNodeByPath root nodePath = Some n ->
      type p = TCompound -> value p = VCompound compound ->
      Obj.get compound (List.last nodePath ""%string) = Some tag ->
      Forall (fun c => name c <> newName) (default [] (children p)) ->
      Obj.ordinary_key newName = true ->
      renameTag cmp root nodePath newName = Some r ->
      findNodeByPath r (removelast nodePath ++ [newName])
      = Some (set_path (removelast nodePath ++ [newName])
                       (set_name newName n)) /\
      exists p',
        findNodeByPath r (removelast nodePath) = Some p' /\
        value p'
        = VCompound (Obj.set (Obj.delete compound
                                         (List.last nodePath ""%string))
                             newName tag).
  Proof.
    intros root p n r nodePath newName compound tag Hshape Hlen Hparent
           Hnode Htype Hv Htag Hfresh _ Hren.
    unfold renameTag in Hren.
    destruct (Nat.leb_spec (length nodePath) 1) as [Hle|_]; [lia|].
    rewrite (cloneTree_shaped root Hshape) in Hren. cbn in Hren.
    destruct (split_last nodePath Hlen) as [Hne Heq].
    set (parentPath := removelast nodePath) in *.
    set (oldName := List.last nodePath ""%string) in *.
    rewrite Hparent, Hnode, Htype in Hren.
    rewrite bool_decide_eq_true_2 in Hren by reflexivity.
    destruct (mutate_found_found _ root r p parentPath
                (renameTag_at_name parentPath oldName newName) Hparent Hren)
      as (p' & Hp' & Hw).
    assert (Hchild : exists cs, children p = Some cs /\
                                find_child cs oldName = Some n).
    { rewrite Heq, findNodeByPath_walk, tail_snoc, walk_app in Hnode
        by exact Hne.
      rewrite findNodeByPath_walk in Hparent. rewrite Hparent in Hnode.
      cbn in Hnode. destruct (children p) as [cs|]; [|discriminate].
      exists cs. split; [reflexivity|].
      now destruct (find_child cs oldName). }
    destruct Hchild as (cs & Hcs & Hn).
    unfold renameTag_at, read_member in Hp'. rewrite Hv, Hcs, Htag in Hp'.
    cbn [default from_option Datatypes.id] in Hp'.
    lazymatch type of Hp' with
    | context [mutate_child ?g ?l ?s] =>
        destruct (mutate_child g l s) as [cs'|] eqn:Hcs'
    end; rewrite ?Hcs' in Hp'; cbn in Hp'; [|discriminate].
    injection Hp' as <-.
    destruct (mutate_child_split _ cs cs' oldName n Hn Hcs')
      as (l1 & l2 & n' & -> & Hn' & ->).
    injection Hn' as <-. split.
    - rewrite findNodeByPath_walk in *. rewrite tail_snoc by exact Hne.
      rewrite walk_app, Hw. destruct p; cbn [mbind option_bind walk children
        set_children set_value].
      rewrite (find_child_only (l1 ++ l2) _ newName
                 (set_path (parentPath ++ [newName]) (set_name newName n)));
        [reflexivity | | | now destruct n].
      + rewrite sort_perm. rewrite <- app_assoc. cbn.
        apply Permutation_app_head. apply Permutation_cons_append.
      + rewrite Hcs in Hfresh. cbn in Hfresh.
        apply Forall_app in Hfresh as [H1 H2]. apply Forall_cons in H2 as [_ H2].
        now apply Forall_app.
    - exists (set_children
                (Some (sort cmp name
                         (l1 ++ set_path (parentPath ++ [newName])
                                  (set_name newName n) :: l2)))
                (set_value
                   (VCompound (Obj.set (Obj.delete compound oldName)
                                       newName tag)) p)).
      split; [exact Hw|]. now destruct p.
  Qed.

End TreeEdits.

Section TreeEditsWitnesses.
Import Tree.

Lemma X9_witness :
    exists r,
      addTag codeUnitCompare sample_tree ["Data"; "a"] "k" TInt (VNumber 7) 8
      = Some (r, 9) /\
      findNodeByPath r ["Data"; "a"; "k"]
      = Some (Node "node-9" "k" TInt (VNumber 7) ["Data"; "a"; "k"] None).
  Proof.
    destruct (addTag codeUnitCompare sample_tree ["Data"; "a"] "k" TInt
                     (VNumber 7) 8) as [[r c]|] eqn:Hadd;
      [|vm_compute in Hadd; discriminate].
    destruct (X9_addTag_compound_read_back codeUnitCompare sample_tree
                (Node "node-2" "a" TCompound
                   (VCompound [("x", MTag TInt (VNumber 5))]) ["Data"; "a"]
                   (Some [Node "node-3" "x" TInt (VNumber 5)
                            ["Data"; "a"; "x"] None]))
                r ["Data"; "a"] "k" TInt (VNumber 7) 8 c
                [("x", MTag TInt (VNumber 5))] sample_tree_shaped)
      as (Hc & Hf & _);
      [discriminate | vm_compute; reflexivity | reflexivity | reflexivity
      | cbn; repeat constructor; discriminate | vm_compute; reflexivity
      | exact Hadd |].
    exists r. rewrite Hc. split; [reflexivity | exact Hf].
  Defined.


Lemma X11_witness :
    exists r,
      renameTag codeUnitCompare sample_tree ["Data"; "a"; "x"] "y" = Some r /\
      findNodeByPath r ["Data"; "a"; "y"]
      = Some (Node "node-3" "y" TInt (VNumber 5) ["Data"; "a"; "y"] None).
  Proof.
    destruct (renameTag codeUnitCompare sample_tree ["Data"; "a"; "x"] "y")
      as [r|] eqn:Hren; [|vm_compute in Hren; discriminate].
    exists r. split; [reflexivity|].
    refine (proj1 (X11_renameTag_read_back codeUnitCompare sample_tree
                     (Node "node-2" "a" TCompound
                        (VCompound [("x", MTag TInt (VNumber 5))]) ["Data"; "a"]
                        (Some [Node "node-3" "x" TInt (VNumber 5)
                                 ["Data"; "a"; "x"] None]))
                     (Node "node-3" "x" TInt (VNumber 5) ["Data"; "a"; "x"] None)
                     r ["Data"; "a"; "x"] "y" [("x", MTag TInt (VNumber 5))]
                     (MTag TInt (VNumber 5))
                     sample_tree_shaped _ _ _ _ _ _ _ _ Hren)).
    - cbn. lia.
    - vm_compute. reflexivity.
    - vm_compute. reflexivity.
    - reflexivity.
    - reflexivity.
    - reflexivity.
    - cbn. repeat constructor. discriminate.
    - vm_compute. reflexivity.
  Defined.

End TreeEditsWitnesses.

(** ** Saving and loading values *)

Section ConvertFacts.
Import Tree Convert.

Lemma convertTagType_name (t : TagType) :
    convertTagType (convertToNbtType t) = Own t.
  Proof. destruct t; vm_compute; reflexivity. Qed.

Lemma toInt8_small (z : Z) : int8 z -> toInt8 z = z.
  Proof.
    unfold int8, toInt8. intros H. rewrite Z.mod_small by lia. lia.
  Qed.

Lemma numbers_PNumber (a : list Z) : numbers (PArray (map PNumber a)) = Some a.
  Proof.
    cbn [numbers]. apply mapM_Some.
    induction a as [|z a IH]; constructor; [reflexivity | exact IH].
  Qed.

Lemma map_small (f : Z -> Z) (P : Z -> Prop) (a : list Z) :
    (forall z, P z -> f z = z) -> Forall P a -> map f a = a.
  Proof.
    intros Hf. induction 1 as [|z a Hz _ IH]; [reflexivity|].
    cbn. now rewrite Hf, IH.
  Qed.

Lemma long_of_pair (p : Long.plong) :
    long_of (pair_of p) = Some (Long.convertValue_long p).
  Proof. now destruct p. Qed.

Lemma well_typed_list_Forall (t : TagType) (vs : list NbtValue) :
    (fix all (l : list NbtValue) : Prop :=
       match l with
       | [] => True
       | x :: l' => well_typed t x /\ all l'
       end) vs <-> Forall (well_typed t) vs.
  Proof.
    induction vs as [|v vs IH]; [split; auto|].
    rewrite Forall_cons, <- IH. reflexivity.
  Qed.

Lemma well_typed_entries_Forall (es : list (string * member NbtValue)) :
    (fix all (l : list (string * member NbtValue)) : Prop :=
       match l with
       | [] => True
       | e :: l' =>
           match snd e with
           | MTag t' x => well_typed t' x
           | _ => False
           end /\ all l'
       end) es
    <-> Forall (fun e => match snd e with
                         | MTag t' x => well_typed t' x
                         | _ => False
                         end) es.
  Proof.
    induction es as [|e es IH]; [split; auto|].
    rewrite Forall_cons, <- IH. reflexivity.
  Qed.

Lemma to_entries (es : list (string * member NbtValue))
      (es' acc' : list (string * (string * PValue))) :
    Forall2 there es es' ->
    NoDup (map fst acc' ++ map fst es) ->
    fold_left
      (fun result e =>
         r ← result;
         match snd e with
         | MTag t x =>
             v ← convertToPrismarineValue t x;
             Some (Obj.set r (fst e) (convertToNbtType t, v))
         | _ => None
         end)
      es (Some acc') = Some (acc' ++ es').
  Proof.
    intros H. revert acc'.
    induction H as [|[k m] [k' [t' p]] es es' Hthere _ IH]; intros acc' Hnd.
    - now rewrite app_nil_r.
    - unfold there in Hthere. cbn [fst snd] in *.
      destruct m as [t v| |]; try contradiction.
      destruct Hthere as (Hk & Ht & Hto & _). subst k' t'.
      cbn [fold_left fst snd mbind option_bind]. rewrite Hto.
      cbn [mbind option_bind]. rewrite Obj_set_fresh.
      + rewrite IH; [now rewrite <- app_assoc|].
        rewrite map_app, <- app_assoc. exact Hnd.
      + apply NoDup_app in Hnd as (_ & Hd & _).
        intros Hin. apply (Hd k Hin). left.
  Qed.

Lemma from_entries (es acc : list (string * member NbtValue))
      (es' : list (string * (string * PValue))) :
    Forall2 there es es' ->
    NoDup (map fst acc ++ map fst es) ->
    fold_left
      (fun compound e =>
         c ← compound;
         match convertTagType (fst (snd e)) with
         | Own t' =>
             v ← convertValue (fst (snd e)) (snd (snd e));
             Some (Obj.set c (fst e) (MTag t' v))
         | _ => None
         end)
      es' (Some acc) = Some (acc ++ es).
  Proof.
    intros H. revert acc.
    induction H as [|[k m] [k' [t' p]] es es' Hthere _ IH]; intros acc Hnd.
    - now rewrite app_nil_r.
    - unfold there in Hthere. cbn [fst snd] in *.
      destruct m as [t v| |]; try contradiction.
      destruct Hthere as (Hk & Ht & _ & Hfrom). subst k' t'.
      cbn [fold_left fst snd mbind option_bind].
      rewrite convertTagType_name, Hfrom.
      cbn [mbind option_bind]. rewrite Obj_set_fresh.
      + rewrite IH; [now rewrite <- app_assoc|].
        rewrite map_app, <- app_assoc. exact Hnd.
      + apply NoDup_app in Hnd as (_ & Hd & _).
        intros Hin. apply (Hd k Hin). left.
  Qed.

Lemma long_there (b : Z) :
    Long.is_int64 b ->
    exists p, Long.convertToPrismarineValue_long b = Some p /\
              Long.convertValue_long p = b.
  Proof.
    intros Hb. pose proof (long_roundtrip b Hb) as H.
    destruct (Long.convertToPrismarineValue_long b) as [p|]; [|discriminate].
    injection H as H. now exists p.
  Qed.

Lemma round_trip (v : NbtValue) :
    forall t, well_typed t v ->
      exists p, convertToPrismarineValue t v = Some p /\
                convertValue (convertToNbtType t) p = Some v.
  Proof.
    induction v as [n|n|s|a|a|a|t' vs IH|es IH|] using NbtValue_nested_ind;
      intros t Hs; destruct t; cbn [well_typed] in Hs; try contradiction;
      try (eexists; split; reflexivity).
    - (* Long *)
      destruct (long_there n Hs) as (p & Hp & Hb).
      exists (pair_of p). cbn [convertToPrismarineValue]. rewrite Hp.
      split; [reflexivity|].
      destruct p; cbn [pair_of convertToNbtType]; rewrite <- Hb; reflexivity.
    - (* ByteArray *)
      eexists. split; [reflexivity|]. cbn [convertToNbtType].
      change (convertValue "byteArray" (PArray (map PNumber a)))
        with ((fun ns => VInt8Array (map toInt8 ns))
                <$> numbers (PArray (map PNumber a))).
      rewrite numbers_PNumber. cbn.
      now rewrite (map_small toInt8 int8 a toInt8_small Hs).
    - (* IntArray *)
      eexists. split; [reflexivity|]. cbn [convertToNbtType].
      change (convertValue "intArray" (PArray (map PNumber a)))
        with ((fun ns => VInt32Array (map JS.toInt32 ns))
                <$> numbers (PArray (map PNumber a))).
      rewrite numbers_PNumber. cbn.
      now rewrite (map_small JS.toInt32 int32 a toInt32_small Hs).
    - (* LongArray *)
      pose proof (longArray_roundtrip a Hs) as H.
      destruct (Long.convertToPrismarineValue_longArray a) as [ps|] eqn:Hps;
        [|discriminate].
      injection H as H. exists (PArray (map pair_of ps)).
      cbn [convertToPrismarineValue]. rewrite Hps. split; [reflexivity|].
      cbn [convertToNbtType].
      change (convertValue "longArray" (PArray (map pair_of ps)))
        with ((fun vs => VBigInt64Array (map JS.asInt64 vs))
                <$> mapM long_of (map pair_of ps)).
      assert (Hm : mapM long_of (map pair_of ps)
                   = Some (map Long.convertValue_long ps)).
      { apply mapM_Some. clear. induction ps as [|p ps IHps]; constructor;
          [apply long_of_pair | exact IHps]. }
      rewrite Hm. cbn. f_equal. f_equal. rewrite <- H.
      unfold Long.convertValue_longArray. now rewrite map_map.
    - (* List *)
      apply well_typed_list_Forall in Hs.
      assert (Hm : exists ps,
                 mapM (convertToPrismarineValue t') vs = Some ps /\
                 mapM (convertValue (convertToNbtType t')) ps = Some vs).
      { induction vs as [|v vs IHvs]; [now exists []|].
        apply Forall_cons in IH as [Hv IH].
        apply Forall_cons in Hs as [Hsv Hs].
        destruct (Hv t' Hsv) as (p & Hp & Hq).
        destruct (IHvs IH Hs) as (ps & Hps & Hqs).
        exists (p :: ps). cbn [mapM]. rewrite Hp, Hps, Hq, Hqs. now cbn. }
      destruct Hm as (ps & Hps & Hqs).
      exists (PList (convertToNbtType t') ps).
      cbn [convertToPrismarineValue]. rewrite Hps. split; [reflexivity|].
      cbn [convertToNbtType].
      change (convertValue "list" (PList (convertToNbtType t') ps))
        with (match convertTagType (convertToNbtType t') with
              | Own t'' =>
                  VList t'' <$> mapM (convertValue (convertToNbtType t')) ps
              | _ => None
              end).
      now rewrite convertTagType_name, Hqs.
    - (* Compound *)
      destruct Hs as [Hnd Hs]. apply well_typed_entries_Forall in Hs.
      assert (Hes : exists es', Forall2 there es es').
      { induction es as [|[k m] es IHes]; [exists []; constructor|].
        apply Forall_cons in IH as [Hv IH].
        apply Forall_cons in Hs as [Hsv Hs]. cbn [fst snd] in *.
        destruct m as [t v| |]; try contradiction. cbn [of_tag] in Hv.
        apply NoDup_cons in Hnd as [_ Hnd].
        destruct (Hv t Hsv) as (p & Hp & Hq).
        destruct (IHes IH Hnd Hs) as (es' & Hes').
        exists ((k, (convertToNbtType t, p)) :: es'). constructor; [|exact Hes'].
        unfold there. cbn [fst snd]. repeat split; assumption. }
      destruct Hes as (es' & Hes').
      exists (PCompound es'). cbn [convertToPrismarineValue].
      rewrite (to_entries es es' [] Hes' Hnd). split; [reflexivity|].
      cbn [convertToNbtType].
      change (convertValue "compound" (PCompound es'))
        with (VCompound <$>
                fold_left
                  (fun compound e =>
                     c ← compound;
                     match convertTagType (fst (snd e)) with
                     | Own t' =>
                         v ← convertValue (fst (snd e)) (snd (snd e));
                         Some (Obj.set c (fst e) (MTag t' v))
                     | _ => None
                     end)
                  es' (Some [])).
      now rewrite (from_entries es [] es' Hes' Hnd).
  Qed.

  (** X12: the two tables of tag type names are inverse to one another:
      the name convertToNbtType gives a tag type is converted back to
      that type by convertTagType (End included, through the fallback),
      and a name that convertTagType takes to a type other than End is
      the name convertToNbtType gives that type. *)
Theorem X12_tag_type_names_inverse :
    (forall t, convertTagType (convertToNbtType t) = Own t) /\
    (forall s t, convertTagType s = Own t -> t <> TEnd ->
                 convertToNbtType t = s).
  Proof.
    split; [exact convertTagType_name|].
    intros s t H Hne. unfold convertTagType, lookup_literal, tagTypeMap in H.
    cbn [Obj.get] in H.
    repeat match type of H with
           | context [String.eqb ?a s] =>
               destruct (String.eqb_spec a s) as [<-|_];
               [injection H as <-; reflexivity|]
           end.
    destruct (bool_decide _); [discriminate|].
    injection H as <-. contradiction.
  Qed.

Lemma X12_witness : convertToNbtType TLongArray = "longArray"%string.
  Proof.
    apply (proj2 X12_tag_type_names_inverse "longArray"%string TLongArray);
      [vm_compute; reflexivity | discriminate].
  Defined.

  (** X13: a value whose contents fit its tag type survives the way out
      and back: convertToPrismarineValue returns a prismarine value, and
      convertValue, given the name of the type, turns that value into
      the original one - at every depth of lists and compounds. *)
Theorem X13_value_round_trip :
    forall (t : TagType) (v : NbtValue),
      well_typed t v ->
      exists p, convertToPrismarineValue t v = Some p /\
                convertValue (convertToNbtType t) p = Some v.
  Proof. intros t v. apply round_trip. Qed.

Lemma X13_witness :
    exists p,
      convertToPrismarineValue TCompound
        (VCompound
           [("time", MTag TLong (VBigInt (-9223372036854775808)));
            ("pos", MTag TList (VList TInt [VNumber 1; VNumber (-2)]));
            ("bytes", MTag TByteArray (VInt8Array [-128; 127]))]) = Some p /\
      convertValue "compound" p
      = Some (VCompound
                [("time", MTag TLong (VBigInt (-9223372036854775808)));
                 ("pos", MTag TList (VList TInt [VNumber 1; VNumber (-2)]));
                 ("bytes", MTag TByteArray (VInt8Array [-128; 127]))]).
  Proof.
    apply (X13_value_round_trip TCompound). cbn [well_typed fst snd map].
    split; [apply (bool_decide_unpack _); vm_compute; exact I|].
    split; [unfold Long.is_int64; lia|].
    split; [auto|]. split; [|exact I].
    repeat constructor; unfold int8; lia.
  Defined.

  (** X14: the value createDefaultValue makes for a tag type other than
End fits that type: it is cloned as it is and survives saving and
      loading. *)
Theorem X14_default_value_fits :
    forall t : TagType,
      t <> TEnd ->
      well_typed t (Types.createDefaultValue t) /\
      cloneValue t (Types.createDefaultValue t)
      = Some (Types.createDefaultValue t).
  Proof.
    intros t Ht. destruct t; try contradiction;
      (split; [cbn; auto | reflexivity]).
    - unfold Long.is_int64. lia.
    - split; [constructor | exact I].
  Qed.

Lemma X14_witness :
    well_typed TCompound (Types.createDefaultValue TCompound) /\
    cloneValue TCompound (Types.createDefaultValue TCompound)
    = Some (Types.createDefaultValue TCompound).
  Proof. apply X14_default_value_fits. discriminate. Defined.

End ConvertFacts.

(** ** Pasting under a name not yet taken *)

Section PasteName.
Import Hook.

Lemma append_nil_r (s : string) : s +:+ "" = s.
  Proof.
    induction s as [|c s IH]; [reflexivity|].
    change (String c s +:+ "") with (String c (s +:+ "")). now rewrite IH.
  Qed.

Lemma append_inv_tail (a b : string) (c : ascii) :
    a +:+ String c "" = b +:+ String c "" -> a = b.
  Proof.
    revert b. induction a as [|x a IH]; intros [|y b] H.
    - reflexivity.
    - change (String c "" = String y (b +:+ String c "")) in H.
      injection H as -> H. destruct b; discriminate.
    - change (String x (a +:+ String c "") = String c "") in H.
      injection H as -> H. destruct a; discriminate.
    - change (String x (a +:+ String c "") = String y (b +:+ String c ""))
        in H.
      injection H as -> H. f_equal. now apply IH.
  Qed.

Lemma numbered_inj (base : string) (j k : Z) :
    numbered base j = numbered base k -> j = k.
  Proof.
    unfold numbered. intros H.
    apply String.app_inj in H. apply String.app_inj in H.
    apply append_inv_tail in H. now apply pretty_Z_inj in H.
  Qed.

Lemma numbered_not_base (base : string) (k : Z) : numbered base k <> base.
  Proof.
    unfold numbered. intros H. rewrite <- (append_nil_r base) in H at 2.
    apply String.app_inj in H. discriminate.
  Qed.

Lemma includes_elem (existingNames : list string) (name : string) :
    includes existingNames name = true <-> name ∈ existingNames.
  Proof.
    unfold includes. rewrite existsb_exists, list_elem_of_In. split.
    - intros (x & Hx & He). apply String.eqb_eq in He. now subst.
    - intros H. exists name. split; [exact H | apply String.eqb_refl].
  Qed.

Lemma includes_without (existingNames : list string) (x name : string) :
    name <> x ->
    includes (filter (fun e => e <> x) existingNames) name
    = includes existingNames name.
  Proof.
    intros Hne. apply eq_true_iff_eq. rewrite !includes_elem.
    rewrite list_elem_of_filter. tauto.
  Qed.

Lemma unique_name_without (base x : string) (fuel : nat) :
    forall existingNames name counter,
      name <> x -> (forall k, counter <= k -> numbered base k <> x) ->
      unique_name fuel (filter (fun e => e <> x) existingNames) base name
                  counter
      = unique_name fuel existingNames base name counter.
  Proof.
    induction fuel as [|fuel IH]; intros existingNames name counter Hne Hfut;
      [reflexivity|].
    cbn [unique_name]. rewrite includes_without by exact Hne.
    destruct (includes existingNames name); [|reflexivity].
    apply IH; [apply Hfut; lia|]. intros k Hk. apply Hfut. lia.
  Qed.

Lemma length_without (existingNames : list string) (x : string) :
    x ∈ existingNames ->
    (length (filter (fun e => e <> x) existingNames) < length existingNames)%nat.
  Proof.
    induction existingNames as [|e l IH]; intros Hx; [inversion Hx|].
    rewrite filter_cons. destruct (decide (e <> x)) as [Hne|Heq].
    - cbn. apply elem_of_cons in Hx as [->|Hx]; [contradiction|].
      specialize (IH Hx). lia.
    - cbn. pose proof (length_filter (fun e => e <> x) l). lia.
  Qed.

Lemma unique_name_returns (base : string) (fuel : nat) :
    forall existingNames name counter,
      (length existingNames < fuel)%nat ->
      (forall k, counter <= k -> numbered base k <> name) ->
      exists r, unique_name fuel existingNames base name counter = Some r.
  Proof.
    induction fuel as [|fuel IH]; intros existingNames name counter Hlen Hfut;
      [lia|].
    cbn [unique_name].
    destruct (includes existingNames name) eqn:Hin; [|eauto].
    apply includes_elem in Hin.
    rewrite <- (unique_name_without base name); [|apply Hfut; lia|].
    - apply IH.
      + pose proof (length_without existingNames name Hin). lia.
      + intros k Hk E. apply numbered_inj in E. lia.
    - intros k Hk. apply Hfut. lia.
  Qed.

Lemma unique_name_fresh (base : string) (fuel : nat) :
    forall existingNames name counter r,
      unique_name fuel existingNames base name counter = Some r ->
      (r ∉ existingNames) /\
      (r = name \/ exists k, counter <= k /\ r = numbered base k).
  Proof.
    induction fuel as [|fuel IH]; intros existingNames name counter r H;
      [discriminate|].
    cbn [unique_name] in H.
    destruct (includes existingNames name) eqn:Hin.
    - destruct (IH _ _ _ _ H) as [Hr [->|(k & Hk & ->)]].
      + split; [exact Hr|]. right. exists counter. split; [lia | reflexivity].
      + split; [exact Hr|]. right. exists k. split; [lia | reflexivity].
    - injection H as <-. split; [|now left].
      intros Hr. apply includes_elem in Hr. congruence.
  Qed.

  (** X15: the loop by which pasteNode picks the name of the pasted node
      ends within one turn more than there are names in use, and the
      name it picks is not in use: the clipboard's own name when that is
      free, else that name followed by a number in parentheses. *)
Theorem X15_pasteNode_name_not_in_use :
    forall (existingNames : list string) (base : string) (fuel : nat),
      (length existingNames < fuel)%nat ->
      exists r,
        pasteNode_name fuel existingNames base = Some r /\
        (r ∉ existingNames) /\
        (base ∉ existingNames -> r = base) /\
        (r = base \/ exists k, 1 <= k /\ r = numbered base k).
  Proof.
    intros existingNames base fuel Hlen. unfold pasteNode_name.
    destruct (unique_name_returns base fuel existingNames base 1 Hlen)
      as [r Hr]; [intros k _; apply numbered_not_base|].
    exists r. split; [exact Hr|].
    destruct (unique_name_fresh base fuel _ _ _ _ Hr) as [Hfresh Hform].
    split; [exact Hfresh|]. split; [|exact Hform].
    intros Hbase. destruct fuel as [|fuel]; [lia|]. cbn [unique_name] in Hr.
    destruct (includes existingNames base) eqn:Hin.
    - apply includes_elem in Hin. contradiction.
    - now injection Hr as <-.
  Qed.

Lemma X15_witness :
    exists r,
      pasteNode_name 3 ["a"; "a (1)"]%string "a" = Some r /\
      (r ∉ ["a"; "a (1)"]%string) /\
      ("a"%string ∉ ["a"; "a (1)"]%string -> r = "a"%string) /\
      (r = "a"%string \/ exists k, 1 <= k /\ r = numbered "a" k).
  Proof. apply X15_pasteNode_name_not_in_use. cbn. lia. Defined.

End PasteName.
